(** * PRFC gateway: graph engine and predictive failover controller

    Shallow embedding of [GraphEngine] (topology, Dijkstra, k node-disjoint
    paths) and of [PRFCController] (EWMA telemetry, path health state
    machine, rebalancing, gradual revert).

    Conventions of the embedding:
    - node and path identifiers are integers ([Z]);
    - JavaScript numbers that carry latencies, loads and delays are IEEE
      doubles in the source and exact rationals ([Q]) here; [Infinity] and
      the non-finite results of a division by zero are explicit ([Dist],
      [option]);
    - a JavaScript [Map] that is iterated is an association list in
      insertion order ([JsMap]); maps and sets that are only looked up are
      stdpp's [gmap] and [gset];
    - [now()] is an explicit argument of every operation that reads the
      clock. *)

From Stdlib Require Import ZArith QArith Qabs List Lia Lqa Bool Permutation String
  Sorted.
From stdpp Require Import gmap.
Import ListNotations.
Local Open Scope Z_scope.
Set Warnings "-clear-no-such-hyp".

(** ** Insertion-ordered maps keyed by numbers (JavaScript [Map]) *)

Module JsMap.
Section Ops.
Context {V : Type}.

Fixpoint get (k : Z) (m : list (Z * V)) : option V :=
    match m with
    | [] => None
    | (k', v) :: r => if k =? k' then Some v else get k r
    end.

  (** [Map.prototype.set]: an existing key keeps its position. *)
Fixpoint set (k : Z) (v : V) (m : list (Z * V)) : list (Z * V) :=
    match m with
    | [] => [(k, v)]
    | (k', v') :: r => if k =? k' then (k, v) :: r else (k', v') :: set k v r
    end.

Definition has (k : Z) (m : list (Z * V)) : bool :=
    match get k m with Some _ => true | None => false end.

Definition keys (m : list (Z * V)) : list Z := m.*1.
Definition values (m : list (Z * V)) : list V := m.*2.

Lemma get_set_eq k v m : get k (set k v m) = Some v.
Proof.
    induction m as [|[k' v'] r IH]; simpl.
    - now rewrite Z.eqb_refl.
    - destruct (k =? k') eqn:E; simpl; rewrite ?Z.eqb_refl, ?E; auto.
Qed.

Lemma get_set_ne k k' v m : k <> k' -> get k' (set k v m) = get k' m.
Proof.
    intros Hne. induction m as [|[k0 v0] r IH]; simpl.
    - destruct (k' =? k) eqn:E; auto. apply Z.eqb_eq in E. congruence.
    - destruct (k =? k0) eqn:E; simpl.
      + apply Z.eqb_eq in E. subst k0.
        destruct (k' =? k) eqn:E'; auto. apply Z.eqb_eq in E'. congruence.
      + now rewrite IH.
Qed.

Lemma get_set k k' v m :
    get k' (set k v m) = if k' =? k then Some v else get k' m.
Proof.
    destruct (k' =? k) eqn:E.
    - apply Z.eqb_eq in E. subst. apply get_set_eq.
    - apply Z.eqb_neq in E. apply get_set_ne. congruence.
Qed.

Lemma keys_set_in k v m x : x ∈ keys (set k v m) <-> x = k \/ x ∈ keys m.
Proof.
    unfold keys. induction m as [|[k' v'] r IH]; simpl.
    - rewrite list_elem_of_singleton, elem_of_nil. tauto.
    - destruct (k =? k') eqn:E; simpl.
      + apply Z.eqb_eq in E. subst. rewrite !elem_of_cons. tauto.
      + rewrite !elem_of_cons, IH. tauto.
Qed.

Lemma keys_set_NoDup k v m : NoDup (keys m) -> NoDup (keys (set k v m)).
Proof.
    unfold keys. induction m as [|[k' v'] r IH]; simpl; intros Hnd.
    - apply NoDup_singleton.
    - apply NoDup_cons in Hnd as [Hnotin Hnd'].
      destruct (k =? k') eqn:E; simpl.
      + apply Z.eqb_eq in E. subst. now apply NoDup_cons.
      + apply NoDup_cons. split; [|auto].
        intros Hin. apply (keys_set_in k v r k') in Hin.
        apply Z.eqb_neq in E. destruct Hin; [congruence | contradiction].
Qed.

Lemma get_Some_In k v m : get k m = Some v -> (k, v) ∈ m.
Proof.
    induction m as [|[k' v'] r IH]; simpl; [discriminate|].
    destruct (k =? k') eqn:E.
    - apply Z.eqb_eq in E. intros [= ->]. subst. left.
    - intros H. right. auto.
Qed.

Lemma In_get_Some k v m : NoDup (keys m) -> (k, v) ∈ m -> get k m = Some v.
Proof.
    unfold keys. induction m as [|[k' v'] r IH]; simpl; intros Hnd Hin.
    - now apply elem_of_nil in Hin.
    - apply NoDup_cons in Hnd as [Hnotin Hnd'].
      apply elem_of_cons in Hin as [Heq | Hin].
      + inversion Heq; subst. now rewrite Z.eqb_refl.
      + destruct (k =? k') eqn:E; [|auto].
        apply Z.eqb_eq in E. subst. exfalso. apply Hnotin.
        apply list_elem_of_fmap. now exists (k', v).
Qed.

Lemma get_None_keys k m : get k m = None <-> k ∉ keys m.
Proof.
    unfold keys. induction m as [|[k' v'] r IH]; simpl.
    - split; [intros _; apply not_elem_of_nil | auto].
    - rewrite not_elem_of_cons. destruct (k =? k') eqn:E.
      + apply Z.eqb_eq in E. subst. split; [discriminate | tauto].
      + apply Z.eqb_neq in E. rewrite IH. tauto.
Qed.

Lemma get_Some_keys k v m : get k m = Some v -> k ∈ keys m.
Proof.
    intros H. destruct (decide (k ∈ keys m)) as [|Hn]; [assumption|].
    apply get_None_keys in Hn. congruence.
Qed.
End Ops.
End JsMap.

(** ** Stable sort with a JavaScript comparator

    [Array.prototype.sort] is stable: [a] stays before [b] unless the
    comparator puts it strictly after. *)

Section StableSort.
Context {A : Type} (cmp : A -> A -> Q).

Fixpoint sort_insert (x : A) (l : list A) : list A :=
    match l with
    | [] => [x]
    | y :: r => if Qlt_le_dec 0 (cmp x y) then y :: sort_insert x r else x :: l
    end.

Definition js_sort (l : list A) : list A := fold_right sort_insert [] l.

Lemma sort_insert_perm x l : Permutation (x :: l) (sort_insert x l).
Proof.
    induction l as [|y r IH]; simpl; [reflexivity|].
    destruct (Qlt_le_dec 0 (cmp x y)); [|reflexivity].
    rewrite perm_swap. now constructor.
Qed.

Lemma js_sort_perm l : Permutation l (js_sort l).
Proof.
    induction l as [|x r IH]; simpl; [reflexivity|].
    rewrite <- sort_insert_perm. now constructor.
Qed.

Lemma js_sort_elem_of x l : x ∈ js_sort l <-> x ∈ l.
Proof. now rewrite <- (js_sort_perm l). Qed.

Lemma js_sort_length l : length (js_sort l) = length l.
Proof. symmetry. apply Permutation_length, js_sort_perm. Qed.
End StableSort.

(** [x || d] on a possibly-undefined number: [undefined] and [0] are both
    falsy. *)
Definition js_or (o : option Z) (d : Z) : Z :=
  match o with
  | Some x => if x =? 0 then d else x
  | None => d
  end.

Lemma js_or_0 o : js_or o 0 = default 0 o.
Proof. destruct o as [x|]; simpl; [|reflexivity]. destruct (Z.eqb_spec x 0); auto. Qed.

(** * PRFCController: bottleneck identification *)

Module Bottleneck.

  (** [new Set(path)], iterated: distinct nodes by first occurrence. *)
Definition set_add (s : list Z) (n : Z) : list Z :=
    if bool_decide (n ∈ s) then s else s ++ [n].

Definition uniqueNodes (path : list Z) : list Z := fold_left set_add path [].

  (** [nodeCount.set(nodeId, (nodeCount.get(nodeId) || 0) + 1)] *)
Definition bump (nodeCount : list (Z * Z)) (nodeId : Z) : list (Z * Z) :=
    JsMap.set nodeId (js_or (JsMap.get nodeId nodeCount) 0 + 1) nodeCount.

Definition countPath (nodeCount : list (Z * Z)) (path : list Z) : list (Z * Z) :=
    fold_left bump (uniqueNodes path) nodeCount.

Definition countNodes (paths : list (list Z)) : list (Z * Z) :=
    fold_left countPath paths [].

  (** [Math.max(2, Math.ceil(paths.length * 0.5))] *)
Definition threshold (paths : list (list Z)) : Z :=
    Z.max 2 ((Z.of_nat (length paths) + 1) / 2).

Definition byCountDesc (nodeCount : list (Z * Z)) (a b : Z) : Q :=
    inject_Z (js_or (JsMap.get b nodeCount) 0 - js_or (JsMap.get a nodeCount) 0).

Definition findCommonNodes (paths : list (list Z)) : list Z :=
    match paths with
    | [] => []
    | [p] => p
    | _ =>
        let nodeCount := countNodes paths in
        let commonNodes :=
          (filter (fun e : Z * Z => threshold paths <= e.2) nodeCount).*1 in
        js_sort (byCountDesc nodeCount) commonNodes
    end.

  (** Number of paths of [paths] on which node [n] lies. *)
Definition occurrences (n : Z) (paths : list (list Z)) : Z :=
    Z.of_nat (length (filter (fun p : list Z => n ∈ p) paths)).

  (** The property the specification asks of a bottleneck set: no
      reported node is the first or the last node of an input path. *)
Definition excludes_endpoints (paths : list (list Z)) (res : list Z) : Prop :=
    forall n p, n ∈ res -> p ∈ paths -> head p <> Some n /\ last p <> Some n.

  (** ** Lemmas *)

Lemma fold_set_add_spec path : forall s,
    NoDup s ->
    NoDup (fold_left set_add path s) /\
    forall n, n ∈ fold_left set_add path s <-> n ∈ s \/ n ∈ path.
Proof.
    induction path as [|a path IH]; intros s Hs; simpl.
    - split; [assumption|]. intros n. rewrite elem_of_nil. tauto.
    - assert (Hs' : NoDup (set_add s a)).
      { unfold set_add. case_bool_decide; [assumption|].
        apply NoDup_app. repeat split; [assumption| |apply NoDup_singleton].
        intros x Hx Hx'. apply list_elem_of_singleton in Hx'. now subst. }
      destruct (IH _ Hs') as [Hnd Hin]. split; [assumption|].
      intros n. rewrite Hin, elem_of_cons. unfold set_add.
      case_bool_decide as Ha.
      + split; [tauto|]. intros [?|[->|?]]; auto.
      + rewrite elem_of_app, list_elem_of_singleton. tauto.
Qed.

Lemma uniqueNodes_NoDup path : NoDup (uniqueNodes path).
Proof. apply fold_set_add_spec, NoDup_nil_2. Qed.

Lemma uniqueNodes_elem_of n path : n ∈ uniqueNodes path <-> n ∈ path.
Proof.
    unfold uniqueNodes.
    destruct (fold_set_add_spec path [] (NoDup_nil_2)) as [_ H].
    rewrite H, elem_of_nil. tauto.
Qed.

Lemma fold_bump_get k l : forall m,
    NoDup l ->
    JsMap.get k (fold_left bump l m) =
      if bool_decide (k ∈ l) then Some (default 0 (JsMap.get k m) + 1)
      else JsMap.get k m.
Proof.
    induction l as [|a l IH]; intros m Hnd; simpl.
    - reflexivity.
    - apply NoDup_cons in Hnd as [Ha Hnd]. rewrite (IH _ Hnd).
      unfold bump. rewrite !JsMap.get_set, js_or_0.
      destruct (Z.eqb_spec k a) as [->|Hne].
      + rewrite (bool_decide_eq_false_2 _ Ha).
        rewrite bool_decide_eq_true_2 by left. reflexivity.
      + case_bool_decide as H1; case_bool_decide as H2; try reflexivity.
        * exfalso. apply H2. now right.
        * exfalso. apply elem_of_cons in H2 as [?|?]; [congruence | contradiction].
Qed.

Lemma fold_bump_NoDup l : forall m,
    NoDup (JsMap.keys m) -> NoDup (JsMap.keys (fold_left bump l m)).
Proof.
    induction l as [|a l IH]; intros m Hm; simpl; [assumption|].
    apply IH. now apply JsMap.keys_set_NoDup.
Qed.

Lemma countNodes_from_NoDup paths : forall m,
    NoDup (JsMap.keys m) -> NoDup (JsMap.keys (fold_left countPath paths m)).
Proof.
    induction paths as [|p paths IH]; intros m Hm; simpl; [assumption|].
    apply IH. now apply fold_bump_NoDup.
Qed.

Definition occ_opt (n : Z) (paths : list (list Z)) : option Z :=
    if occurrences n paths =? 0 then None else Some (occurrences n paths).

Lemma occurrences_nonneg n paths : 0 <= occurrences n paths.
Proof. unfold occurrences. lia. Qed.

Lemma occurrences_snoc n done p :
    occurrences n (done ++ [p]) =
      occurrences n done + (if bool_decide (n ∈ p) then 1 else 0).
Proof.
    unfold occurrences. rewrite filter_app, length_app.
    rewrite filter_cons, filter_nil. case_bool_decide as H.
    - rewrite decide_True by assumption. simpl. lia.
    - rewrite decide_False by assumption. simpl. lia.
Qed.

Lemma countNodes_from_get k paths : forall done m,
    (forall k, JsMap.get k m = occ_opt k done) ->
    JsMap.get k (fold_left countPath paths m) = occ_opt k (done ++ paths).
Proof.
    induction paths as [|p paths IH]; intros done m Hm; simpl.
    - now rewrite app_nil_r.
    - replace (done ++ p :: paths) with ((done ++ [p]) ++ paths)
        by now rewrite <- app_assoc.
      apply IH. intros k'. unfold countPath.
      rewrite fold_bump_get by apply uniqueNodes_NoDup.
      rewrite Hm. unfold occ_opt. rewrite occurrences_snoc.
      pose proof (occurrences_nonneg k' done) as Hge.
      case_bool_decide as H1; case_bool_decide as H2;
        rewrite uniqueNodes_elem_of in H1; try contradiction.
      + destruct (Z.eqb_spec (occurrences k' done) 0) as [E|E]; simpl.
        * rewrite E. reflexivity.
        * destruct (Z.eqb_spec (occurrences k' done + 1) 0); [lia | reflexivity].
      + now rewrite Z.add_0_r.
Qed.

Lemma countNodes_get k paths : JsMap.get k (countNodes paths) = occ_opt k paths.
Proof.
    unfold countNodes. rewrite (countNodes_from_get k paths [] []); [reflexivity|].
    intros k'. reflexivity.
Qed.

Lemma threshold_ge_2 paths : 2 <= threshold paths.
Proof. unfold threshold. lia. Qed.

Lemma general_case_elem_of n paths :
    n ∈ js_sort (byCountDesc (countNodes paths))
          (filter (fun e : Z * Z => threshold paths <= e.2) (countNodes paths)).*1
    <-> threshold paths <= occurrences n paths.
Proof.
    rewrite js_sort_elem_of, list_elem_of_fmap.
    pose proof (threshold_ge_2 paths) as Hthr.
    assert (Hnd : NoDup (JsMap.keys (countNodes paths))).
    { apply countNodes_from_NoDup. apply NoDup_nil_2. }
    split.
    - intros [[k c] [-> Hin]]. apply list_elem_of_filter in Hin as [Hc Hin].
      simpl in *. apply JsMap.In_get_Some in Hin; [|assumption].
      rewrite countNodes_get in Hin. unfold occ_opt in Hin.
      destruct (occurrences k paths =? 0); [discriminate|].
      now injection Hin as <-.
    - intros Hocc. exists (n, occurrences n paths). split; [reflexivity|].
      apply list_elem_of_filter. split; [assumption|].
      apply JsMap.get_Some_In. rewrite countNodes_get. unfold occ_opt.
      destruct (Z.eqb_spec (occurrences n paths) 0); [lia | reflexivity].
Qed.

Lemma occurrences_pos_elem_of n paths :
    0 < occurrences n paths -> exists p, p ∈ paths /\ n ∈ p.
Proof.
    unfold occurrences. intros H.
    destruct (filter (fun p : list Z => n ∈ p) paths) as [|p l] eqn:E;
      [simpl in H; lia|].
    exists p. apply and_comm, (list_elem_of_filter (fun p : list Z => n ∈ p)).
    rewrite E. left.
Qed.

(** Scenario 3 of the specification: degraded paths A and B. *)
Definition scenarioAB : list (list Z) := [[1; 9; 19]; [1; 9; 20]].

(** C1 (as stated) fails: on A=[1,9,19], B=[1,9,20] the controller counts
    every node of a path, the shared source 1 included, and returns
    [1, 9] instead of [9]. *)
Lemma findCommonNodes_reports_source :
  findCommonNodes scenarioAB = [1; 9] /\
  findCommonNodes scenarioAB <> [9] /\
  ~ excludes_endpoints scenarioAB (findCommonNodes scenarioAB).
Proof.
  assert (E : findCommonNodes scenarioAB = [1; 9]) by (vm_compute; reflexivity).
  rewrite E. split; [reflexivity|]. split; [discriminate|].
  intros H. destruct (H 1 [1; 9; 19]) as [Hhd _].
  - left.
  - left.
  - now apply Hhd.
Qed.

(** C1 (amended): for two or more paths, findCommonNodes returns exactly
    the nodes that lie on at least max(2, ceil(|D|/2)) of the paths, each
    path counted once and its first and last node counted like any other;
    every reported node lies on some input path. *)
Theorem findCommonNodes_threshold (paths : list (list Z)) (n : Z) :
  (2 <= length paths)%nat ->
  (n ∈ findCommonNodes paths <-> threshold paths <= occurrences n paths) /\
  (n ∈ findCommonNodes paths -> exists p, p ∈ paths /\ n ∈ p).
Proof.
  intros Hlen.
  assert (Hiff : n ∈ findCommonNodes paths <->
                 threshold paths <= occurrences n paths).
  { destruct paths as [|p1 [|p2 rest]]; simpl in Hlen; try lia.
    unfold findCommonNodes. apply general_case_elem_of. }
  split; [exact Hiff|].
  intros Hin. apply occurrences_pos_elem_of.
  apply Hiff in Hin. pose proof (threshold_ge_2 paths). lia.
Qed.

Lemma findCommonNodes_threshold_witness :
  (9 ∈ findCommonNodes scenarioAB <->
     threshold scenarioAB <= occurrences 9 scenarioAB) /\
  (9 ∈ findCommonNodes scenarioAB -> exists p, p ∈ scenarioAB /\ 9 ∈ p).
Proof. apply (findCommonNodes_threshold scenarioAB 9). simpl. lia. Defined.

(** C2 (as stated) fails: a single degraded path is returned whole. *)
Lemma findCommonNodes_single_not_empty :
  findCommonNodes [[1; 9; 19]] = [1; 9; 19] /\ findCommonNodes [[1; 9; 19]] <> [].
Proof. split; [reflexivity | discriminate]. Qed.

(** C2 (amended): for a single-element input findCommonNodes returns that
    path's node list unchanged; the threshold is not consulted. *)
Theorem findCommonNodes_single (p : list Z) : findCommonNodes [p] = p.
Proof. reflexivity. Qed.

End Bottleneck.

(** * Rational arithmetic helpers *)

Definition Qltb (a b : Q) : bool := negb (Qle_bool b a).

Lemma Qltb_lt a b : Qltb a b = true <-> (a < b)%Q.
Proof.
  unfold Qltb. rewrite negb_true_iff, <- not_true_iff_false, Qle_bool_iff.
  split; [apply Qnot_le_lt | apply Qlt_not_le].
Qed.

Lemma Qltb_ge a b : Qltb a b = false <-> (b <= a)%Q.
Proof. unfold Qltb. now rewrite negb_false_iff, Qle_bool_iff. Qed.

(** Closed decidable facts, settled by evaluation. *)
Ltac by_compute :=
  match goal with
  | |- ?P => apply (@bool_decide_unpack P _); vm_compute; exact I
  end.

Ltac by_compute_forall :=
  vm_compute; repeat constructor.

Definition Qsum (l : list Q) : Q := fold_right Qplus 0%Q l.

(** A path as the graph engine reports it ([status] is always ['active']). *)
Record Path := mkPath {
  p_nodeIds : list Z;
  p_latency : Q;
  p_capacity : Q;
  p_score : Q
}.

(** * PRFCController *)

Module PRFC.
Local Open Scope Q_scope.

Inductive Status := healthy | degraded | recovering.

Definition Status_eqb (a b : Status) : bool :=
  match a, b with
  | healthy, healthy | degraded, degraded | recovering, recovering => true
  | _, _ => false
  end.

Record BatchLatency := mkBatch { ts : Q; latencyMs : Q }.

Record PathMetrics := mkPathMetrics {
  nodeIds : list Z;
  ewma : Q;
  slope : Q;
  loadPercentage : Q;
  status : Status;
  lastFailureTime : Q;
  lastRecoveryTime : Q;
  latencyWindow : list BatchLatency
}.

(** A load distribution, [Record<number, number>]. *)
Definition Distribution := list (Z * Q).

(** [distribution = None] stands for a distribution with an entry that is
    not a finite number ([NaN] or an infinity). *)
Record TransitionStep := mkStep {
  timestamp : Q;
  distribution : option Distribution
}.

Record TransitionSchedule := mkSchedule {
  steps : list TransitionStep;
  durationMs : Q;
  startTime : Q
}.

(** The controller: constructor arguments and the private fields the
    telemetry, health and load operations use. *)
Record Controller := mkController {
  windowSize : Z;
  alpha : Q;
  ewmaMaxMs : Q;
  slopeMinMsPerS : Q;
  c_latencyWindow : list BatchLatency;
  c_ewma : Q;
  c_slope : Q;
  paths : list (Z * PathMetrics);
  optimalDistribution : Distribution
}.

Definition RECOVERY_HOLD_TIME_MS : Q := 20000.
Definition STABILITY_TIME_MS : Q := 15000.
Definition TRANSITION_DURATION_MS : Q := 7000.

Definition newController (windowSize : Z) (alpha ewmaMaxMs slopeMinMsPerS : Q)
  : Controller :=
  mkController windowSize alpha ewmaMaxMs slopeMinMsPerS [] 0 0 [] [].

Definition set_paths (st : Controller) (ps : list (Z * PathMetrics)) : Controller :=
  mkController (windowSize st) (alpha st) (ewmaMaxMs st) (slopeMinMsPerS st)
    (c_latencyWindow st) (c_ewma st) (c_slope st) ps (optimalDistribution st).

(** ** Telemetry *)

(** [window.push(batch); if (window.length > windowSize) window.shift()] *)
Definition pushWindow (size : Z) (w : list BatchLatency) (b : BatchLatency)
  : list BatchLatency :=
  let w' := w ++ [b] in
  if (size <? Z.of_nat (length w'))%Z then tail w' else w'.

(** The EWMA rule shared by [updateEWMA] and [updatePathMetrics]. *)
Definition ewmaStep (alpha prev latency : Q) : Q :=
  if Qeq_bool prev 0 then latency else alpha * latency + (1 - alpha) * prev.

(** Sums of the least-squares loop, [x] the index in the window. *)
Fixpoint regressionSums (i : Z) (w : list BatchLatency) (acc : Q * Q * Q * Q)
  : Q * Q * Q * Q :=
  match w with
  | [] => acc
  | b :: r =>
      let '(sumX, sumY, sumXY, sumX2) := acc in
      let x := inject_Z i in
      let y := latencyMs b in
      regressionSums (i + 1) r (sumX + x, sumY + y, sumXY + x * y, sumX2 + x * x)
  end.

Definition regressionSlope (w : list BatchLatency) : Q :=
  let n := inject_Z (Z.of_nat (length w)) in
  let '(sumX, sumY, sumXY, sumX2) := regressionSums 0 w (0, 0, 0, 0) in
  let denominator := n * sumX2 - sumX * sumX in
  if Qeq_bool denominator 0 then 0
  else (n * sumXY - sumX * sumY) / denominator.

Definition updatePathMetrics (now : Q) (pathId : Z) (latency : Q) (st : Controller)
  : Controller :=
  match JsMap.get pathId (paths st) with
  | None => st
  | Some pm =>
      let w := pushWindow (windowSize st) (latencyWindow pm) (mkBatch now latency) in
      let e := ewmaStep (alpha st) (ewma pm) latency in
      let s := if (2 <=? Z.of_nat (length w))%Z then regressionSlope w else slope pm in
      let pm' :=
        if Qltb (ewmaMaxMs st) e && Qle_bool (slopeMinMsPerS st) s then
          mkPathMetrics (nodeIds pm) e s (loadPercentage pm) degraded
            now (lastRecoveryTime pm) w
        else if Status_eqb (status pm) recovering
                && Qltb e (ewmaMaxMs st * (6 # 10)) then
          mkPathMetrics (nodeIds pm) e s (loadPercentage pm) healthy
            (lastFailureTime pm) (lastRecoveryTime pm) w
        else
          mkPathMetrics (nodeIds pm) e s (loadPercentage pm) (status pm)
            (lastFailureTime pm) (lastRecoveryTime pm) w in
      set_paths st (JsMap.set pathId pm' (paths st))
  end.

Definition addBatchLatency (now : Q) (latency : Q) (pathId : option Z)
  (st : Controller) : Controller :=
  let w := pushWindow (windowSize st) (c_latencyWindow st) (mkBatch now latency) in
  let e := ewmaStep (alpha st) (c_ewma st) latency in
  let s := if (Z.of_nat (length w) <? 2)%Z then 0 else regressionSlope w in
  let st1 :=
    mkController (windowSize st) (alpha st) (ewmaMaxMs st) (slopeMinMsPerS st)
      w e s (paths st) (optimalDistribution st) in
  match pathId with
  | Some id => if JsMap.has id (paths st1) then updatePathMetrics now id latency st1
               else st1
  | None => st1
  end.

(** ** Path registry *)

Definition registerPath (pathId : Z) (nodes : list Z) (initialLoad : Q)
  (st : Controller) : Controller :=
  mkController (windowSize st) (alpha st) (ewmaMaxMs st) (slopeMinMsPerS st)
    (c_latencyWindow st) (c_ewma st) (c_slope st)
    (JsMap.set pathId
       (mkPathMetrics nodes 0 0 initialLoad healthy 0 0 []) (paths st))
    (JsMap.set pathId initialLoad (optimalDistribution st)).

Definition setLoad (load : Q) (pm : PathMetrics) : PathMetrics :=
  mkPathMetrics (nodeIds pm) (ewma pm) (slope pm) load (status pm)
    (lastFailureTime pm) (lastRecoveryTime pm) (latencyWindow pm).

Definition updatePathLoad (pathId : Z) (load : Q) (st : Controller) : Controller :=
  match JsMap.get pathId (paths st) with
  | Some pm => set_paths st (JsMap.set pathId (setLoad load pm) (paths st))
  | None => st
  end.

(** ** Health state machine *)

Definition meetsDegraded (st : Controller) (pm : PathMetrics) : bool :=
  Qltb (ewmaMaxMs st) (ewma pm) && Qle_bool (slopeMinMsPerS st) (slope pm).

Definition markDegraded (now : Q) (pm : PathMetrics) : PathMetrics :=
  match status pm with
  | degraded => pm
  | _ => mkPathMetrics (nodeIds pm) (ewma pm) (slope pm) (loadPercentage pm)
           degraded now (lastRecoveryTime pm) (latencyWindow pm)
  end.

Definition detectDegradedPaths (now : Q) (st : Controller) : Controller * list Z :=
  (set_paths st
     (map (fun e : Z * PathMetrics =>
             if meetsDegraded st e.2 then (e.1, markDegraded now e.2) else e)
        (paths st)),
   (filter (fun e : Z * PathMetrics => meetsDegraded st e.2 = true) (paths st)).*1).

Definition recoverStep (st : Controller) (currentTime : Q) (pm : PathMetrics)
  : PathMetrics * bool :=
  match status pm with
  | degraded =>
      let timeSinceFailure := currentTime - lastFailureTime pm in
      let ewmaBelowThreshold := Qltb (ewma pm) (ewmaMaxMs st * (8 # 10)) in
      let slopeNearZero := Qle_bool (slope pm) (5 # 10) in
      let holdTimeMet := Qltb RECOVERY_HOLD_TIME_MS timeSinceFailure in
      if ewmaBelowThreshold && slopeNearZero && holdTimeMet then
        (mkPathMetrics (nodeIds pm) (ewma pm) (slope pm) (loadPercentage pm)
           recovering (lastFailureTime pm) currentTime (latencyWindow pm), true)
      else (pm, false)
  | recovering =>
      let timeSinceRecovery := currentTime - lastRecoveryTime pm in
      let ewmaHealthy := Qltb (ewma pm) (ewmaMaxMs st * (6 # 10)) in
      let stabilityTimeMet := Qltb STABILITY_TIME_MS timeSinceRecovery in
      if ewmaHealthy && stabilityTimeMet then
        (mkPathMetrics (nodeIds pm) (ewma pm) (slope pm) (loadPercentage pm)
           healthy (lastFailureTime pm) (lastRecoveryTime pm) (latencyWindow pm),
         true)
      else (pm, false)
  | healthy => (pm, false)
  end.

Definition detectRecoveredPaths (now : Q) (st : Controller) : Controller * list Z :=
  (set_paths st
     (map (fun e : Z * PathMetrics => (e.1, (recoverStep st now e.2).1)) (paths st)),
   (filter (fun e : Z * PathMetrics => (recoverStep st now e.2).2 = true)
      (paths st)).*1).

(** ** Rebalancer *)

(** The two methods of the graph engine that [rebalancePaths] calls
    ([graphEngine: any] in the source). *)
Record GraphApi := mkGraphApi {
  api_findKShortestPaths : Z -> Z -> Z -> list Z -> list Path;
  api_isValidPath : list Z -> bool
}.

Definition distTotal (d : Distribution) : Q := Qsum d.*2.

(** [if (Math.abs(total - 100) > 0.01) scale every entry by 100 / total].
    [None]: the total is 0, the scale factor is an infinity and the
    entries are no longer finite numbers. *)
Definition normalise (d : Distribution) : option Distribution :=
  let totalDistribution := distTotal d in
  if Qltb (1 # 100) (Qabs (totalDistribution - 100)) then
    if Qeq_bool totalDistribution 0 then None
    else
      let scaleFactor := 100 / totalDistribution in
      Some (map (fun e : Z * Q => (e.1, e.2 * scaleFactor)) d)
  else Some d.

Inductive RebalanceResult :=
| RNull
| RDistribution (d : Distribution)
| RNonFinite.

Definition degradedPathsOf (st : Controller) (degradedPathIds : list Z)
  : list (list Z) :=
  omap (fun id => nodeIds <$> JsMap.get id (paths st)) degradedPathIds.

(** The alternatives the graph engine offers around the bottleneck nodes,
    filtered by tier validity. *)
Definition validAlternatives (ge : GraphApi) (sourceNode destNode : Z)
  (st : Controller) (degradedPathIds : list Z) : list Path :=
  let bottleneckNodes :=
    Bottleneck.findCommonNodes (degradedPathsOf st degradedPathIds) in
  List.filter (fun p => api_isValidPath ge (p_nodeIds p))
    (api_findKShortestPaths ge sourceNode destNode 5 bottleneckNodes).

Definition isDegradedId (degradedPathIds : list Z) (pathId : Z) : bool :=
  bool_decide (pathId ∈ degradedPathIds).

Definition loadOf (st : Controller) (pathId : Z) : Q :=
  match JsMap.get pathId (paths st) with
  | Some pm => loadPercentage pm
  | None => 0
  end.

Definition applyDistribution (d : Distribution) (st : Controller) : Controller :=
  fold_left (fun s e => updatePathLoad e.1 e.2 s) d st.

(** First loop of the weight assignment: every degraded path is pinned
    to 5 percent. *)
Definition pinDegraded (degradedPathIds pathIds : list Z) : Distribution :=
  fold_left (fun d id =>
               if isDegradedId degradedPathIds id then JsMap.set id 5 d else d)
    pathIds [].

Definition healthyPathsOf (degradedPathIds pathIds : list Z) : list Z :=
  List.filter (fun id => negb (isDegradedId degradedPathIds id)) pathIds.

(** Last resort, no healthy path: 100 percent split evenly. *)
Definition evenSplit (degradedPathIds : list Z) (d : Distribution) : Distribution :=
  let n := inject_Z (Z.of_nat (length degradedPathIds)) in
  fold_left (fun d id => JsMap.set id (100 / n) d) degradedPathIds d.

Definition remainingLoadOf (degradedPathIds : list Z) : Q :=
  100 - inject_Z (Z.of_nat (length degradedPathIds)) * 5.

Definition totalHealthyLoadOf (st : Controller) (healthyPaths : list Z) : Q :=
  fold_left (fun sum id => sum + loadOf st id) healthyPaths 0.

(** Second loop: the healthy paths share the remaining load in proportion
    to their previous loads, or evenly when those loads total nothing. *)
Definition shareHealthy (st : Controller) (remainingLoad totalHealthyLoad : Q)
  (healthyPaths : list Z) (d : Distribution) : Distribution :=
  fold_left
    (fun d id =>
       match JsMap.get id (paths st) with
       | Some pm =>
           if Qltb 0 totalHealthyLoad then
             JsMap.set id (loadPercentage pm / totalHealthyLoad * remainingLoad) d
           else
             JsMap.set id
               (remainingLoad / inject_Z (Z.of_nat (length healthyPaths))) d
       | None => d
       end)
    healthyPaths d.

(** The weight assignment proper, once alternatives are known to exist. *)
Definition redistribute (st1 : Controller) (degradedPathIds : list Z)
  : Controller * RebalanceResult :=
  let pathIds := JsMap.keys (paths st1) in
  let newDistribution0 := pinDegraded degradedPathIds pathIds in
  let healthyPaths := healthyPathsOf degradedPathIds pathIds in
  match healthyPaths with
  | [] => (st1, RDistribution (evenSplit degradedPathIds newDistribution0))
  | _ =>
    let remainingLoad := remainingLoadOf degradedPathIds in
    let totalHealthyLoad := totalHealthyLoadOf st1 healthyPaths in
    let newDistribution1 :=
      shareHealthy st1 remainingLoad totalHealthyLoad healthyPaths
        newDistribution0 in
    match normalise newDistribution1 with
    | Some newDistribution =>
        (applyDistribution newDistribution st1, RDistribution newDistribution)
    | None => (st1, RNonFinite)
    end
  end.

(** The sort of the valid alternatives by score does not reach the
    returned distribution and is left out. *)
Definition rebalancePaths (ge : GraphApi) (sourceNode destNode : Z) (now : Q)
  (st : Controller) : Controller * RebalanceResult :=
  let st1 := (detectDegradedPaths now st).1 in
  let degradedPathIds := (detectDegradedPaths now st).2 in
  match degradedPathIds with
  | [] => (st1, RNull)
  | _ =>
    let bottleneckNodes :=
      Bottleneck.findCommonNodes (degradedPathsOf st1 degradedPathIds) in
    let newPaths := api_findKShortestPaths ge sourceNode destNode 5 bottleneckNodes in
    match newPaths with
    | [] => (st1, RNull)
    | _ =>
      match List.filter (fun p => api_isValidPath ge (p_nodeIds p)) newPaths with
      | [] => (st1, RNull)
      | _ => redistribute st1 degradedPathIds
      end
    end
  end.

(** ** Gradual revert *)

Definition numSteps : Z := 5.

Definition currentDistributionOf (st : Controller) : Distribution :=
  fold_left (fun d e => JsMap.set e.1 (loadPercentage e.2) d) (paths st) [].

Definition allDegraded (st : Controller) : bool :=
  forallb (fun pm => Status_eqb (status pm) degraded) (JsMap.values (paths st)).

Definition hasHealthyOrRecovering (st : Controller) : bool :=
  existsb (fun pm => Status_eqb (status pm) healthy
                     || Status_eqb (status pm) recovering)
    (JsMap.values (paths st)).

Definition targetDistributionOf (st : Controller) : Distribution :=
  if allDegraded st then
    let pathCount := inject_Z (Z.of_nat (length (paths st))) in
    fold_left (fun d id => JsMap.set id (100 / pathCount) d)
      (JsMap.keys (paths st)) (optimalDistribution st)
  else optimalDistribution st.

(** [Math.abs(current[id] - target[id]) > 1]; a missing target gives
    [NaN], and [NaN > 1] is false. *)
Definition differs (target : Distribution) (e : Z * Q) : bool :=
  match JsMap.get e.1 target with
  | Some t => Qltb 1 (Qabs (e.2 - t))
  | None => false
  end.

(** One interpolated entry; [None] when the target is missing ([NaN]). *)
Definition interpolate (target : Distribution) (progress : Q) (e : Z * Q)
  : option (Z * Q) :=
  match JsMap.get e.1 target with
  | Some t => Some (e.1, e.2 + (t - e.2) * progress)
  | None => None
  end.

Definition stepDistribution (current target : Distribution) (i : Z)
  : option Distribution :=
  let progress := inject_Z i / inject_Z numSteps in
  match mapM (interpolate target progress) current with
  | Some entries =>
      normalise (fold_left (fun d e => JsMap.set e.1 e.2 d) entries [])
  | None => None
  end.

Definition gradualRevert (now : Q) (st : Controller)
  : Controller * option TransitionSchedule :=
  let st1 := (detectRecoveredPaths now st).1 in
  let currentDistribution := currentDistributionOf st1 in
  let targetDistribution := targetDistributionOf st1 in
  let needsRevert := existsb (differs targetDistribution) currentDistribution in
  if negb needsRevert || negb (hasHealthyOrRecovering st1) then (st1, None)
  else
    let stepDuration := TRANSITION_DURATION_MS / inject_Z numSteps in
    let startTime := now in
    (st1,
     Some (mkSchedule
             (map (fun i =>
                     mkStep (startTime + inject_Z i * stepDuration)
                       (stepDistribution currentDistribution targetDistribution i))
                [1; 2; 3; 4; 5]%Z)
             TRANSITION_DURATION_MS startTime)).

(** What [applyTransitionStep] leaves behind. [Applied st]: every load of
    the step is a finite number and has been written. [NonFiniteLoads st]:
    the step holds loads that are NaN or infinite, and the code writes
    them into loadPercentage like any other load; [st] keeps the fields
    that these writes leave alone (the registered ids, the statuses and
    metrics, the stored optimal loads), its loads are no longer those of
    the code, which are not numbers that sum to anything. *)
Inductive StepOutcome :=
| Applied (st : Controller)
| NonFiniteLoads (st : Controller).

Definition stateOf (o : StepOutcome) : Controller :=
  match o with
  | Applied st => st
  | NonFiniteLoads st => st
  end.

(** The log lines, one of which formats the timestamp, are left out. *)
Definition applyTransitionStep (step : TransitionStep) (st : Controller)
  : StepOutcome :=
  match distribution step with
  | Some d => Applied (applyDistribution d st)
  | None => NonFiniteLoads st
  end.

(** ** Facts about the EWMA *)

Definition pathEwma (st : Controller) (pathId : Z) : Q :=
  match JsMap.get pathId (paths st) with
  | Some pm => ewma pm
  | None => 0
  end.

(** Batches [(now, latency)] fed in order, all attributed to [pathId]. *)
Definition feed (pathId : option Z) (samples : list (Q * Q)) (st : Controller)
  : Controller :=
  fold_left (fun s b => addBatchLatency b.1 b.2 pathId s) samples st.

Lemma ewmaStep_first a prev x : prev == 0 -> ewmaStep a prev x == x.
Proof.
  intros H. unfold ewmaStep.
  destruct (Qeq_bool prev 0) eqn:E; [reflexivity|].
  apply Qeq_bool_neq in E. contradiction.
Qed.

Lemma ewmaStep_blend a prev x :
  ~ prev == 0 -> ewmaStep a prev x == a * x + (1 - a) * prev.
Proof.
  intros H. unfold ewmaStep.
  destruct (Qeq_bool prev 0) eqn:E; [|reflexivity].
  apply Qeq_bool_iff in E. contradiction.
Qed.

Lemma ewmaStep_pos a prev x :
  a == 3 # 10 -> 0 <= prev -> 0 < x -> 0 < ewmaStep a prev x.
Proof.
  intros Ha Hp Hx. unfold ewmaStep.
  destruct (Qeq_bool prev 0); [assumption|]. rewrite Ha. lra.
Qed.

Lemma addBatchLatency_c_ewma now x id st :
  c_ewma (addBatchLatency now x id st) = ewmaStep (alpha st) (c_ewma st) x.
Proof.
  unfold addBatchLatency. destruct id as [i|]; [|reflexivity].
  destruct (JsMap.has i _); [|reflexivity].
  unfold updatePathMetrics. simpl. destruct (JsMap.get i (paths st)); reflexivity.
Qed.

Lemma addBatchLatency_alpha now x id st :
  alpha (addBatchLatency now x id st) = alpha st.
Proof.
  unfold addBatchLatency. destruct id as [i|]; [|reflexivity].
  destruct (JsMap.has i _); [|reflexivity].
  unfold updatePathMetrics. simpl. destruct (JsMap.get i (paths st)); reflexivity.
Qed.

Lemma addBatchLatency_path now x i st pm :
  JsMap.get i (paths st) = Some pm ->
  exists pm',
    JsMap.get i (paths (addBatchLatency now x (Some i) st)) = Some pm' /\
    ewma pm' = ewmaStep (alpha st) (ewma pm) x.
Proof.
  intros Hget. unfold addBatchLatency, JsMap.has. simpl. rewrite Hget.
  unfold updatePathMetrics. simpl. rewrite Hget.
  eexists. simpl. rewrite JsMap.get_set_eq. split; [reflexivity|].
  repeat match goal with |- context [if ?b then _ else _] => destruct b end;
    reflexivity.
Qed.

Lemma addBatchLatency_other now x i q st :
  q <> i ->
  JsMap.get q (paths (addBatchLatency now x (Some i) st)) = JsMap.get q (paths st).
Proof.
  intros Hne. unfold addBatchLatency, JsMap.has. simpl.
  destruct (JsMap.get i (paths st)) as [pm|] eqn:Hget; [|reflexivity].
  unfold updatePathMetrics. simpl. rewrite Hget. simpl.
  apply JsMap.get_set_ne. congruence.
Qed.

(** After a non-empty run of positive samples both averages are positive,
    so the value 0 that marks "no sample yet" cannot reappear. *)
Lemma feed_positive i samples : forall st pm,
  alpha st == 3 # 10 ->
  JsMap.get i (paths st) = Some pm ->
  0 <= c_ewma st -> 0 <= ewma pm ->
  Forall (fun b : Q * Q => 0 < b.2) samples ->
  alpha (feed (Some i) samples st) == 3 # 10 /\
  exists pm',
    JsMap.get i (paths (feed (Some i) samples st)) = Some pm' /\
    (samples <> [] -> 0 < c_ewma (feed (Some i) samples st) /\ 0 < ewma pm') /\
    (samples = [] -> pm' = pm).
Proof.
  induction samples as [|b samples IH]; intros st pm Ha Hget Hc Hp Hall; simpl.
  - split; [assumption|]. exists pm. split; [assumption|].
    split; [congruence | reflexivity].
  - apply Forall_cons in Hall as [Hb Hall].
    destruct (addBatchLatency_path b.1 b.2 i st pm Hget) as (pm1 & Hget1 & He1).
    assert (Hpos1 : 0 < ewma pm1) by (rewrite He1; now apply ewmaStep_pos).
    assert (Hc1 : 0 < c_ewma (addBatchLatency b.1 b.2 (Some i) st)).
    { rewrite addBatchLatency_c_ewma. now apply ewmaStep_pos. }
    destruct (IH (addBatchLatency b.1 b.2 (Some i) st) pm1) as (Ha' & pm' & Hget' & Hne & Heq);
      try assumption.
    + now rewrite addBatchLatency_alpha.
    + now apply Qlt_le_weak.
    + now apply Qlt_le_weak.
    + split; [assumption|]. exists pm'. split; [assumption|].
      split; [|discriminate]. intros _.
      destruct samples as [|b' samples'].
      * rewrite (Heq eq_refl). simpl. auto.
      * apply Hne. discriminate.
Qed.

(** The default controller of the specification: W=10, alpha=0.3,
    ewmaMaxMs=100, slopeMinMsPerS=5. *)
Definition defaultController : Controller := newController 10 (3 # 10) 100 5.

(** C9 (as stated) fails: a first sample of 0 ms leaves the stored EWMA at
    0, which the controller reads as "no sample yet"; the second sample 10
    then restarts the series at 10 instead of 0.3*10 + 0.7*0 = 3. *)
Lemma ewma_restarts_after_zero :
  let st1 := addBatchLatency 1 0 None defaultController in
  let st2 := addBatchLatency 2 10 None st1 in
  c_ewma st1 == 0 /\ c_ewma st2 == 10 /\
  ~ Qabs (c_ewma st2 - ((3 # 10) * 10 + (7 # 10) * c_ewma st1)) <= 1 # 1000000000.
Proof.
  split; [reflexivity|]. split; [reflexivity|].
  vm_compute. intros H. apply H. reflexivity.
Qed.

(** C9 (amended): with alpha = 0.3, starting from a controller and a
    registered path that have seen no sample, the first sample becomes the
    EWMA unblended; after any run of strictly positive samples the next
    value is exactly 0.3*x + 0.7*(previous EWMA), for the aggregate and for
    the path alike, and the other paths are untouched. *)
Theorem ewma_positive_series (st0 : Controller) (i : Z) (pm0 : PathMetrics)
  (samples : list (Q * Q)) (now x : Q) :
  alpha st0 == 3 # 10 -> c_ewma st0 == 0 ->
  JsMap.get i (paths st0) = Some pm0 -> ewma pm0 == 0 ->
  Forall (fun b : Q * Q => 0 < b.2) samples ->
  (samples = [] ->
     c_ewma (addBatchLatency now x (Some i) (feed (Some i) samples st0)) == x /\
     pathEwma (addBatchLatency now x (Some i) (feed (Some i) samples st0)) i == x) /\
  (samples <> [] ->
     c_ewma (addBatchLatency now x (Some i) (feed (Some i) samples st0))
       == (3 # 10) * x + (7 # 10) * c_ewma (feed (Some i) samples st0) /\
     pathEwma (addBatchLatency now x (Some i) (feed (Some i) samples st0)) i
       == (3 # 10) * x + (7 # 10) * pathEwma (feed (Some i) samples st0) i) /\
  (forall q, q <> i ->
     JsMap.get q (paths (addBatchLatency now x (Some i) (feed (Some i) samples st0)))
     = JsMap.get q (paths (feed (Some i) samples st0))).
Proof.
  intros Ha Hc0 Hget0 Hp0 Hall.
  assert (Hc0' : 0 <= c_ewma st0) by (rewrite Hc0; apply Qle_refl).
  assert (Hp0' : 0 <= ewma pm0) by (rewrite Hp0; apply Qle_refl).
  destruct (feed_positive i samples st0 pm0 Ha Hget0 Hc0' Hp0' Hall)
    as (Ha' & pm & Hget & Hpos & Hnil).
  set (st := feed (Some i) samples st0) in *.
  destruct (addBatchLatency_path now x i st pm Hget) as (pm' & Hget' & He').
  assert (Hpe : pathEwma st i = ewma pm) by (unfold pathEwma; now rewrite Hget).
  assert (Hpe' : pathEwma (addBatchLatency now x (Some i) st) i = ewma pm')
    by (unfold pathEwma; now rewrite Hget').
  rewrite Hpe, Hpe', He', addBatchLatency_c_ewma.
  split; [|split].
  - intros ->. rewrite (Hnil eq_refl). simpl in *.
    split; now apply ewmaStep_first.
  - intros Hne. destruct (Hpos Hne) as [Hc Hp].
    rewrite !ewmaStep_blend, Ha'; [split; ring | |].
    + intros E. rewrite E in Hp. now apply Qlt_irrefl in Hp.
    + intros E. rewrite E in Hc. now apply Qlt_irrefl in Hc.
  - intros q Hq. now apply addBatchLatency_other.
Qed.

Definition registeredOnce : Controller :=
  registerPath 0 [1; 9; 19]%Z 50 defaultController.

Lemma ewma_positive_series_witness :
  c_ewma (addBatchLatency 2 150 (Some 0%Z) (feed (Some 0%Z) [(1, 120)] registeredOnce))
    == (3 # 10) * 150 + (7 # 10) * c_ewma (feed (Some 0%Z) [(1, 120)] registeredOnce).
Proof.
  refine (proj1 (proj1 (proj2 (ewma_positive_series registeredOnce 0
            (mkPathMetrics [1; 9; 19]%Z 0 0 50 healthy 0 0 []) [(1, 120)] 2 150
            _ _ _ _ _)) _)).
  - reflexivity.
  - reflexivity.
  - reflexivity.
  - reflexivity.
  - repeat constructor.
  - discriminate.
Defined.

(** ** Facts about the health state machine *)

Definition pathStatus (st : Controller) (pathId : Z) : option Status :=
  status <$> JsMap.get pathId (paths st).

Lemma get_map_entries {A B : Type} (f : A -> B) k (m : list (Z * A)) :
  JsMap.get k (map (fun e : Z * A => (e.1, f e.2)) m) = f <$> JsMap.get k m.
Proof.
  induction m as [|[k' v] r IH]; simpl; [reflexivity|].
  destruct (Z.eqb k k'); [reflexivity | assumption].
Qed.

Lemma detectRecoveredPaths_get now st k :
  JsMap.get k (paths (detectRecoveredPaths now st).1)
  = (fun pm => (recoverStep st now pm).1) <$> JsMap.get k (paths st).
Proof.
  unfold detectRecoveredPaths. simpl.
  apply (get_map_entries (fun pm => (recoverStep st now pm).1)).
Qed.

(** The scheduled recovery scan does wait for the stability time: it
    moves a recovering path to healthy only if ewma < 0.6*ewmaMaxMs and
    more than STABILITY_TIME_MS has passed since lastRecoveryTime. *)
Lemma detectRecoveredPaths_waits now st k pm pm' :
  JsMap.get k (paths st) = Some pm ->
  status pm = recovering ->
  JsMap.get k (paths (detectRecoveredPaths now st).1) = Some pm' ->
  status pm' = healthy ->
  ewma pm < ewmaMaxMs st * (6 # 10) /\
  STABILITY_TIME_MS < now - lastRecoveryTime pm.
Proof.
  intros Hget Hst Hget' Hst'.
  rewrite detectRecoveredPaths_get, Hget in Hget'. simpl in Hget'.
  injection Hget' as <-. unfold recoverStep in Hst'. rewrite Hst in Hst'.
  destruct (Qltb (ewma pm) _) eqn:E1; simpl in Hst';
    [|rewrite Hst in Hst'; discriminate].
  destruct (Qltb STABILITY_TIME_MS _) eqn:E2; simpl in Hst';
    [|rewrite Hst in Hst'; discriminate].
  split; now apply Qltb_lt.
Qed.

(** The per-batch update does not: whatever the clock says, a recovering
    path whose new EWMA is below 0.6*ewmaMaxMs becomes healthy. *)
Lemma updatePathMetrics_skips_stability now k x st pm :
  JsMap.get k (paths st) = Some pm ->
  status pm = recovering ->
  ewmaStep (alpha st) (ewma pm) x < ewmaMaxMs st * (6 # 10) ->
  0 <= ewmaMaxMs st ->
  pathStatus (updatePathMetrics now k x st) k = Some healthy.
Proof.
  intros Hget Hst He HT. unfold pathStatus, updatePathMetrics. rewrite Hget.
  simpl. rewrite JsMap.get_set_eq. simpl.
  assert (E1 : Qltb (ewmaMaxMs st) (ewmaStep (alpha st) (ewma pm) x) = false).
  { apply Qltb_ge. lra. }
  rewrite E1. simpl. rewrite Hst. simpl.
  apply Qltb_lt in He. rewrite He. reflexivity.
Qed.

(** Scenario 4 of the specification, driven through the public methods:
    three paths, path 0 degrades on rising latency at t = 3 ms, then sees
    twelve batches at 40 ms. *)
Definition threePaths : Controller :=
  registerPath 2 [1; 10; 21]%Z 20
    (registerPath 1 [1; 9; 20]%Z 30
       (registerPath 0 [1; 9; 19]%Z 50 defaultController)).

Definition path0Degraded : Controller :=
  feed (Some 0%Z) [(1, 120); (2, 150); (3, 180)] threePaths.

Definition path0Calm : Controller :=
  feed (Some 0%Z)
    [(1000, 40); (2000, 40); (3000, 40); (4000, 40); (5000, 40); (6000, 40);
     (7000, 40); (8000, 40); (9000, 40); (10000, 40); (11000, 40); (12000, 40)]
    path0Degraded.

(** C3: the recovery scan at t = 21000 ms moves path 0 to recovering; the
    next batch, one millisecond later, moves it to healthy although
    STABILITY_TIME_MS = 15000 ms has not elapsed. *)
Theorem recovering_healthy_after_1ms :
  let st1 := (detectRecoveredPaths 21000 path0Calm).1 in
  let st2 := addBatchLatency 21001 40 (Some 0%Z) st1 in
  pathStatus path0Calm 0 = Some degraded /\
  pathStatus st1 0 = Some recovering /\
  (lastRecoveryTime <$> JsMap.get 0%Z (paths st1)) = Some 21000 /\
  pathStatus st2 0 = Some healthy /\
  21001 - 21000 < STABILITY_TIME_MS.
Proof. vm_compute. repeat split; reflexivity. Qed.

(** ** Facts about gradual revert when every path is degraded *)

Lemma allDegraded_no_healthy st :
  allDegraded st = true -> hasHealthyOrRecovering st = false.
Proof.
  unfold allDegraded, hasHealthyOrRecovering.
  induction (JsMap.values (paths st)) as [|pm l IH]; simpl; [reflexivity|].
  intros H. apply andb_true_iff in H as [H1 H2]. rewrite (IH H2).
  destruct (status pm); simpl in *; congruence.
Qed.

(** The uniform target that the all-degraded branch computes never leaves
    the function: the guard on a healthy or recovering path returns null. *)
Lemma gradualRevert_all_degraded now st :
  allDegraded (detectRecoveredPaths now st).1 = true ->
  (gradualRevert now st).2 = None.
Proof.
  intros H. unfold gradualRevert.
  rewrite (allDegraded_no_healthy _ H). simpl.
  now rewrite orb_true_r.
Qed.

(** Two registered paths carrying 80% and 20%, both degraded by rising
    latency a few milliseconds before the revert is attempted. *)
Definition bothDegraded : Controller :=
  feed (Some 1%Z) [(4, 120); (5, 150); (6, 180)]
    (feed (Some 0%Z) [(1, 120); (2, 150); (3, 180)]
       (registerPath 1 [1; 10; 20]%Z 20
          (registerPath 0 [1; 9; 19]%Z 80 defaultController))).

(** C4: with every path degraded and the loads 30 points away from the
    uniform split, the target computed is the uniform split, yet
    gradualRevert returns null instead of a schedule towards it. *)
Theorem gradualRevert_all_degraded_returns_null :
  let st1 := (detectRecoveredPaths 10 bothDegraded).1 in
  allDegraded st1 = true /\
  currentDistributionOf st1 = [(0%Z, 80); (1%Z, 20)] /\
  JsMap.get 0%Z (targetDistributionOf st1) = Some (100 / 2) /\
  JsMap.get 1%Z (targetDistributionOf st1) = Some (100 / 2) /\
  existsb (differs (targetDistributionOf st1)) (currentDistributionOf st1) = true /\
  (gradualRevert 10 bothDegraded).2 = None.
Proof.
  assert (H : allDegraded (detectRecoveredPaths 10 bothDegraded).1 = true)
    by (vm_compute; reflexivity).
  split; [exact H|]. do 4 (split; [vm_compute; reflexivity|]).
  apply gradualRevert_all_degraded, H.
Qed.

(** ** Sums and distributions built entry by entry *)

Lemma Qsum_cons x l : Qsum (x :: l) = x + Qsum l.
Proof. reflexivity. Qed.

Lemma Qsum_app l1 l2 : Qsum (l1 ++ l2) == Qsum l1 + Qsum l2.
Proof.
  induction l1 as [|x l1 IH]; simpl; [ring|]. rewrite IH. ring.
Qed.

Lemma Qsum_perm l1 l2 : Permutation l1 l2 -> Qsum l1 == Qsum l2.
Proof.
  induction 1 as [|x l l' _ IH|x y l|l l' l'' _ IH1 _ IH2]; simpl.
  - reflexivity.
  - now rewrite IH.
  - ring.
  - now rewrite IH1.
Qed.

Lemma Qsum_const {A : Type} (c : Q) (l : list A) :
  Qsum (map (fun _ => c) l) == c * inject_Z (Z.of_nat (length l)).
Proof.
  induction l as [|x l IH]; [simpl; ring|].
  cbn [map Qsum fold_right length]. fold (Qsum (map (fun _ : A => c) l)).
  rewrite IH, Nat2Z.inj_succ. unfold Z.succ. rewrite inject_Z_plus. ring.
Qed.

Lemma Qsum_scaled {A : Type} (g : A -> Q) (c : Q) (l : list A) :
  Qsum (map (fun x => g x * c) l) == Qsum (map g l) * c.
Proof.
  induction l as [|x l IH]; simpl; [ring|].
  fold (Qsum (map (fun x => g x * c) l)). fold (Qsum (map g l)).
  rewrite IH. ring.
Qed.

Lemma Qsum_map_ext {A : Type} (f g : A -> Q) (l : list A) :
  (forall x, x ∈ l -> f x == g x) -> Qsum (map f l) == Qsum (map g l).
Proof.
  induction l as [|x l IH]; intros H; simpl; [reflexivity|].
  fold (Qsum (map f l)). fold (Qsum (map g l)).
  rewrite (H x) by left. rewrite IH; [reflexivity|].
  intros y Hy. apply H. now right.
Qed.

Lemma fold_left_sum {A : Type} (g : A -> Q) (l : list A) : forall acc,
  fold_left (fun sum x => sum + g x) l acc == acc + Qsum (map g l).
Proof.
  induction l as [|x l IH]; intros acc; simpl; [ring|].
  fold (Qsum (map g l)). rewrite IH. ring.
Qed.

Lemma set_fresh {V : Type} k (v : V) m :
  k ∉ JsMap.keys m -> JsMap.set k v m = m ++ [(k, v)].
Proof.
  unfold JsMap.keys. induction m as [|[k' v'] r IH]; simpl; intros Hk;
    [reflexivity|].
  apply not_elem_of_cons in Hk as [Hne Hk].
  destruct (Z.eqb_spec k k'); [contradiction|]. now rewrite IH.
Qed.

Lemma get_app {V : Type} k (a b : list (Z * V)) :
  JsMap.get k (a ++ b) =
    match JsMap.get k a with Some v => Some v | None => JsMap.get k b end.
Proof.
  induction a as [|[k' v'] r IH]; simpl; [reflexivity|].
  destruct (Z.eqb k k'); [reflexivity | assumption].
Qed.

Lemma get_tabulate {V : Type} (f : Z -> V) k ids :
  JsMap.get k (map (fun id => (id, f id)) ids) =
    if bool_decide (k ∈ ids) then Some (f k) else None.
Proof.
  induction ids as [|a ids IH]; simpl; [reflexivity|].
  destruct (Z.eqb_spec k a) as [->|Hne].
  - rewrite bool_decide_eq_true_2 by left. reflexivity.
  - rewrite IH. case_bool_decide as H1; case_bool_decide as H2; try reflexivity.
    + exfalso. apply H2. now right.
    + exfalso. apply elem_of_cons in H2 as [?|?]; [congruence | contradiction].
Qed.

Lemma keys_tabulate {V : Type} (f : Z -> V) ids :
  JsMap.keys (map (fun id => (id, f id)) ids) = ids.
Proof.
  unfold JsMap.keys. induction ids as [|a ids IH]; simpl; [reflexivity|].
  f_equal. exact IH.
Qed.

Lemma keys_app {V : Type} (a b : list (Z * V)) :
  JsMap.keys (a ++ b) = JsMap.keys a ++ JsMap.keys b.
Proof. unfold JsMap.keys. apply fmap_app. Qed.

Lemma distTotal_tabulate (f : Z -> Q) ids :
  distTotal (map (fun id => (id, f id)) ids) = Qsum (map f ids).
Proof.
  unfold distTotal. induction ids as [|a ids IH]; simpl; [reflexivity|].
  f_equal. exact IH.
Qed.

Lemma distTotal_app a b : distTotal (a ++ b) == distTotal a + distTotal b.
Proof. unfold distTotal. rewrite fmap_app. apply Qsum_app. Qed.

(** Assigning fresh keys one after the other appends them in order. *)
Lemma fold_set_cond (c : Z -> bool) (f : Z -> Q) ids : forall d : Distribution,
  NoDup ids ->
  (forall id, id ∈ ids -> id ∉ JsMap.keys d) ->
  fold_left (fun d id => if c id then JsMap.set id (f id) d else d) ids d
  = d ++ map (fun id => (id, f id)) (List.filter c ids).
Proof.
  induction ids as [|a ids IH]; intros d Hnd Hfresh; simpl.
  - now rewrite app_nil_r.
  - apply NoDup_cons in Hnd as [Ha Hnd].
    destruct (c a) eqn:Hc.
    + rewrite set_fresh by (apply Hfresh; left).
      rewrite IH; [simpl; now rewrite <- app_assoc | assumption |].
      intros id Hid. rewrite keys_app, elem_of_app.
      intros [Hin | Hin].
      * apply (Hfresh id); [now right | assumption].
      * apply list_elem_of_singleton in Hin. simpl in Hin. congruence.
    + apply IH; [assumption|]. intros id Hid. apply Hfresh. now right.
Qed.

Lemma fold_left_ext_in {A B : Type} (g g' : A -> B -> A) (l : list B) :
  (forall a x, x ∈ l -> g a x = g' a x) ->
  forall a, fold_left g l a = fold_left g' l a.
Proof.
  induction l as [|x l IH]; intros H a; simpl; [reflexivity|].
  rewrite (H a x) by left. apply IH. intros a' y Hy. apply H. now right.
Qed.

Lemma filter_partition_perm {A : Type} (c : A -> bool) (l : list A) :
  Permutation l (List.filter c l ++ List.filter (fun x => negb (c x)) l).
Proof.
  induction l as [|x l IH]; simpl; [reflexivity|].
  destruct (c x); simpl.
  - now constructor.
  - now apply Permutation_cons_app.
Qed.

(** ** Facts about the degradation scan *)

Lemma detectDegradedPaths_keys now st :
  JsMap.keys (paths (detectDegradedPaths now st).1) = JsMap.keys (paths st).
Proof.
  unfold detectDegradedPaths, JsMap.keys. simpl.
  induction (paths st) as [|[k pm] r IH]; simpl; [reflexivity|].
  destruct (meetsDegraded st pm); simpl; f_equal; exact IH.
Qed.

Lemma markDegraded_load now pm :
  loadPercentage (markDegraded now pm) = loadPercentage pm.
Proof. unfold markDegraded. destruct (status pm); reflexivity. Qed.

Lemma detectDegradedPaths_loadOf now st k :
  loadOf (detectDegradedPaths now st).1 k = loadOf st k.
Proof.
  unfold loadOf, detectDegradedPaths. simpl.
  induction (paths st) as [|[k' pm] r IH]; simpl; [reflexivity|].
  destruct (meetsDegraded st pm); simpl; destruct (Z.eqb k k'); auto.
  apply markDegraded_load.
Qed.

Lemma detectDegradedPaths_status now st k :
  k ∈ (detectDegradedPaths now st).2 ->
  NoDup (JsMap.keys (paths st)) ->
  pathStatus (detectDegradedPaths now st).1 k = Some degraded.
Proof.
  unfold pathStatus, detectDegradedPaths, JsMap.keys. simpl.
  induction (paths st) as [|[k' pm] r IH]; simpl; intros Hin Hnd.
  - now apply elem_of_nil in Hin.
  - apply NoDup_cons in Hnd as [Hk' Hnd]. rewrite filter_cons in Hin. simpl in Hin.
    destruct (meetsDegraded st pm) eqn:Hm.
    + rewrite decide_True in Hin by reflexivity. simpl in *.
      destruct (Z.eqb_spec k k') as [->|Hne].
      * simpl. unfold markDegraded.
        destruct (status pm) eqn:E; simpl; rewrite ?E; reflexivity.
      * apply elem_of_cons in Hin as [?|Hin]; [congruence|]. now apply IH.
    + rewrite decide_False in Hin by discriminate. simpl.
      destruct (Z.eqb_spec k k') as [->|Hne]; [|now apply IH].
      exfalso. apply Hk'. apply list_elem_of_fmap in Hin as [e [-> He]].
      apply list_elem_of_filter in He as [_ He].
      apply list_elem_of_fmap. now exists e.
Qed.

Lemma filter_selected_keys {V : Type} (P : Z * V -> Prop)
  `{forall e, Decision (P e)} (l : list (Z * V)) :
  NoDup l.*1 ->
  List.filter (isDegradedId (filter P l).*1) l.*1 = (filter P l).*1.
Proof.
  induction l as [|e l IH]; simpl; intros Hnd; [reflexivity|].
  apply NoDup_cons in Hnd as [He Hnd].
  assert (Hother : forall D0 : list Z,
             List.filter (isDegradedId (e.1 :: D0)) l.*1
             = List.filter (isDegradedId D0) l.*1).
  { intros D0. apply List.filter_ext_in. intros k Hk.
    apply list_elem_of_In in Hk. unfold isDegradedId.
    apply bool_decide_ext. rewrite elem_of_cons.
    split; [intros [->|?]; [contradiction | assumption] | now right]. }
  rewrite filter_cons. destruct (decide (P e)) as [HP|HP]; simpl.
  - unfold isDegradedId at 1. rewrite bool_decide_eq_true_2 by left.
    f_equal. rewrite Hother. now apply IH.
  - unfold isDegradedId at 1. rewrite bool_decide_eq_false_2.
    + now apply IH.
    + intros Hin. apply He. apply list_elem_of_fmap in Hin as [e' [-> He']].
      apply list_elem_of_filter in He' as [_ He'].
      apply list_elem_of_fmap. now exists e'.
Qed.

Lemma degraded_ids_are_keys now st :
  NoDup (JsMap.keys (paths st)) ->
  List.filter (isDegradedId (detectDegradedPaths now st).2)
    (JsMap.keys (paths (detectDegradedPaths now st).1))
  = (detectDegradedPaths now st).2.
Proof.
  intros Hnd. rewrite detectDegradedPaths_keys.
  unfold detectDegradedPaths. simpl. now apply filter_selected_keys.
Qed.

(** ** Shape of the distribution that [redistribute] builds *)

Definition tabulate (f : Z -> Q) (ids : list Z) : Distribution :=
  map (fun id => (id, f id)) ids.

Lemma pinDegraded_eq D ids :
  NoDup ids ->
  pinDegraded D ids = tabulate (fun _ => 5) (List.filter (isDegradedId D) ids).
Proof.
  intros Hnd. unfold pinDegraded, tabulate.
  apply (fold_set_cond (isDegradedId D) (fun _ => 5) ids [] Hnd).
  intros id _. apply not_elem_of_nil.
Qed.

Definition shareOf (st : Controller) (remainingLoad totalHealthyLoad : Q)
  (healthyCount : nat) (id : Z) : Q :=
  if Qltb 0 totalHealthyLoad then loadOf st id / totalHealthyLoad * remainingLoad
  else remainingLoad / inject_Z (Z.of_nat healthyCount).

Lemma shareHealthy_eq st R T H d :
  NoDup H ->
  (forall id, id ∈ H -> id ∈ JsMap.keys (paths st)) ->
  (forall id, id ∈ H -> id ∉ JsMap.keys d) ->
  shareHealthy st R T H d = d ++ tabulate (shareOf st R T (length H)) H.
Proof.
  intros Hnd Hkeys Hfresh. unfold shareHealthy, tabulate.
  rewrite (fold_left_ext_in _
             (fun d id => if (fun _ => true) id
                          then JsMap.set id (shareOf st R T (length H) id) d
                          else d)).
  - rewrite (fold_set_cond (fun _ => true) (shareOf st R T (length H)) H d Hnd Hfresh).
    f_equal. f_equal. clear. induction H as [|a H IH]; simpl; [reflexivity|].
    now rewrite IH.
  - intros d' id Hid. simpl. unfold shareOf, loadOf.
    destruct (JsMap.get id (paths st)) as [pm|] eqn:Hget.
    + destruct (Qltb 0 T); reflexivity.
    + apply JsMap.get_None_keys in Hget. exfalso. apply Hget, Hkeys, Hid.
Qed.

Lemma set_tabulate k v w l :
  NoDup l -> k ∈ l ->
  JsMap.set k v (tabulate w l) = tabulate (fun id => if id =? k then v else w id)%Z l.
Proof.
  unfold tabulate. induction l as [|a l IH]; simpl; intros Hnd Hk.
  - now apply elem_of_nil in Hk.
  - apply NoDup_cons in Hnd as [Ha Hnd].
    destruct (Z.eqb_spec k a) as [->|Hne].
    + rewrite Z.eqb_refl. f_equal. apply map_ext_in. intros id Hid.
      apply list_elem_of_In in Hid.
      destruct (Z.eqb_spec id a) as [->|]; [contradiction | reflexivity].
    + destruct (Z.eqb_spec a k); [congruence|]. f_equal.
      apply elem_of_cons in Hk as [?|Hk]; [congruence|]. now apply IH.
Qed.

Lemma fold_set_tabulate v ids : forall w l,
  NoDup l -> (forall id, id ∈ ids -> id ∈ l) ->
  fold_left (fun d id => JsMap.set id v d) ids (tabulate w l)
  = tabulate (fun id => if bool_decide (id ∈ ids) then v else w id) l.
Proof.
  induction ids as [|a ids IH]; intros w l Hnd Hsub; simpl.
  - reflexivity.
  - rewrite set_tabulate; [|assumption|apply Hsub; left].
    rewrite IH; [|assumption|intros id Hid; apply Hsub; now right].
    unfold tabulate. apply map_ext. intros id. f_equal.
    case_bool_decide as H1; case_bool_decide as H2; try reflexivity.
    + exfalso. apply H2. now right.
    + destruct (Z.eqb_spec id a) as [->|Hne]; [reflexivity|].
      exfalso. apply elem_of_cons in H2 as [?|?]; [congruence | contradiction].
    + destruct (Z.eqb_spec id a) as [->|Hne]; [|reflexivity].
      exfalso. apply H2. left.
Qed.

Lemma evenSplit_eq D w :
  NoDup D ->
  evenSplit D (tabulate w D)
  = tabulate (fun _ => 100 / inject_Z (Z.of_nat (length D))) D.
Proof.
  intros Hnd. unfold evenSplit. rewrite fold_set_tabulate; [|assumption|auto].
  unfold tabulate. apply map_ext_in. intros id Hid.
  apply list_elem_of_In in Hid. now rewrite bool_decide_eq_true_2.
Qed.

Lemma NoDup_list_filter {A : Type} (c : A -> bool) (l : list A) :
  NoDup l -> NoDup (List.filter c l).
Proof.
  induction l as [|x l IH]; simpl; intros Hnd; [assumption|].
  apply NoDup_cons in Hnd as [Hx Hnd]. destruct (c x); [|auto].
  apply NoDup_cons. split; [|auto].
  intros Hin. apply Hx. apply list_elem_of_In in Hin.
  apply List.filter_In in Hin as [Hin _]. now apply list_elem_of_In.
Qed.

Lemma elem_of_list_filter {A : Type} (c : A -> bool) (l : list A) x :
  x ∈ List.filter c l <-> x ∈ l /\ c x = true.
Proof. rewrite !list_elem_of_In. apply List.filter_In. Qed.

Lemma healthyPathsOf_elem_of D ids id :
  id ∈ healthyPathsOf D ids <-> id ∈ ids /\ id ∉ D.
Proof.
  unfold healthyPathsOf, isDegradedId. rewrite elem_of_list_filter.
  rewrite negb_true_iff, bool_decide_eq_false. reflexivity.
Qed.

Lemma normalise_id d : distTotal d == 100 -> normalise d = Some d.
Proof.
  intros H. unfold normalise.
  assert (E : Qltb (1 # 100) (Qabs (distTotal d - 100)) = false).
  { apply Qltb_ge. rewrite H. vm_compute. discriminate. }
  now rewrite E.
Qed.

Definition pinnedAndShared (st1 : Controller) (D : list Z) : Distribution :=
  let H := healthyPathsOf D (JsMap.keys (paths st1)) in
  tabulate (fun _ => 5) D
  ++ tabulate (shareOf st1 (remainingLoadOf D) (totalHealthyLoadOf st1 H) (length H)) H.

Lemma totalHealthyLoadOf_sum st H :
  totalHealthyLoadOf st H == Qsum (map (loadOf st) H).
Proof. unfold totalHealthyLoadOf. rewrite fold_left_sum. ring. Qed.

Lemma shares_total st R H :
  H <> [] ->
  Qsum (map (shareOf st R (totalHealthyLoadOf st H) (length H)) H) == R.
Proof.
  intros Hne. unfold shareOf.
  destruct (Qltb 0 (totalHealthyLoadOf st H)) eqn:E.
  - apply Qltb_lt in E.
    rewrite (Qsum_scaled (fun id => loadOf st id / totalHealthyLoadOf st H) R).
    unfold Qdiv. rewrite (Qsum_scaled (loadOf st) (/ totalHealthyLoadOf st H)).
    rewrite <- totalHealthyLoadOf_sum. field.
    intros E0. rewrite E0 in E. now apply Qlt_irrefl in E.
  - rewrite Qsum_const. field.
    destruct H as [|a H]; [congruence|].
    change 0 with (inject_Z 0). rewrite inject_Z_injective. simpl. lia.
Qed.

Lemma pinnedAndShared_total st1 D :
  healthyPathsOf D (JsMap.keys (paths st1)) <> [] ->
  distTotal (pinnedAndShared st1 D) == 100.
Proof.
  intros Hne. unfold pinnedAndShared.
  rewrite distTotal_app. unfold tabulate. rewrite !distTotal_tabulate.
  rewrite shares_total by assumption. rewrite Qsum_const.
  unfold remainingLoadOf. ring.
Qed.

Lemma redistribute_healthy st1 D :
  NoDup (JsMap.keys (paths st1)) ->
  List.filter (isDegradedId D) (JsMap.keys (paths st1)) = D ->
  healthyPathsOf D (JsMap.keys (paths st1)) <> [] ->
  redistribute st1 D
  = (applyDistribution (pinnedAndShared st1 D) st1,
     RDistribution (pinnedAndShared st1 D)).
Proof.
  intros Hnd HD Hne. unfold redistribute.
  rewrite pinDegraded_eq, HD by assumption.
  rewrite shareHealthy_eq.
  - fold (pinnedAndShared st1 D).
    rewrite (normalise_id _ (pinnedAndShared_total st1 D Hne)).
    destruct (healthyPathsOf D (JsMap.keys (paths st1))); [congruence | reflexivity].
  - now apply NoDup_list_filter.
  - intros id Hid. now apply healthyPathsOf_elem_of in Hid as [? _].
  - intros id Hid. apply healthyPathsOf_elem_of in Hid as [_ Hid].
    unfold tabulate. now rewrite keys_tabulate.
Qed.

Lemma redistribute_all_degraded st1 D :
  NoDup (JsMap.keys (paths st1)) ->
  List.filter (isDegradedId D) (JsMap.keys (paths st1)) = D ->
  healthyPathsOf D (JsMap.keys (paths st1)) = [] ->
  redistribute st1 D
  = (st1, RDistribution
            (tabulate (fun _ => 100 / inject_Z (Z.of_nat (length D))) D)).
Proof.
  intros Hnd HD He. unfold redistribute.
  rewrite He, pinDegraded_eq, HD by assumption.
  rewrite evenSplit_eq; [reflexivity|].
  rewrite <- HD. now apply NoDup_list_filter.
Qed.

Lemma rebalancePaths_redistributes ge src dst now st :
  (detectDegradedPaths now st).2 <> [] ->
  validAlternatives ge src dst (detectDegradedPaths now st).1
    (detectDegradedPaths now st).2 <> [] ->
  rebalancePaths ge src dst now st
  = redistribute (detectDegradedPaths now st).1 (detectDegradedPaths now st).2.
Proof.
  intros HD Hvalid. unfold rebalancePaths, validAlternatives in *.
  destruct (detectDegradedPaths now st).2 as [|d0 D0] eqn:ED; [congruence|].
  destruct (api_findKShortestPaths ge src dst 5 _) as [|p ps]; [now simpl in Hvalid|].
  destruct (List.filter _ (p :: ps)); [congruence | reflexivity].
Qed.

(** ** The weights a rebalance assigns *)

Definition degradedIds (now : Q) (st : Controller) : list Z :=
  (detectDegradedPaths now st).2.

Definition healthyIds (now : Q) (st : Controller) : list Z :=
  healthyPathsOf (degradedIds now st) (JsMap.keys (paths st)).

(** Total load, before the rebalance, of the paths that are not degraded. *)
Definition healthyTotal (now : Q) (st : Controller) : Q :=
  Qsum (map (loadOf st) (healthyIds now st)).

Lemma get_pinnedAndShared st1 D id :
  id ∈ JsMap.keys (paths st1) ->
  JsMap.get id (pinnedAndShared st1 D)
  = Some (if bool_decide (id ∈ D) then 5
          else shareOf st1 (remainingLoadOf D)
                 (totalHealthyLoadOf st1 (healthyPathsOf D (JsMap.keys (paths st1))))
                 (length (healthyPathsOf D (JsMap.keys (paths st1)))) id).
Proof.
  intros Hid. unfold pinnedAndShared, tabulate.
  rewrite get_app, !get_tabulate.
  case_bool_decide as HD; [reflexivity|].
  rewrite bool_decide_eq_true_2; [reflexivity|].
  now apply healthyPathsOf_elem_of.
Qed.

(** The list D that the degradation scan of a call returns: the paths
    whose metrics meet the threshold at that moment, whatever their stored
    status. *)
Lemma degradedIds_spec now st id :
  NoDup (JsMap.keys (paths st)) ->
  id ∈ degradedIds now st <->
  exists pm, JsMap.get id (paths st) = Some pm /\
             ewmaMaxMs st < ewma pm /\ slopeMinMsPerS st <= slope pm.
Proof.
  intros Hnd. unfold degradedIds, detectDegradedPaths. simpl.
  rewrite list_elem_of_fmap. split.
  - intros [[k pm] [-> Hin]]. apply list_elem_of_filter in Hin as [Hm Hin].
    simpl in *. exists pm. split; [now apply JsMap.In_get_Some|].
    unfold meetsDegraded in Hm. apply andb_true_iff in Hm as [H1 H2].
    split; [now apply Qltb_lt | now apply Qle_bool_iff].
  - intros (pm & Hget & H1 & H2). exists (id, pm). split; [reflexivity|].
    apply list_elem_of_filter. split; [|now apply JsMap.get_Some_In].
    simpl. unfold meetsDegraded. apply andb_true_iff.
    split; [now apply Qltb_lt | now apply Qle_bool_iff].
Qed.

(** C6 (amended): the weights follow the list D that the degradation scan
    of this call returns (the paths with ewma > ewmaMaxMs and slope >=
    slopeMinMsPerS at that moment), not the stored status. When D is not
    empty and the graph engine offers a valid alternative, rebalancePaths
    returns a distribution; if some registered path is outside D, every
    path of D gets exactly 5 and every other path gets its previous load
    divided by the previous total of the loads outside D (taken positive),
    times 100 - 5*|D|; if D holds every registered path, each gets
    100/|D|. *)
Theorem rebalance_weights (ge : GraphApi) (src dst : Z) (now : Q) (st : Controller) :
  NoDup (JsMap.keys (paths st)) ->
  degradedIds now st <> [] ->
  validAlternatives ge src dst (detectDegradedPaths now st).1 (degradedIds now st)
    <> [] ->
  (forall id, id ∈ degradedIds now st <->
     exists pm, JsMap.get id (paths st) = Some pm /\
                ewmaMaxMs st < ewma pm /\ slopeMinMsPerS st <= slope pm) /\
  exists d,
    (rebalancePaths ge src dst now st).2 = RDistribution d /\
    (healthyIds now st <> [] ->
     forall id, id ∈ JsMap.keys (paths st) ->
       (id ∈ degradedIds now st -> JsMap.get id d = Some 5) /\
       (id ∉ degradedIds now st -> 0 < healthyTotal now st ->
        exists v, JsMap.get id d = Some v /\
                  v == loadOf st id / healthyTotal now st
                       * (100 - 5 * inject_Z (Z.of_nat (length (degradedIds now st)))))) /\
    (healthyIds now st = [] ->
     forall id, id ∈ JsMap.keys (paths st) ->
       JsMap.get id d
       = Some (100 / inject_Z (Z.of_nat (length (degradedIds now st))))).
Proof.
  intros Hnd HD Hvalid.
  split; [intros id; now apply degradedIds_spec|].
  unfold healthyTotal, healthyIds, degradedIds in *.
  rewrite (rebalancePaths_redistributes ge src dst now st HD Hvalid).
  pose proof (detectDegradedPaths_keys now st) as Hkeys.
  pose proof (degraded_ids_are_keys now st Hnd) as Hfilter.
  set (st1 := (detectDegradedPaths now st).1) in *.
  set (D := (detectDegradedPaths now st).2) in *.
  assert (Hnd1 : NoDup (JsMap.keys (paths st1))) by now rewrite Hkeys.
  destruct (healthyPathsOf D (JsMap.keys (paths st))) as [|h0 H0] eqn:EH.
  - eexists. split.
    + rewrite redistribute_all_degraded; [reflexivity|assumption..|].
      now rewrite Hkeys.
    + split; [congruence|]. intros _ id Hid. unfold tabulate.
      rewrite get_tabulate, bool_decide_eq_true_2; [reflexivity|].
      destruct (decide (id ∈ D)) as [|Hn]; [assumption|].
      assert (Hh : id ∈ healthyPathsOf D (JsMap.keys (paths st)))
        by now apply healthyPathsOf_elem_of.
      rewrite EH in Hh. now apply elem_of_nil in Hh.
  - exists (pinnedAndShared st1 D). split.
    + rewrite redistribute_healthy; [reflexivity|assumption..|].
      rewrite Hkeys, EH. discriminate.
    + split; [|discriminate]. intros _ id Hid.
      rewrite get_pinnedAndShared by now rewrite Hkeys.
      split.
      * intros HinD. now rewrite bool_decide_eq_true_2.
      * intros HninD Hpos. rewrite bool_decide_eq_false_2 by assumption.
        eexists. split; [reflexivity|].
        rewrite Hkeys, EH. unfold shareOf.
        assert (HT : totalHealthyLoadOf st1 (h0 :: H0)
                     == Qsum (map (loadOf st) (h0 :: H0))).
        { rewrite totalHealthyLoadOf_sum. apply Qsum_map_ext.
          intros x _. unfold st1. now rewrite detectDegradedPaths_loadOf. }
        assert (E : Qltb 0 (totalHealthyLoadOf st1 (h0 :: H0)) = true).
        { apply Qltb_lt. now rewrite HT. }
        rewrite E. unfold st1 at 1. rewrite detectDegradedPaths_loadOf, HT.
        unfold remainingLoadOf. field.
        intros E0. rewrite E0 in Hpos. now apply Qlt_irrefl in Hpos.
Qed.

(** A graph engine stub that always offers one valid alternative. *)
Definition oneAlternative : GraphApi :=
  mkGraphApi (fun _ _ _ _ => [mkPath [1; 10; 21]%Z 10 100 230]) (fun _ => true).

(** Scenario 2: loads 50:30:20, path 0 degraded; the others get 57 and 38. *)
Lemma rebalance_weights_witness :
  exists d,
    (rebalancePaths oneAlternative 1 21 4 path0Degraded).2 = RDistribution d /\
    JsMap.get 0%Z d = Some 5 /\
    (exists v, JsMap.get 1%Z d = Some v /\ v == 57) /\
    (exists v, JsMap.get 2%Z d = Some v /\ v == 38).
Proof.
  assert (Hnd : NoDup (JsMap.keys (paths path0Degraded))) by by_compute.
  assert (ED : degradedIds 4 path0Degraded = [0%Z]) by (vm_compute; reflexivity).
  assert (HD : degradedIds 4 path0Degraded <> []) by (rewrite ED; discriminate).
  assert (Hv : validAlternatives oneAlternative 1 21
                 (detectDegradedPaths 4 path0Degraded).1
                 (degradedIds 4 path0Degraded) <> [])
    by (vm_compute; discriminate).
  destruct (rebalance_weights oneAlternative 1 21 4 path0Degraded Hnd HD Hv)
    as (_ & d & Hd & Hsome & _).
  assert (Hh : healthyIds 4 path0Degraded <> []) by (vm_compute; discriminate).
  assert (Hpos : 0 < healthyTotal 4 path0Degraded) by (vm_compute; reflexivity).
  assert (H0 : 0%Z ∈ JsMap.keys (paths path0Degraded)) by by_compute.
  assert (H1 : 1%Z ∈ JsMap.keys (paths path0Degraded)) by by_compute.
  assert (H2 : 2%Z ∈ JsMap.keys (paths path0Degraded)) by by_compute.
  assert (D0 : 0%Z ∈ degradedIds 4 path0Degraded) by by_compute.
  assert (D1 : 1%Z ∉ degradedIds 4 path0Degraded) by by_compute.
  assert (D2 : 2%Z ∉ degradedIds 4 path0Degraded) by by_compute.
  assert (V1 : loadOf path0Degraded 1 / healthyTotal 4 path0Degraded
               * (100 - 5 * inject_Z (Z.of_nat (length (degradedIds 4 path0Degraded))))
               == 57) by (vm_compute; reflexivity).
  assert (V2 : loadOf path0Degraded 2 / healthyTotal 4 path0Degraded
               * (100 - 5 * inject_Z (Z.of_nat (length (degradedIds 4 path0Degraded))))
               == 38) by (vm_compute; reflexivity).
  exists d. split; [exact Hd|]. split; [|split].
  - exact (proj1 (Hsome Hh 0%Z H0) D0).
  - destruct (proj2 (Hsome Hh 1%Z H1) D1 Hpos) as (x & Hget & Hval).
    exists x. split; [exact Hget|]. exact (Qeq_trans _ _ _ Hval V1).
  - destruct (proj2 (Hsome Hh 2%Z H2) D2 Hpos) as (x & Hget & Hval).
    exists x. split; [exact Hget|]. exact (Qeq_trans _ _ _ Hval V2).
Defined.

(** Path 0 was degraded by the rising samples 120, 150, 180 and then saw
    ten samples of 180: its status is still degraded and its EWMA is about
    179, but its slope is 0. Path 1 then degrades. *)
Definition staleDegraded : Controller :=
  feed (Some 1%Z) [(14, 120); (15, 150); (16, 180)]
    (feed (Some 0%Z)
       [(4, 180); (5, 180); (6, 180); (7, 180); (8, 180); (9, 180); (10, 180);
        (11, 180); (12, 180); (13, 180)]
       path0Degraded).

(** The same history on a registry of two paths with loads 80 and 20:
    afterwards every registered path has status degraded. *)
Definition staleBothDegraded : Controller :=
  feed (Some 1%Z) [(14, 120); (15, 150); (16, 180)]
    (feed (Some 0%Z)
       [(1, 120); (2, 150); (3, 180); (4, 180); (5, 180); (6, 180); (7, 180);
        (8, 180); (9, 180); (10, 180); (11, 180); (12, 180); (13, 180)]
       (registerPath 1 [1; 10; 20]%Z 20
          (registerPath 0 [1; 9; 19]%Z 80 defaultController))).

(** C6 (as stated) fails: a path whose status is degraded but whose slope
    has flattened is not in the list of the scan. With path 2 healthy and
    an alternative at hand, the degraded path 0 receives 475/7 (about
    67.9) percent instead of 5; and with every registered path degraded
    the split is 95 : 5 instead of 50 : 50. *)
Lemma rebalance_ignores_status :
  (pathStatus staleDegraded 0 = Some degraded /\
   pathStatus staleDegraded 1 = Some degraded /\
   pathStatus staleDegraded 2 = Some healthy /\
   validAlternatives oneAlternative 1 21 (detectDegradedPaths 17 staleDegraded).1
     (degradedIds 17 staleDegraded) <> [] /\
   pathStatus (rebalancePaths oneAlternative 1 21 17 staleDegraded).1 0
   = Some degraded /\
   exists d v,
     (rebalancePaths oneAlternative 1 21 17 staleDegraded).2 = RDistribution d /\
     JsMap.get 0%Z d = Some v /\ v == 475 # 7 /\ ~ v == 5) /\
  (pathStatus staleBothDegraded 0 = Some degraded /\
   pathStatus staleBothDegraded 1 = Some degraded /\
   JsMap.keys (paths staleBothDegraded) = [0; 1]%Z /\
   exists d v0 v1,
     (rebalancePaths oneAlternative 1 20 17 staleBothDegraded).2 = RDistribution d /\
     JsMap.get 0%Z d = Some v0 /\ v0 == 95 /\
     JsMap.get 1%Z d = Some v1 /\ v1 == 5 /\ ~ v0 == 100 / 2).
Proof.
  split.
  - split; [vm_compute; reflexivity|]. split; [vm_compute; reflexivity|].
    split; [vm_compute; reflexivity|]. split; [vm_compute; discriminate|].
    split; [vm_compute; reflexivity|].
    eexists. eexists. split; [vm_compute; reflexivity|].
    split; [vm_compute; reflexivity|].
    split; [vm_compute; reflexivity|]. vm_compute. discriminate.
  - split; [vm_compute; reflexivity|]. split; [vm_compute; reflexivity|].
    split; [vm_compute; reflexivity|].
    eexists. eexists. eexists. split; [vm_compute; reflexivity|].
    split; [vm_compute; reflexivity|]. split; [vm_compute; reflexivity|].
    split; [vm_compute; reflexivity|]. split; [vm_compute; reflexivity|].
    vm_compute. discriminate.
Qed.

(** ** Applying a distribution to the registry *)

Definition totalLoad (st : Controller) : Q :=
  Qsum (map (fun e : Z * PathMetrics => loadPercentage e.2) (paths st)).

Definition valueAt (d : Distribution) (id : Z) : Q := default 0 (JsMap.get id d).

(** Sum of the stored optimal loads of the registered paths. *)
Definition optimalTotal (st : Controller) : Q :=
  Qsum (map (valueAt (optimalDistribution st)) (JsMap.keys (paths st))).

Lemma values_by_key {V : Type} (g : V -> Q) (l : list (Z * V)) :
  NoDup l.*1 ->
  map (fun e : Z * V => g e.2) l
  = map (fun k => match JsMap.get k l with Some v => g v | None => 0 end) l.*1.
Proof.
  induction l as [|[k v] r IH]; simpl; intros Hnd; [reflexivity|].
  apply NoDup_cons in Hnd as [Hk Hnd]. rewrite Z.eqb_refl. f_equal.
  rewrite (IH Hnd). apply map_ext_in. intros k' Hk'.
  apply list_elem_of_In in Hk'.
  destruct (Z.eqb_spec k' k) as [->|]; [contradiction | reflexivity].
Qed.

Lemma totalLoad_keys st :
  NoDup (JsMap.keys (paths st)) ->
  totalLoad st = Qsum (map (loadOf st) (JsMap.keys (paths st))).
Proof.
  intros Hnd. unfold totalLoad, loadOf.
  now rewrite (values_by_key loadPercentage (paths st) Hnd).
Qed.

Lemma distTotal_keys (d : Distribution) :
  NoDup (JsMap.keys d) -> distTotal d = Qsum (map (valueAt d) (JsMap.keys d)).
Proof.
  intros Hnd. unfold distTotal, valueAt.
  replace d.*2 with (map (fun e : Z * Q => (fun v => v) e.2) d) by reflexivity.
  rewrite (values_by_key (fun v => v) d Hnd). reflexivity.
Qed.

Lemma keys_set_existing {V : Type} k (v : V) m :
  k ∈ JsMap.keys m -> JsMap.keys (JsMap.set k v m) = JsMap.keys m.
Proof.
  unfold JsMap.keys. induction m as [|[k' v'] r IH]; simpl; intros Hk.
  - now apply elem_of_nil in Hk.
  - destruct (Z.eqb_spec k k') as [->|Hne]; simpl; [reflexivity|].
    f_equal. apply elem_of_cons in Hk as [?|Hk]; [congruence|]. now apply IH.
Qed.

Lemma updatePathLoad_keys k v st :
  JsMap.keys (paths (updatePathLoad k v st)) = JsMap.keys (paths st).
Proof.
  unfold updatePathLoad. destruct (JsMap.get k (paths st)) eqn:E; [|reflexivity].
  simpl. apply keys_set_existing. eapply JsMap.get_Some_keys, E.
Qed.

Lemma updatePathLoad_loadOf k v st id :
  k ∈ JsMap.keys (paths st) ->
  loadOf (updatePathLoad k v st) id = if (id =? k)%Z then v else loadOf st id.
Proof.
  intros Hk. unfold updatePathLoad, loadOf.
  destruct (JsMap.get k (paths st)) as [pm|] eqn:E.
  - simpl. rewrite JsMap.get_set. destruct (Z.eqb id k); reflexivity.
  - apply JsMap.get_None_keys in E. contradiction.
Qed.

Lemma applyDistribution_keys d : forall st,
  JsMap.keys (paths (applyDistribution d st)) = JsMap.keys (paths st).
Proof.
  unfold applyDistribution. induction d as [|[k v] d IH]; intros st; simpl.
  - reflexivity.
  - rewrite IH. apply updatePathLoad_keys.
Qed.

Lemma applyDistribution_loadOf d : forall st id,
  NoDup (JsMap.keys d) ->
  (forall k, k ∈ JsMap.keys d -> k ∈ JsMap.keys (paths st)) ->
  loadOf (applyDistribution d st) id
  = match JsMap.get id d with Some v => v | None => loadOf st id end.
Proof.
  unfold applyDistribution, JsMap.keys.
  induction d as [|[k v] d IH]; intros st id Hnd Hsub; simpl; [reflexivity|].
  simpl in Hnd. apply NoDup_cons in Hnd as [Hk Hnd].
  rewrite IH; [|assumption|].
  - rewrite updatePathLoad_loadOf by (apply Hsub; left).
    destruct (Z.eqb_spec id k) as [->|Hne]; [|reflexivity].
    apply JsMap.get_None_keys in Hk. now rewrite Hk.
  - intros k' Hk'. fold (JsMap.keys (paths (updatePathLoad k v st))).
    rewrite updatePathLoad_keys. apply Hsub. now right.
Qed.

(** Applying a distribution over exactly the registered paths makes the
    registered loads sum to the distribution's total. *)
Lemma applyDistribution_total d st :
  NoDup (JsMap.keys (paths st)) ->
  Permutation (JsMap.keys d) (JsMap.keys (paths st)) ->
  totalLoad (applyDistribution d st) == distTotal d.
Proof.
  intros Hnd Hperm.
  assert (Hndd : NoDup (JsMap.keys d)) by now rewrite Hperm.
  rewrite totalLoad_keys by now rewrite applyDistribution_keys.
  rewrite applyDistribution_keys, (distTotal_keys d Hndd).
  rewrite (Qsum_perm _ _ (Permutation_map (valueAt d) Hperm)).
  apply Qsum_map_ext. intros id Hid.
  rewrite applyDistribution_loadOf; [|assumption|].
  - unfold valueAt. destruct (JsMap.get id d) as [v|] eqn:E; [reflexivity|].
    apply JsMap.get_None_keys in E. exfalso. apply E. now rewrite Hperm.
  - intros k Hk. now rewrite <- Hperm.
Qed.

Lemma keys_pinnedAndShared st1 D :
  List.filter (isDegradedId D) (JsMap.keys (paths st1)) = D ->
  Permutation (JsMap.keys (pinnedAndShared st1 D)) (JsMap.keys (paths st1)).
Proof.
  intros HD. unfold pinnedAndShared, tabulate.
  rewrite keys_app, !keys_tabulate. rewrite <- HD at 1.
  symmetry. apply filter_partition_perm.
Qed.

Lemma rebalancePaths_distribution ge src dst now st d :
  (rebalancePaths ge src dst now st).2 = RDistribution d ->
  degradedIds now st <> [] /\
  validAlternatives ge src dst (detectDegradedPaths now st).1 (degradedIds now st)
    <> [].
Proof.
  unfold rebalancePaths, validAlternatives, degradedIds.
  destruct (detectDegradedPaths now st).2 as [|d0 D0]; [discriminate|].
  destruct (api_findKShortestPaths ge src dst 5 _) as [|p ps]; [discriminate|].
  destruct (List.filter _ (p :: ps)); [discriminate|].
  intros _. split; discriminate.
Qed.

(** ** Facts about the revert schedule *)

Lemma detectRecoveredPaths_keys now st :
  JsMap.keys (paths (detectRecoveredPaths now st).1) = JsMap.keys (paths st).
Proof.
  unfold detectRecoveredPaths, JsMap.keys. simpl.
  induction (paths st) as [|[k pm] r IH]; simpl; [reflexivity|].
  f_equal. exact IH.
Qed.

Lemma recoverStep_load st now pm :
  loadPercentage (recoverStep st now pm).1 = loadPercentage pm.
Proof.
  unfold recoverStep. destruct (status pm); simpl;
    repeat match goal with |- context [if ?b then _ else _] => destruct b end;
    reflexivity.
Qed.

Lemma detectRecoveredPaths_loads now st :
  map (fun e : Z * PathMetrics => (e.1, loadPercentage e.2))
    (paths (detectRecoveredPaths now st).1)
  = map (fun e : Z * PathMetrics => (e.1, loadPercentage e.2)) (paths st).
Proof.
  unfold detectRecoveredPaths. simpl.
  induction (paths st) as [|[k pm] r IH]; simpl; [reflexivity|].
  rewrite recoverStep_load. f_equal. exact IH.
Qed.

Lemma fold_set_entries {A : Type} (g : Z * A -> Q) (l : list (Z * A)) :
  forall d : Distribution,
  NoDup l.*1 ->
  (forall e, e ∈ l -> e.1 ∉ JsMap.keys d) ->
  fold_left (fun d e => JsMap.set e.1 (g e) d) l d
  = d ++ map (fun e => (e.1, g e)) l.
Proof.
  induction l as [|e l IH]; intros d Hnd Hfresh; simpl.
  - now rewrite app_nil_r.
  - apply NoDup_cons in Hnd as [He Hnd].
    rewrite set_fresh by (apply Hfresh; left).
    rewrite IH; [now rewrite <- app_assoc | assumption |].
    intros e' He'. rewrite keys_app, elem_of_app. intros [Hin | Hin].
    + apply (Hfresh e'); [now right | assumption].
    + apply list_elem_of_singleton in Hin. simpl in Hin.
      apply He. rewrite <- Hin. apply list_elem_of_fmap. now exists e'.
Qed.

Definition loadsOf (st : Controller) : Distribution :=
  map (fun e : Z * PathMetrics => (e.1, loadPercentage e.2)) (paths st).

Lemma currentDistributionOf_eq st :
  NoDup (JsMap.keys (paths st)) -> currentDistributionOf st = loadsOf st.
Proof.
  intros Hnd. unfold currentDistributionOf, loadsOf.
  apply (fold_set_entries (fun e : Z * PathMetrics => loadPercentage e.2)
           (paths st) [] Hnd).
  intros e _. apply not_elem_of_nil.
Qed.

Lemma keys_loadsOf st : JsMap.keys (loadsOf st) = JsMap.keys (paths st).
Proof.
  unfold loadsOf, JsMap.keys. induction (paths st) as [|e r IH]; simpl;
    [reflexivity|]. f_equal. exact IH.
Qed.

Lemma distTotal_loadsOf st : distTotal (loadsOf st) = totalLoad st.
Proof.
  unfold loadsOf, distTotal, totalLoad. induction (paths st) as [|e r IH]; simpl;
    [reflexivity|]. f_equal. exact IH.
Qed.

Definition blend (target : Distribution) (progress : Q) (e : Z * Q) : Z * Q :=
  (e.1, e.2 + (valueAt target e.1 - e.2) * progress).

Lemma mapM_interpolate target progress (current : Distribution) :
  (forall id, id ∈ JsMap.keys current -> is_Some (JsMap.get id target)) ->
  mapM (interpolate target progress) current
  = Some (map (blend target progress) current).
Proof.
  unfold JsMap.keys. induction current as [|e r IH]; intros Hall; [reflexivity|].
  cbn [mapM map]. destruct (Hall e.1) as [t Ht]; [left|].
  rewrite IH by (intros id Hid; apply Hall; now right).
  assert (blend target progress e = (e.1, e.2 + (t - e.2) * progress)) as ->
    by (unfold blend, valueAt; now rewrite Ht).
  unfold interpolate. rewrite Ht. reflexivity.
Qed.

Lemma keys_blend target progress (current : Distribution) :
  JsMap.keys (map (blend target progress) current) = JsMap.keys current.
Proof.
  unfold JsMap.keys. induction current as [|e r IH]; simpl; [reflexivity|].
  f_equal. exact IH.
Qed.

Lemma rebuild_entries (entries : Distribution) :
  NoDup (JsMap.keys entries) ->
  fold_left (fun d e => JsMap.set e.1 e.2 d) entries [] = entries.
Proof.
  intros Hnd.
  rewrite (fold_set_entries (fun e : Z * Q => e.2) entries [] Hnd).
  - simpl. induction entries as [|[k v] r IH]; simpl; [reflexivity|].
    f_equal. apply IH. now apply NoDup_cons in Hnd as [_ ?].
  - intros e _. apply not_elem_of_nil.
Qed.

Lemma distTotal_blend target progress (current : Distribution) :
  distTotal (map (blend target progress) current)
  == (1 - progress) * distTotal current
     + progress * Qsum (map (valueAt target) (JsMap.keys current)).
Proof.
  unfold distTotal, JsMap.keys, fmap.
  induction current as [|e r IH]; simpl; [ring|]. rewrite IH. ring.
Qed.

Lemma distTotal_scale (c : Q) (d : Distribution) :
  distTotal (map (fun e : Z * Q => (e.1, e.2 * c)) d) == distTotal d * c.
Proof.
  unfold distTotal, fmap. induction d as [|e r IH]; simpl; [ring|].
  rewrite IH. ring.
Qed.

Lemma keys_scale (c : Q) (d : Distribution) :
  JsMap.keys (map (fun e : Z * Q => (e.1, e.2 * c)) d) = JsMap.keys d.
Proof.
  unfold JsMap.keys. induction d as [|e r IH]; simpl; [reflexivity|].
  f_equal. exact IH.
Qed.

Lemma normalise_total d :
  ~ distTotal d == 0 ->
  exists d', normalise d = Some d' /\
             Qabs (distTotal d' - 100) <= 1 # 100 /\
             JsMap.keys d' = JsMap.keys d.
Proof.
  intros Hne. unfold normalise.
  destruct (Qltb (1 # 100) (Qabs (distTotal d - 100))) eqn:E.
  - destruct (Qeq_bool (distTotal d) 0) eqn:E0.
    + apply Qeq_bool_iff in E0. contradiction.
    + eexists. split; [reflexivity|]. split.
      * assert (Ht : distTotal (map (fun e : Z * Q => (e.1, e.2 * (100 / distTotal d))) d)
                     == 100).
        { rewrite distTotal_scale. now field. }
        rewrite Ht. vm_compute. discriminate.
      * apply keys_scale.
  - exists d. split; [reflexivity|]. split; [|reflexivity]. now apply Qltb_ge.
Qed.

Lemma blend_total_pos (p c t : Q) :
  0 < p -> p <= 1 -> 0 < c -> 0 < t -> 0 < (1 - p) * c + p * t.
Proof.
  intros Hp Hp1 Hc Ht.
  assert (H1 : 0 <= (1 - p) * c) by (apply Qmult_le_0_compat; lra).
  assert (H2 : 0 < p * t) by now apply Qmult_lt_0_compat.
  lra.
Qed.

Lemma hasHealthy_not_allDegraded st :
  hasHealthyOrRecovering st = true -> allDegraded st = false.
Proof.
  intros H. destruct (allDegraded st) eqn:E; [|reflexivity].
  apply allDegraded_no_healthy in E. congruence.
Qed.

Lemma progress_bounds (i : Z) :
  (1 <= i <= 5)%Z ->
  0 < inject_Z i / inject_Z numSteps /\ inject_Z i / inject_Z numSteps <= 1.
Proof.
  intros Hi.
  assert (H : i = 1%Z \/ i = 2%Z \/ i = 3%Z \/ i = 4%Z \/ i = 5%Z) by lia.
  destruct H as [->|[->|[->|[->| ->]]]]; split; vm_compute;
    solve [reflexivity | discriminate].
Qed.

Lemma stepDistribution_total st i :
  NoDup (JsMap.keys (paths st)) ->
  (forall id, id ∈ JsMap.keys (paths st) ->
     is_Some (JsMap.get id (optimalDistribution st))) ->
  0 < totalLoad st -> 0 < optimalTotal st -> (1 <= i <= 5)%Z ->
  exists d,
    stepDistribution (loadsOf st) (optimalDistribution st) i = Some d /\
    Qabs (distTotal d - 100) <= 1 # 100 /\
    JsMap.keys d = JsMap.keys (paths st).
Proof.
  intros Hnd Hopt Hload Htarget Hi. unfold stepDistribution.
  destruct (progress_bounds i Hi) as [Hp0 Hp1].
  set (p := inject_Z i / inject_Z numSteps) in *.
  rewrite mapM_interpolate by now rewrite keys_loadsOf.
  rewrite rebuild_entries by now rewrite keys_blend, keys_loadsOf.
  destruct (normalise_total (map (blend (optimalDistribution st) p) (loadsOf st)))
    as (d & Hd & Hbound & Hkeys).
  - rewrite distTotal_blend, distTotal_loadsOf, keys_loadsOf.
    fold (optimalTotal st). intros E.
    pose proof (blend_total_pos p _ _ Hp0 Hp1 Hload Htarget) as Hpos.
    rewrite E in Hpos. now apply Qlt_irrefl in Hpos.
  - exists d. split; [assumption|]. split; [assumption|].
    now rewrite Hkeys, keys_blend, keys_loadsOf.
Qed.

Lemma within_of_eq (x : Q) : x == 100 -> Qabs (x - 100) <= 1 # 100.
Proof. intros ->. vm_compute. discriminate. Qed.

Lemma redistribute_all_degraded_state st1 D :
  healthyPathsOf D (JsMap.keys (paths st1)) = [] -> (redistribute st1 D).1 = st1.
Proof. intros E. unfold redistribute. now rewrite E. Qed.

(** C7 (amended): every distribution that rebalancePaths returns sums to
    100 within 0.01. When some registered path is outside the list of the
    degradation scan the distribution is applied, so that the registered
    loads sum to 100 within 0.01 as well; when the scan lists every
    registered path the even split is returned but not applied, and every
    registered load stays what it was. Every step of a revert schedule
    sums to 100 within 0.01, and so do the registered loads once the step
    is applied, provided the current loads and the stored optimal loads
    each have a positive total. *)
Theorem distributions_total_100 (ge : GraphApi) (src dst : Z) (now : Q)
  (st : Controller) :
  NoDup (JsMap.keys (paths st)) ->
  (forall id, id ∈ JsMap.keys (paths st) ->
     is_Some (JsMap.get id (optimalDistribution st))) ->
  (forall d, (rebalancePaths ge src dst now st).2 = RDistribution d ->
     Qabs (distTotal d - 100) <= 1 # 100 /\
     (healthyIds now st <> [] ->
      Qabs (totalLoad (rebalancePaths ge src dst now st).1 - 100) <= 1 # 100) /\
     (healthyIds now st = [] ->
      forall id, loadOf (rebalancePaths ge src dst now st).1 id = loadOf st id)) /\
  (0 < totalLoad st -> 0 < optimalTotal st ->
   forall sched step,
     (gradualRevert now st).2 = Some sched -> step ∈ steps sched ->
     exists d st',
       distribution step = Some d /\
       Qabs (distTotal d - 100) <= 1 # 100 /\
       applyTransitionStep step (gradualRevert now st).1 = Applied st' /\
       Qabs (totalLoad st' - 100) <= 1 # 100).
Proof.
  intros Hnd Hopt. split.
  - intros d Hd.
    destruct (rebalancePaths_distribution ge src dst now st d Hd) as [HD Hvalid].
    unfold healthyIds, degradedIds in *.
    rewrite (rebalancePaths_redistributes ge src dst now st HD Hvalid) in *.
    pose proof (detectDegradedPaths_keys now st) as Hkeys.
    pose proof (degraded_ids_are_keys now st Hnd) as Hfilter.
    pose proof (detectDegradedPaths_loadOf now st) as Hloads.
    set (st1 := (detectDegradedPaths now st).1) in *.
    set (D := (detectDegradedPaths now st).2) in *.
    assert (Hnd1 : NoDup (JsMap.keys (paths st1))) by now rewrite Hkeys.
    destruct (healthyPathsOf D (JsMap.keys (paths st))) as [|h0 H0] eqn:EH.
    + assert (EH1 : healthyPathsOf D (JsMap.keys (paths st1)) = [])
        by now rewrite Hkeys.
      rewrite redistribute_all_degraded in Hd by assumption.
      simpl in Hd. injection Hd as <-. split; [|split; [congruence|]].
      * apply within_of_eq.
        unfold tabulate. rewrite distTotal_tabulate, Qsum_const. field.
        destruct D as [|d0 D0]; [congruence|].
        change 0 with (inject_Z 0). rewrite inject_Z_injective. simpl. lia.
      * intros _ id. rewrite redistribute_all_degraded_state by assumption.
        apply Hloads.
    + assert (Hne : healthyPathsOf D (JsMap.keys (paths st1)) <> [])
        by (rewrite Hkeys, EH; discriminate).
      rewrite redistribute_healthy in * by assumption.
      simpl in Hd. injection Hd as <-.
      pose proof (pinnedAndShared_total st1 D Hne) as Htotal.
      split; [now apply within_of_eq|]. split; [|discriminate].
      intros _. cbn [fst]. apply within_of_eq.
      rewrite applyDistribution_total; [assumption..|].
      now apply keys_pinnedAndShared.
  - intros Hload Htarget sched step Hsched Hstep.
    unfold gradualRevert in *.
    pose proof (detectRecoveredPaths_keys now st) as Hkeys.
    pose proof (detectRecoveredPaths_loads now st) as Hloads.
    set (st1 := (detectRecoveredPaths now st).1) in *.
    assert (Hnd1 : NoDup (JsMap.keys (paths st1))) by now rewrite Hkeys.
    assert (Hopt1 : optimalDistribution st1 = optimalDistribution st) by reflexivity.
    assert (Hload1 : totalLoad st1 = totalLoad st).
    { rewrite <- !distTotal_loadsOf. unfold loadsOf. now rewrite Hloads. }
    assert (Htarget1 : optimalTotal st1 = optimalTotal st).
    { unfold optimalTotal. now rewrite Hkeys, Hopt1. }
    destruct (negb _ || negb (hasHealthyOrRecovering st1)) eqn:Eguard;
      [discriminate|].
    apply orb_false_iff in Eguard as [_ Ehas].
    apply negb_false_iff, hasHealthy_not_allDegraded in Ehas.
    simpl in Hsched. injection Hsched as <-. simpl in Hstep. cbn [fst].
    unfold targetDistributionOf in Hstep. rewrite Ehas in Hstep.
    rewrite currentDistributionOf_eq in Hstep by assumption.
    assert (Hstep' : exists i, (1 <= i <= 5)%Z /\
              distribution step
              = stepDistribution (loadsOf st1) (optimalDistribution st1) i).
    { repeat (apply elem_of_cons in Hstep as [-> | Hstep];
              [eexists; split; [|reflexivity]; lia|]).
      now apply elem_of_nil in Hstep. }
    destruct Hstep' as (i & Hi & Hdist).
    destruct (stepDistribution_total st1 i) as (d & Hd & Hbound & Hdkeys);
      try assumption.
    + intros id Hid. rewrite Hopt1. apply Hopt. now rewrite <- Hkeys.
    + now rewrite Hload1.
    + now rewrite Htarget1.
    + exists d, (applyDistribution d st1). rewrite Hdist.
      split; [assumption|]. split; [assumption|].
      unfold applyTransitionStep. rewrite Hdist, Hd.
      split; [reflexivity|].
      assert (Happly : totalLoad (applyDistribution d st1) == distTotal d).
      { apply applyDistribution_total; [assumption|]. now rewrite Hdkeys. }
      now rewrite Happly.
Qed.

(** Scenario 5: after the rebalance of scenario 2, path 0 calms down, is
    found recovering at t = 21000 ms and is healthy again one batch later;
    the loads are still 5 : 57 : 38. *)
Definition healthyAgain : Controller :=
  addBatchLatency 21001 40 (Some 0%Z)
    (detectRecoveredPaths 21000
       (feed (Some 0%Z)
          [(1000, 40); (2000, 40); (3000, 40); (4000, 40); (5000, 40); (6000, 40);
           (7000, 40); (8000, 40); (9000, 40); (10000, 40); (11000, 40);
           (12000, 40)]
          (rebalancePaths oneAlternative 1 21 4 path0Degraded).1)).1.

Lemma distributions_total_100_witness :
  0 < totalLoad healthyAgain /\ 0 < optimalTotal healthyAgain /\
  exists sched,
    (gradualRevert 21002 healthyAgain).2 = Some sched /\
    Forall (fun step =>
              exists d st',
                distribution step = Some d /\
                Qabs (distTotal d - 100) <= 1 # 100 /\
                applyTransitionStep step (gradualRevert 21002 healthyAgain).1
                = Applied st' /\
                Qabs (totalLoad st' - 100) <= 1 # 100)
      (steps sched).
Proof.
  assert (Hnd : NoDup (JsMap.keys (paths healthyAgain))) by by_compute.
  assert (Hopt : forall id, id ∈ JsMap.keys (paths healthyAgain) ->
                   is_Some (JsMap.get id (optimalDistribution healthyAgain))).
  { apply Forall_forall. by_compute. }
  assert (Hload : 0 < totalLoad healthyAgain) by (vm_compute; reflexivity).
  assert (Htarget : 0 < optimalTotal healthyAgain) by (vm_compute; reflexivity).
  assert (Hex : exists sched, (gradualRevert 21002 healthyAgain).2 = Some sched)
    by (eexists; vm_compute; reflexivity).
  destruct Hex as [sched E].
  split; [exact Hload|]. split; [exact Htarget|].
  exists sched. split; [exact E|]. apply Forall_forall. intros step Hstep.
  exact (proj2 (distributions_total_100 oneAlternative 1 21 21002 healthyAgain
                  Hnd Hopt) Hload Htarget sched step E Hstep).
Defined.

(** A path registered with an initial (hence optimal) load of 0 that now
    carries all the traffic. *)
Definition zeroOptimal : Controller :=
  updatePathLoad 0 100 (registerPath 0 [1; 9; 19]%Z 0 defaultController).

(** Two registered paths with loads 50 and 30, both degraded by rising
    samples. *)
Definition lowBothDegraded : Controller :=
  feed (Some 1%Z) [(4, 120); (5, 150); (6, 180)]
    (feed (Some 0%Z) [(1, 120); (2, 150); (3, 180)]
       (registerPath 1 [1; 10; 20]%Z 30
          (registerPath 0 [1; 9; 19]%Z 50 defaultController))).

(** C7 (as stated) fails twice. The registered loads of zeroOptimal total
    100, yet the last step of its revert schedule interpolates to the
    optimal loads, whose total is 0: the scale factor 100/0 is not finite,
    the step holds no finite load, and applying it leaves no registered
    loads to sum. And a rebalance that finds every path degraded returns
    the even split 50 : 50 without applying it: the registered loads stay
    50 + 30 = 80. *)
Lemma registered_loads_not_100 :
  (0 < totalLoad zeroOptimal /\
   exists sched step,
     (gradualRevert 0 zeroOptimal).2 = Some sched /\
     last (steps sched) = Some step /\
     distribution step = None /\
     applyTransitionStep step (gradualRevert 0 zeroOptimal).1
     = NonFiniteLoads (gradualRevert 0 zeroOptimal).1) /\
  (0 < totalLoad lowBothDegraded /\
   exists d,
     (rebalancePaths oneAlternative 1 20 7 lowBothDegraded).2 = RDistribution d /\
     distTotal d == 100 /\
     totalLoad (rebalancePaths oneAlternative 1 20 7 lowBothDegraded).1 == 80 /\
     ~ Qabs (totalLoad (rebalancePaths oneAlternative 1 20 7 lowBothDegraded).1
             - 100) <= 1 # 100).
Proof.
  split.
  - split; [vm_compute; reflexivity|].
    eexists. eexists. split; [vm_compute; reflexivity|].
    split; [reflexivity|]. split; reflexivity.
  - split; [vm_compute; reflexivity|].
    eexists. split; [vm_compute; reflexivity|].
    split; [vm_compute; reflexivity|]. split; [vm_compute; reflexivity|].
    vm_compute. intros H. now apply H.
Qed.

End PRFC.

(** * GraphEngine *)

Module GraphEngine.
Local Open Scope Q_scope.

Inductive Tier := edge | core | cloud.

Definition Tier_eqb (a b : Tier) : bool :=
  match a, b with
  | edge, edge | core, core | cloud, cloud => true
  | _, _ => false
  end.

Record Node := mkNode {
  id : Z;
  tier : Tier;
  physical_map : string;
  cpu_ev_sec : option Q;
  buffer_kb : option Q;
  bw_mbps : option Q;
  storage : option string;
  quality : string;
  current_utilization : option Q
}.

(** [base_delay_ms] is the untyped field that fault injection adds. *)
Record Link := mkLink {
  u : Z;
  v : Z;
  l_bw_mbps : Q;
  delay_ms : Q;
  jitter_ms : Q;
  loss_rate : Q;
  l_current_utilization : option Q;
  base_delay_ms : option Q
}.

Record TopologyData := mkTopologyData {
  t_nodes : option (list Node);
  t_links : option (list Link)
}.

(** An adjacency entry refers to its link object, which it shares with
    [links] and with the entry of the opposite direction: [link] is the
    index of that object in [links]. *)
Record AdjacencyEntry := mkEntry { neighbor : Z; link : nat }.

Record Graph := mkGraph {
  nodes : list (Z * Node);
  links : list Link;
  adjacencyList : list (Z * list AdjacencyEntry)
}.

Definition emptyGraph : Graph := mkGraph [] [] [].

Definition linkAt (g : Graph) (i : nat) : option Link := links g !! i.

Definition getNeighbors (g : Graph) (nodeId : Z) : list AdjacencyEntry :=
  default [] (JsMap.get nodeId (adjacencyList g)).

(** ** Dijkstra *)

Inductive Dist := Fin (d : Q) | Inf.

(** [distances.get(n) || Infinity]: a missing entry and a distance of 0
    both read as [Infinity]. *)
Definition orInfinity (o : option Dist) : Dist :=
  match o with
  | Some (Fin d) => if Qeq_bool d 0 then Inf else Fin d
  | _ => Inf
  end.

Definition Dist_ltb (newDist : Q) (oldDist : Dist) : bool :=
  match oldDist with
  | Fin d => Qltb newDist d
  | Inf => true
  end.

(** [previous.get(n) || null]: [undefined], [null] and node 0 all read as
    [null]. The map holds no entry where the source holds [null]. *)
Definition orNull (o : option Z) : option Z :=
  match o with
  | Some p => if (p =? 0)%Z then None else Some p
  | None => None
  end.

Definition isExcluded (excludeNodes : option (gset Z)) (n : Z) : bool :=
  match excludeNodes with
  | Some s => bool_decide (n ∈ s)
  | None => false
  end.

Record Search := mkSearch {
  distances : gmap Z Dist;
  previous : gmap Z Z;
  visited : gset Z;
  priorityQueue : list (Q * Z)
}.

Definition initSearch (g : Graph) (src : Z) : Search :=
  mkSearch
    (<[src := Fin 0]>
       (fold_left (fun m nodeId => <[nodeId := Inf]> m) (JsMap.keys (nodes g)) ∅))
    ∅ ∅ [(0, src)].

Definition byDistance (a b : Q * Z) : Q := a.1 - b.1.

Definition relax (g : Graph) (dst : Z) (excludeNodes : option (gset Z))
  (currentDist : Q) (currentNode : Z) (s : Search) (e : AdjacencyEntry) : Search :=
  if isExcluded excludeNodes (neighbor e) && negb (neighbor e =? dst)%Z then s
  else if bool_decide (neighbor e ∈ visited s) then s
  else
    let newDist :=
      currentDist + match linkAt g (link e) with Some l => delay_ms l | None => 0 end in
    let oldDist := orInfinity (distances s !! neighbor e) in
    if Dist_ltb newDist oldDist then
      mkSearch (<[neighbor e := Fin newDist]> (distances s))
        (<[neighbor e := currentNode]> (previous s))
        (visited s)
        (priorityQueue s ++ [(newDist, neighbor e)])
    else s.

(** The [while (priorityQueue.length > 0)] loop; [None] when the fuel
    runs out before the loop ends. *)
Fixpoint searchLoop (fuel : nat) (g : Graph) (src dst : Z)
  (excludeNodes : option (gset Z)) (s : Search) : option Search :=
  match fuel with
  | O => None
  | S fuel' =>
      match js_sort byDistance (priorityQueue s) with
      | [] => Some s
      | (currentDist, currentNode) :: rest =>
          let s0 := mkSearch (distances s) (previous s) (visited s) rest in
          if bool_decide (currentNode ∈ visited s) then
            searchLoop fuel' g src dst excludeNodes s0
          else
            let s1 :=
              mkSearch (distances s) (previous s) ({[currentNode]} ∪ visited s) rest in
            if (currentNode =? dst)%Z then Some s1
            else if isExcluded excludeNodes currentNode
                    && negb (currentNode =? src)%Z && negb (currentNode =? dst)%Z
            then searchLoop fuel' g src dst excludeNodes s1
            else
              searchLoop fuel' g src dst excludeNodes
                (fold_left (relax g dst excludeNodes currentDist currentNode)
                   (getNeighbors g currentNode) s1)
      end
  end.

(** The [while (current !== null)] loop that walks [previous] back from
    the destination. *)
Fixpoint reconstruct (fuel : nat) (prev : gmap Z Z) (current : Z) (path : list Z)
  : option (list Z) :=
  match fuel with
  | O => None
  | S fuel' =>
      match orNull (prev !! current) with
      | Some p => reconstruct fuel' prev p (current :: path)
      | None => Some (current :: path)
      end
  end.

Definition adjacencySize (g : Graph) : nat :=
  list_sum (map (fun e : Z * list AdjacencyEntry => length e.2) (adjacencyList g)).

(** Enough iterations for any search on [g]: every queue entry but the
    first is pushed while a node's adjacency list is scanned, and each
    list is scanned at most once. *)
Definition searchFuel (g : Graph) : nat := S (S (adjacencySize g)).

Inductive SearchResult :=
| OutOfFuel
| NoPath
| Found (path : list Z).

Definition findShortestPathWith (fuel : nat) (g : Graph) (src dst : Z)
  (excludeNodes : option (gset Z)) : SearchResult :=
  if negb (JsMap.has src (nodes g)) then NoPath
  else if negb (JsMap.has dst (nodes g)) then NoPath
  else
    match searchLoop fuel g src dst excludeNodes (initSearch g src) with
    | None => OutOfFuel
    | Some s =>
        match distances s !! dst with
        | Some Inf => NoPath
        | _ =>
            match reconstruct (S (size (visited s))) (previous s) dst [] with
            | Some path => Found path
            | None => OutOfFuel
            end
        end
    end.

(** [findShortestPath]: the node sequence, or [None] for [null]. *)
Definition findShortestPath (g : Graph) (src dst : Z)
  (excludeNodes : option (gset Z)) : option (list Z) :=
  match findShortestPathWith (searchFuel g) g src dst excludeNodes with
  | Found path => Some path
  | _ => None
  end.

(** ** Links and path metrics *)

Definition getLinkIndex (g : Graph) (a b : Z) : option nat :=
  match JsMap.get a (adjacencyList g) with
  | None => None
  | Some neighbors =>
      link <$> List.find (fun n => (neighbor n =? b)%Z) neighbors
  end.

Definition getLink (g : Graph) (a b : Z) : option Link :=
  match getLinkIndex g a b with
  | Some i => linkAt g i
  | None => None
  end.

(** The links along consecutive hops of a path, [None] where a hop has
    no link. *)
Fixpoint hopLinks (g : Graph) (path : list Z) : list (option Link) :=
  match path with
  | a :: (b :: _) as rest => getLink g a b :: hopLinks g rest
  | _ => []
  end.

Definition estimatePathLatency (g : Graph) (path : list Z) : Q :=
  if (length path <? 2)%nat then 0
  else
    fold_left (fun totalLatency o =>
                 match o with
                 | Some l => totalLatency + delay_ms l
                 | None => totalLatency
                 end)
      (hopLinks g path) 0.

Definition Dist_min (a : Dist) (b : Q) : Dist :=
  match a with
  | Inf => Fin b
  | Fin x => if Qle_bool x b then Fin x else Fin b
  end.

Definition availableBw (l : Link) : Q :=
  l_bw_mbps l * (1 - default 0 (l_current_utilization l)).

Definition estimatePathCapacity (g : Graph) (path : list Z) : Q :=
  if (length path <? 2)%nat then 0
  else
    match fold_left (fun minCapacity o =>
                       match o with
                       | Some l => Dist_min minCapacity (availableBw l)
                       | None => minCapacity
                       end)
            (hopLinks g path) Inf with
    | Inf => 0
    | Fin c => c
    end.

Definition scorePath (g : Graph) (path : list Z) : Q :=
  if (length path <? 2)%nat then 0
  else
    let latency := estimatePathLatency g path in
    let capacity := estimatePathCapacity g path in
    let hopCount := inject_Z (Z.of_nat (length path - 1)) in
    let '(totalUtilization, linkCount) :=
      fold_left (fun acc o =>
                   match o with
                   | Some l => (acc.1 + default 0 (l_current_utilization l),
                                (acc.2 + 1)%Z)
                   | None => acc
                   end)
        (hopLinks g path) (0, 0%Z) in
    let avgUtilization :=
      if (0 <? linkCount)%Z then totalUtilization / inject_Z linkCount else 0 in
    let latencyScore := if Qltb 0 latency then 1000 / latency else 0 in
    let capacityScore := capacity * 10 in
    let hopScore := if Qltb 0 hopCount then 100 / hopCount else 0 in
    let utilizationScore := (1 - avgUtilization) * 100 in
    latencyScore + capacityScore + hopScore + utilizationScore.

Definition tierOrder (t : Tier) : Z :=
  match t with edge => 1 | core => 2 | cloud => 3 end.

(** The loop of [isValidPath]: [None] when a node is missing or a tier
    level decreases. *)
Fixpoint tierScan (g : Graph) (currentTierLevel : Z) (path : list Z) : bool :=
  match path with
  | [] => true
  | nodeId :: rest =>
      match JsMap.get nodeId (nodes g) with
      | None => false
      | Some node =>
          if (tierOrder (tier node) <? currentTierLevel)%Z then false
          else tierScan g (tierOrder (tier node)) rest
      end
  end.

Definition isValidPath (g : Graph) (path : list Z) : bool :=
  if (length path <? 2)%nat then false
  else if negb (tierScan g 0 path) then false
  else
    match head path, last path with
    | Some first, Some final =>
        match JsMap.get first (nodes g), JsMap.get final (nodes g) with
        | Some firstNode, Some lastNode =>
            Tier_eqb (tier firstNode) edge && Tier_eqb (tier lastNode) cloud
        | _, _ => false
        end
    | _, _ => false
    end.

(** ** k node-disjoint shortest paths *)

(** [path[1 .. path.length - 2]] *)
Definition intermediates (path : list Z) : list Z :=
  take (length path - 2) (drop 1 path).

Definition excludeSetFor (src dst : Z) (initialExcludeSet used : gset Z) : gset Z :=
  initialExcludeSet ∪ filter (fun n => n <> src /\ n <> dst) used.

Fixpoint disjointLoop (iterations : nat) (g : Graph) (src dst : Z)
  (initialExcludeSet usedIntermediateNodes : gset Z) (foundPaths : list (list Z))
  : list (list Z) :=
  match iterations with
  | O => foundPaths
  | S n =>
      let currentExcludeSet :=
        excludeSetFor src dst initialExcludeSet usedIntermediateNodes in
      match findShortestPath g src dst (Some currentExcludeSet) with
      | None => foundPaths
      | Some path =>
          disjointLoop n g src dst initialExcludeSet
            (usedIntermediateNodes ∪ list_to_set (intermediates path))
            (foundPaths ++ [path])
      end
  end.

Definition toPath (g : Graph) (pathNodes : list Z) : Path :=
  mkPath pathNodes (estimatePathLatency g pathNodes)
    (estimatePathCapacity g pathNodes) (scorePath g pathNodes).

Definition findKShortestPaths (g : Graph) (src dst : Z) (k : Z)
  (excludeNodes : option (list Z)) : list Path :=
  if negb (JsMap.has src (nodes g)) || negb (JsMap.has dst (nodes g)) then []
  else if (k <=? 0)%Z then []
  else
    let initialExcludeSet : gset Z :=
      match excludeNodes with Some l => list_to_set l | None => ∅ end in
    map (toPath g)
      (disjointLoop (Z.to_nat k) g src dst initialExcludeSet ∅ []).

(** ** Loading a topology *)

Inductive ConnectivityReport :=
| NoEdgeOrCloud
| ConnectivityVerified (edgeId cloudId : Z)
| MayNotBeConnected.

Definition getNodesByTier (g : Graph) (t : Tier) : list Node :=
  List.filter (fun n => Tier_eqb (tier n) t) (JsMap.values (nodes g)).

(** [verifyConnectivity] only logs; the report is what it logs. *)
Definition verifyConnectivity (g : Graph) : ConnectivityReport :=
  match getNodesByTier g edge, getNodesByTier g cloud with
  | e :: _, c :: _ =>
      match findShortestPath g (id e) (id c) None with
      | Some _ => ConnectivityVerified (id e) (id c)
      | None => MayNotBeConnected
      end
  | _, _ => NoEdgeOrCloud
  end.

Definition pushEntry (a : Z) (e : AdjacencyEntry)
  (adj : list (Z * list AdjacencyEntry)) : list (Z * list AdjacencyEntry) :=
  match JsMap.get a adj with
  | Some entries => JsMap.set a (entries ++ [e]) adj
  | None => adj
  end.

Definition addLink (nodeMap : list (Z * Node))
  (acc : nat * list (Z * list AdjacencyEntry)) (l : Link)
  : nat * list (Z * list AdjacencyEntry) :=
  let '(i, adj) := acc in
  if negb (JsMap.has (u l) nodeMap) then (S i, adj)
  else if negb (JsMap.has (v l) nodeMap) then (S i, adj)
  else (S i, pushEntry (v l) (mkEntry (u l) i) (pushEntry (u l) (mkEntry (v l) i) adj)).

Definition buildAdjacency (nodeMap : list (Z * Node)) (ls : list Link)
  : list (Z * list AdjacencyEntry) :=
  (fold_left (addLink nodeMap) ls
     (0%nat, fold_left (fun adj nodeId => JsMap.set nodeId [] adj)
               (JsMap.keys nodeMap) [])).2.

Definition buildGraph (nodeMap : list (Z * Node)) (ls : list Link)
  : Graph * ConnectivityReport :=
  let g := mkGraph nodeMap ls (buildAdjacency nodeMap ls) in
  (g, verifyConnectivity g).

Definition resetNode (n : Node) : Node :=
  mkNode (id n) (tier n) (physical_map n) (cpu_ev_sec n) (buffer_kb n) (bw_mbps n)
    (storage n) (quality n) (Some 0).

Definition resetLink (l : Link) : Link :=
  mkLink (u l) (v l) (l_bw_mbps l) (delay_ms l) (jitter_ms l) (loss_rate l)
    (Some 0) (base_delay_ms l).

(** [loadTopology] once the file is read and parsed, on a document whose
    node entries are all objects; [inl] is the message of the error
    thrown. [loadTopologyFile] below covers what comes before. *)
Definition loadTopology (topologyData : TopologyData)
  : string + Graph * ConnectivityReport :=
  match t_nodes topologyData with
  | None => inl "Invalid topology: missing or invalid nodes array"%string
  | Some ns =>
      match t_links topologyData with
      | None => inl "Invalid topology: missing or invalid links array"%string
      | Some ls =>
          inr (buildGraph
                 (fold_left (fun m n => JsMap.set (id n) (resetNode n) m) ns [])
                 (map resetLink ls))
      end
  end.

(** ** Loading from the file *)




(** ** Utilisation updates and fault knobs *)

Definition setDelay (l : Link) (delay : Q) (base : option Q) : Link :=
  mkLink (u l) (v l) (l_bw_mbps l) delay (jitter_ms l) (loss_rate l)
    (l_current_utilization l) base.

Definition touches (nodeId : Z) (l : Link) : bool :=
  (u l =? nodeId)%Z || (v l =? nodeId)%Z.

(** [base_delay_ms || delay_ms]: an absent or zero snapshot is retaken. *)
Definition baseOrDelay (l : Link) : Q :=
  match base_delay_ms l with
  | Some b => if Qeq_bool b 0 then delay_ms l else b
  | None => delay_ms l
  end.

Definition injectNodeLatencyFault (nodeId : Z) (additionalLatencyMs : Q) (g : Graph)
  : Graph :=
  mkGraph (nodes g)
    (map (fun l =>
            if touches nodeId l then
              setDelay l (baseOrDelay l + additionalLatencyMs) (Some (baseOrDelay l))
            else l)
       (links g))
    (adjacencyList g).

Definition removeNodeLatencyFault (nodeId : Z) (g : Graph) : Graph :=
  mkGraph (nodes g)
    (map (fun l =>
            if touches nodeId l then
              match base_delay_ms l with
              | Some b => setDelay l b (Some b)
              | None => l
              end
            else l)
       (links g))
    (adjacencyList g).

Definition updateLinkUtilization (a b : Z) (utilization : Q) (g : Graph) : Graph :=
  match getLinkIndex g a b with
  | Some i =>
      mkGraph (nodes g)
        (alter (fun l => mkLink (u l) (v l) (l_bw_mbps l) (delay_ms l) (jitter_ms l)
                           (loss_rate l) (Some utilization) (base_delay_ms l))
           i (links g))
        (adjacencyList g)
  | None => g
  end.

(** ** The search loop terminates within [searchFuel] *)

(** Adjacency entries of the nodes not visited yet. *)
Fixpoint remaining (adj : list (Z * list AdjacencyEntry)) (vis : gset Z) : nat :=
  match adj with
  | [] => 0
  | (k, es) :: r =>
      ((if bool_decide (k ∈ vis) then 0 else length es) + remaining r vis)%nat
  end.

Lemma remaining_le_size adj vis :
  (remaining adj vis <= list_sum (map (fun e : Z * list AdjacencyEntry => length e.2) adj))%nat.
Proof.
  induction adj as [|[k es] r IH]; simpl; [lia|].
  case_bool_decide; lia.
Qed.

Lemma remaining_mono adj vis c :
  (remaining adj ({[c]} ∪ vis) <= remaining adj vis)%nat.
Proof.
  induction adj as [|[k es] r IH]; simpl; [lia|].
  repeat case_bool_decide; try lia. set_solver.
Qed.

Lemma remaining_visit adj vis c :
  c ∉ vis ->
  (remaining adj ({[c]} ∪ vis) + length (default [] (JsMap.get c adj))
   <= remaining adj vis)%nat.
Proof.
  intros Hc. induction adj as [|[k es] r IH]; simpl; [lia|].
  destruct (Z.eqb_spec c k) as [->|Hne].
  - rewrite (bool_decide_eq_true_2 (k ∈ {[k]} ∪ vis)) by set_solver.
    rewrite (bool_decide_eq_false_2 (k ∈ vis)) by assumption.
    pose proof (remaining_mono r vis k). simpl. lia.
  - repeat case_bool_decide; try lia; set_solver.
Qed.

Lemma relax_visited g dst excl d c s e :
  visited (relax g dst excl d c s e) = visited s.
Proof.
  unfold relax.
  repeat match goal with |- context [if ?b then _ else _] => destruct b end;
    reflexivity.
Qed.

Lemma relax_queue_length g dst excl d c s e :
  (length (priorityQueue (relax g dst excl d c s e))
   <= S (length (priorityQueue s)))%nat.
Proof.
  unfold relax.
  repeat match goal with |- context [if ?b then _ else _] => destruct b end;
    simpl; rewrite ?length_app; simpl; lia.
Qed.

Lemma relax_fold_visited g dst excl d c es : forall s,
  visited (fold_left (relax g dst excl d c) es s) = visited s.
Proof.
  induction es as [|e es IH]; intros s; simpl; [reflexivity|].
  now rewrite IH, relax_visited.
Qed.

Lemma relax_fold_queue_length g dst excl d c es : forall s,
  (length (priorityQueue (fold_left (relax g dst excl d c) es s))
   <= length es + length (priorityQueue s))%nat.
Proof.
  induction es as [|e es IH]; intros s; simpl; [lia|].
  pose proof (IH (relax g dst excl d c s e)).
  pose proof (relax_queue_length g dst excl d c s e). lia.
Qed.

Lemma searchLoop_terminates g src dst excl fuel : forall s,
  (length (priorityQueue s) + remaining (adjacencyList g) (visited s) < fuel)%nat ->
  is_Some (searchLoop fuel g src dst excl s).
Proof.
  induction fuel as [|fuel IH]; intros s Hm; [lia|]. simpl.
  pose proof (js_sort_length byDistance (priorityQueue s)) as Hlen.
  destruct (js_sort byDistance (priorityQueue s)) as [|[d c] rest]; [eexists; reflexivity|].
  simpl in Hlen. case_bool_decide as Hvis.
  - apply IH. simpl. lia.
  - pose proof (remaining_visit (adjacencyList g) (visited s) c Hvis) as Hrem.
    destruct (c =? dst)%Z; [eexists; reflexivity|].
    destruct (isExcluded excl c && negb (c =? src)%Z && _).
    + apply IH. simpl. lia.
    + apply IH. rewrite relax_fold_visited. simpl.
      pose proof (relax_fold_queue_length g dst excl d c (getNeighbors g c)
                    (mkSearch (distances s) (previous s) ({[c]} ∪ visited s) rest)).
      simpl in *. unfold getNeighbors in *. lia.
Qed.

Lemma searchLoop_more_fuel g src dst excl fuel : forall s s' extra,
  searchLoop fuel g src dst excl s = Some s' ->
  searchLoop (fuel + extra) g src dst excl s = Some s'.
Proof.
  induction fuel as [|fuel IH]; intros s s' extra; simpl; [discriminate|].
  destruct (js_sort byDistance (priorityQueue s)) as [|[d c] rest]; [auto|].
  case_bool_decide; [apply IH|].
  destruct (c =? dst)%Z; [auto|].
  destruct (isExcluded excl c && negb (c =? src)%Z && _); apply IH.
Qed.

Lemma searchLoop_from_init g src dst excl :
  is_Some (searchLoop (searchFuel g) g src dst excl (initSearch g src)).
Proof.
  apply searchLoop_terminates. unfold searchFuel, initSearch, adjacencySize. simpl.
  pose proof (remaining_le_size (adjacencyList g) ∅). lia.
Qed.

(** ** What the search loop keeps true *)

Lemma fold_inf_lookup ks : forall (m : gmap Z Dist) n,
  fold_left (fun m k => <[k := Inf]> m) ks m !! n
  = if bool_decide (n ∈ ks) then Some Inf else m !! n.
Proof.
  induction ks as [|k ks IH]; intros m n; simpl; [reflexivity|].
  rewrite IH. destruct (decide (n = k)) as [->|Hne].
  - rewrite lookup_insert_eq. rewrite (bool_decide_eq_true_2 (k ∈ k :: ks)) by left.
    now case_bool_decide.
  - rewrite lookup_insert_ne by congruence.
    case_bool_decide as H1; case_bool_decide as H2; try reflexivity.
    + exfalso. apply H2. now right.
    + exfalso. apply elem_of_cons in H2 as [?|?]; [congruence | contradiction].
Qed.

Section SearchInvariant.
Context (g : Graph) (src dst : Z) (excl : option (gset Z)).
Context (Good : Z -> Prop).
Hypothesis Good_src : Good src.
Hypothesis Good_neighbor : forall c e, e ∈ getNeighbors g c -> Good (neighbor e).

Record Inv (s : Search) : Prop := mkInv {
  inv_prev : forall n p, previous s !! n = Some p ->
    p ∈ visited s /\ p <> dst /\ (isExcluded excl p = true -> p = src) /\
    n <> src /\ (isExcluded excl n = true -> n = dst) /\ Good p;
  inv_queue : forall e, e ∈ priorityQueue s ->
    (e.2 = src \/ is_Some (previous s !! e.2)) /\ Good e.2;
  inv_visited : forall n, n ∈ visited s -> n = src \/ is_Some (previous s !! n);
  inv_src : src ∈ visited s \/ previous s = ∅;
  inv_rank : exists rank : Z -> nat,
    (forall n, n ∈ visited s -> (rank n < size (visited s))%nat) /\
    (forall n p, previous s !! n = Some p -> n ∈ visited s -> (rank p < rank n)%nat);
  inv_dist : forall n d, distances s !! n = Some (Fin d) ->
    n = src \/ is_Some (previous s !! n);
  inv_nodes : forall n, n ∈ JsMap.keys (nodes g) -> is_Some (distances s !! n)
}.

Lemma inv_init : Inv (initSearch g src).
Proof.
  unfold initSearch. constructor; simpl.
  - intros n p H. now rewrite lookup_empty in H.
  - intros e He. apply list_elem_of_singleton in He. subst e. simpl. auto.
  - intros n Hn. now apply not_elem_of_empty in Hn.
  - now right.
  - exists (fun _ => 0%nat). split.
    + intros n Hn. now apply not_elem_of_empty in Hn.
    + intros n p H. now rewrite lookup_empty in H.
  - intros n d H. destruct (decide (n = src)) as [|Hne]; [now left|].
    rewrite lookup_insert_ne, fold_inf_lookup in H by congruence.
    case_bool_decide; [discriminate|]. now rewrite lookup_empty in H.
  - intros n Hn. destruct (decide (n = src)) as [->|Hne].
    + rewrite lookup_insert_eq. eexists; reflexivity.
    + rewrite lookup_insert_ne, fold_inf_lookup by congruence.
      rewrite bool_decide_eq_true_2 by assumption. eexists; reflexivity.
Qed.

Lemma inv_relax s d c e :
  Inv s -> c ∈ visited s -> src ∈ visited s -> c <> dst ->
  (isExcluded excl c = true -> c = src) -> Good c -> Good (neighbor e) ->
  Inv (relax g dst excl d c s e).
Proof.
  intros HI Hc Hsrc Hcd Hexp Hgc Hgn. unfold relax.
  destruct (isExcluded excl (neighbor e) && negb (neighbor e =? dst)%Z) eqn:Ex;
    [assumption|].
  case_bool_decide as Hvis; [assumption|].
  destruct (Dist_ltb _ _); [|assumption].
  set (n := neighbor e) in *.
  assert (Hn_excl : isExcluded excl n = true -> n = dst).
  { intros E. rewrite E in Ex. simpl in Ex.
    apply negb_false_iff, Z.eqb_eq in Ex. exact Ex. }
  assert (Hn_src : n <> src) by (intros ->; contradiction).
  destruct HI as [Hprev Hqueue Hvisited Hsrc' Hrank Hdist Hnodes].
  constructor; simpl.
  - intros n' p H. destruct (decide (n' = n)) as [->|Hne].
    + rewrite lookup_insert_eq in H. injection H as <-. auto 10.
    + rewrite lookup_insert_ne in H by congruence. now apply Hprev.
  - intros e' He'. apply elem_of_app in He' as [He'|He'].
    + destruct (Hqueue e' He') as [[?|Hs] Hg]; (split; [|assumption]); [now left|].
      right. destruct (decide (e'.2 = n)) as [->|Hne].
      * rewrite lookup_insert_eq. eexists; reflexivity.
      * now rewrite lookup_insert_ne by congruence.
    + apply list_elem_of_singleton in He'. subst e'. simpl. split; [|assumption].
      right. rewrite lookup_insert_eq. eexists; reflexivity.
  - intros n' Hn'. destruct (Hvisited n' Hn') as [?|Hs]; [now left|]. right.
    destruct (decide (n' = n)) as [->|Hne]; [contradiction|].
    now rewrite lookup_insert_ne by congruence.
  - now left.
  - destruct Hrank as (rank & Hr1 & Hr2). exists rank. split; [assumption|].
    intros n' p H Hn'. destruct (decide (n' = n)) as [->|Hne]; [contradiction|].
    rewrite lookup_insert_ne in H by congruence. now apply Hr2.
  - intros n' d' H. destruct (decide (n' = n)) as [->|Hne].
    + right. rewrite lookup_insert_eq. eexists; reflexivity.
    + rewrite lookup_insert_ne in H by congruence.
      destruct (Hdist n' d' H) as [?|Hs]; [now left|]. right.
      now rewrite lookup_insert_ne by congruence.
  - intros n' Hn'. destruct (decide (n' = n)) as [->|Hne].
    + rewrite lookup_insert_eq. eexists; reflexivity.
    + rewrite lookup_insert_ne by congruence. now apply Hnodes.
Qed.

Lemma inv_relax_fold d c es : forall s,
  Inv s -> c ∈ visited s -> src ∈ visited s -> c <> dst ->
  (isExcluded excl c = true -> c = src) -> Good c ->
  (forall e, e ∈ es -> Good (neighbor e)) ->
  Inv (fold_left (relax g dst excl d c) es s).
Proof.
  induction es as [|e es IH]; intros s HI Hc Hsrc Hcd Hexp Hgc Hges; simpl;
    [assumption|].
  apply IH; rewrite ?relax_visited; try assumption.
  - apply inv_relax; try assumption. apply Hges. left.
  - intros e' He'. apply Hges. now right.
Qed.

Lemma inv_pop s d c rest :
  Inv s -> js_sort byDistance (priorityQueue s) = (d, c) :: rest ->
  Inv (mkSearch (distances s) (previous s) (visited s) rest).
Proof.
  intros [Hprev Hqueue Hvisited Hsrc Hrank Hdist Hnodes] Hsort.
  constructor; simpl; try assumption.
  intros e He. apply Hqueue.
  apply (js_sort_elem_of byDistance). rewrite Hsort. now right.
Qed.

Lemma inv_visit s d c rest :
  Inv s -> js_sort byDistance (priorityQueue s) = (d, c) :: rest ->
  c ∉ visited s ->
  Inv (mkSearch (distances s) (previous s) ({[c]} ∪ visited s) rest) /\
  src ∈ {[c]} ∪ visited s /\ Good c.
Proof.
  intros [Hprev Hqueue Hvisited Hsrc Hrank Hdist Hnodes] Hsort Hc.
  assert (Hin : (d, c) ∈ priorityQueue s).
  { apply (js_sort_elem_of byDistance). rewrite Hsort. left. }
  destruct (Hqueue _ Hin) as [Hc_prev Hgc]. simpl in Hc_prev, Hgc.
  assert (Hsrc' : src ∈ {[c]} ∪ visited s).
  { destruct Hsrc as [?|Hempty]; [set_solver|].
    destruct Hc_prev as [->|[x Hx]]; [set_solver|].
    rewrite Hempty, lookup_empty in Hx. discriminate. }
  split; [|split; assumption].
  constructor; simpl; try assumption.
  - intros n p H. destruct (Hprev n p H) as (? & ?). split; [set_solver | assumption].
  - intros e He. apply Hqueue.
    apply (js_sort_elem_of byDistance). rewrite Hsort. now right.
  - intros n Hn. apply elem_of_union in Hn as [Hn|Hn]; [|auto].
    apply elem_of_singleton in Hn. now subst.
  - now left.
  - destruct Hrank as (rank & Hr1 & Hr2).
    exists (fun n => if decide (n = c) then size (visited s) else rank n).
    rewrite size_union, size_singleton by set_solver. split.
    + intros n Hn. destruct (decide (n = c)); [lia|].
      assert (Hv : n ∈ visited s) by set_solver. specialize (Hr1 n Hv). lia.
    + intros n p H Hn. destruct (Hprev n p H) as (Hp & _).
      destruct (decide (p = c)) as [->|_]; [contradiction|].
      destruct (decide (n = c)) as [->|Hne].
      * now apply Hr1.
      * apply Hr2; [assumption | set_solver].
Qed.

Lemma searchLoop_inv fuel : forall s s',
  Inv s -> searchLoop fuel g src dst excl s = Some s' -> Inv s'.
Proof.
  induction fuel as [|fuel IH]; intros s s' HI; simpl; [discriminate|].
  destruct (js_sort byDistance (priorityQueue s)) as [|[d c] rest] eqn:Hsort.
  - now intros [= <-].
  - case_bool_decide as Hvis.
    + apply IH. eapply inv_pop; eassumption.
    + destruct (inv_visit s d c rest HI Hsort Hvis) as (HI1 & Hsrc & Hgc).
      destruct (Z.eqb_spec c dst) as [->|Hcd]; [now intros [= <-]|].
      destruct (isExcluded excl c && negb (c =? src)%Z && _) eqn:Ex.
      * now apply IH.
      * apply IH. apply inv_relax_fold; try assumption.
        -- simpl. set_solver.
        -- intros E. rewrite E in Ex. simpl in Ex.
           rewrite andb_true_r in Ex. apply negb_false_iff, Z.eqb_eq in Ex. exact Ex.
        -- intros e He. eapply Good_neighbor, He.
Qed.

End SearchInvariant.

(** ** The reconstructed path *)

(** [Walk prev cur l]: [l] lists the ancestors that the reconstruction
    loop prepends before [cur], the nearest one last. *)
Inductive Walk (prev : gmap Z Z) : Z -> list Z -> Prop :=
| walk_nil cur : Walk prev cur []
| walk_snoc cur p l :
    prev !! cur = Some p -> p <> 0%Z -> Walk prev p l -> Walk prev cur (l ++ [p]).

Lemma orNull_Some o p : orNull o = Some p -> o = Some p /\ p <> 0%Z.
Proof.
  destruct o as [q|]; simpl; [|discriminate].
  destruct (Z.eqb_spec q 0); [discriminate|]. intros [= ->]. auto.
Qed.

Lemma reconstruct_walk prev fuel : forall cur acc path,
  reconstruct fuel prev cur acc = Some path ->
  exists l, path = l ++ cur :: acc /\ Walk prev cur l /\
            orNull (prev !! hd cur l) = None.
Proof.
  induction fuel as [|fuel IH]; intros cur acc path; simpl; [discriminate|].
  destruct (orNull (prev !! cur)) as [p|] eqn:E.
  - intros H. apply orNull_Some in E as [E Hp].
    destruct (IH _ _ _ H) as (l & -> & Hwalk & Htop).
    exists (l ++ [p]). split; [now rewrite <- app_assoc|].
    split; [now constructor|]. now destruct l.
  - intros [= <-]. exists []. repeat split; [constructor | assumption].
Qed.

Lemma walk_values prev cur l :
  Walk prev cur l -> forall x, x ∈ l -> exists y, prev !! y = Some x.
Proof.
  induction 1 as [|cur p l Hp Hne Hw IH]; intros x Hx.
  - now apply elem_of_nil in Hx.
  - apply elem_of_app in Hx as [Hx|Hx]; [auto|].
    apply list_elem_of_singleton in Hx. subst. eauto.
Qed.

Lemma walk_parents prev cur l :
  Walk prev cur l -> forall y, y ∈ drop 1 (l ++ [cur]) -> is_Some (prev !! y).
Proof.
  induction 1 as [|cur p l Hp Hne Hw IH]; intros y Hy.
  - simpl in Hy. now apply elem_of_nil in Hy.
  - assert (E : drop 1 ((l ++ [p]) ++ [cur]) = drop 1 (l ++ [p]) ++ [cur])
      by (destruct l; reflexivity).
    rewrite E in Hy. apply elem_of_app in Hy as [Hy|Hy]; [auto|].
    apply list_elem_of_singleton in Hy. subst. eauto.
Qed.

Lemma intermediates_snoc l d : intermediates (l ++ [d]) = drop 1 l.
Proof.
  unfold intermediates. destruct l as [|a l]; [reflexivity|].
  simpl. rewrite length_app. simpl.
  replace (length l + 1 - 1)%nat with (length l) by lia.
  rewrite drop_0. now rewrite take_app_length.
Qed.

Lemma elem_of_drop_1 {A : Type} (x : A) l : x ∈ drop 1 l -> x ∈ l.
Proof. destruct l; simpl; [auto|]. rewrite drop_0. now right. Qed.

Lemma reconstruct_terminates prev (vis : gset Z) (rank : Z -> nat) :
  (forall n p, prev !! n = Some p -> p ∈ vis) ->
  (forall n, n ∈ vis -> (rank n < size vis)%nat) ->
  (forall n p, prev !! n = Some p -> n ∈ vis -> (rank p < rank n)%nat) ->
  forall cur acc, is_Some (reconstruct (S (size vis)) prev cur acc).
Proof.
  intros Hvis Hr1 Hr2.
  assert (Hgen : forall fuel cur acc,
             cur ∈ vis -> (rank cur < fuel)%nat ->
             is_Some (reconstruct fuel prev cur acc)).
  { induction fuel as [|fuel IH]; intros cur acc Hc Hlt; [lia|]. simpl.
    destruct (orNull (prev !! cur)) as [p|] eqn:E; [|eexists; reflexivity].
    apply orNull_Some in E as [E _]. apply IH; [eapply Hvis, E|].
    specialize (Hr2 _ _ E Hc). lia. }
  intros cur acc. simpl.
  destruct (orNull (prev !! cur)) as [p|] eqn:E; [|eexists; reflexivity].
  apply orNull_Some in E as [E _]. apply Hgen; [eapply Hvis, E|].
  apply Hr1. eapply Hvis, E.
Qed.

(** ** [findShortestPath]: adequacy of the fuel and shape of the result *)

Lemma search_final_inv g src dst excl (Good : Z -> Prop) s :
  Good src ->
  (forall c e, e ∈ getNeighbors g c -> Good (neighbor e)) ->
  searchLoop (searchFuel g) g src dst excl (initSearch g src) = Some s ->
  Inv g src dst excl Good s.
Proof.
  intros Hsrc Hnbr Hs.
  eapply searchLoop_inv; [exact Hsrc | exact Hnbr | | exact Hs].
  now apply inv_init.
Qed.

(** The model never runs out of fuel: the result is the result of the
    loops of the source. *)
Lemma findShortestPathWith_fuel g src dst excl :
  findShortestPathWith (searchFuel g) g src dst excl <> OutOfFuel.
Proof.
  unfold findShortestPathWith.
  destruct (negb (JsMap.has src (nodes g))); [discriminate|].
  destruct (negb (JsMap.has dst (nodes g))); [discriminate|].
  destruct (searchLoop_from_init g src dst excl) as [s Hs]. rewrite Hs.
  pose proof (search_final_inv g src dst excl (fun _ => True) s I
                (fun _ _ _ => I) Hs) as HI.
  destruct (inv_rank _ _ _ _ _ _ HI) as (rank & Hr1 & Hr2).
  destruct (reconstruct_terminates (previous s) (visited s) rank) with
    (cur := dst) (acc := @nil Z) as [path Hpath]; try assumption.
  - intros n p H. now destruct (inv_prev _ _ _ _ _ _ HI n p H).
  - rewrite Hpath. destruct (distances s !! dst) as [[|]|]; discriminate.
Qed.

Lemma findShortestPathWith_more_fuel g src dst excl extra :
  findShortestPathWith (searchFuel g + extra) g src dst excl
  = findShortestPathWith (searchFuel g) g src dst excl.
Proof.
  unfold findShortestPathWith.
  destruct (negb (JsMap.has src (nodes g))); [reflexivity|].
  destruct (negb (JsMap.has dst (nodes g))); [reflexivity|].
  destruct (searchLoop_from_init g src dst excl) as [s Hs].
  now rewrite (searchLoop_more_fuel _ _ _ _ _ _ _ extra Hs), Hs.
Qed.

Lemma findShortestPath_Some g src dst excl path :
  findShortestPath g src dst excl = Some path ->
  exists s,
    searchLoop (searchFuel g) g src dst excl (initSearch g src) = Some s /\
    reconstruct (S (size (visited s))) (previous s) dst [] = Some path /\
    distances s !! dst <> Some Inf /\
    JsMap.has src (nodes g) = true /\ JsMap.has dst (nodes g) = true.
Proof.
  unfold findShortestPath, findShortestPathWith.
  destruct (JsMap.has src (nodes g)); cbn [negb]; [|discriminate].
  destruct (JsMap.has dst (nodes g)); cbn [negb]; [|discriminate].
  destruct (searchLoop (searchFuel g) g src dst excl (initSearch g src)) as [s|];
    [|discriminate].
  intros H. exists s.
  destruct (distances s !! dst) as [[d|]|] eqn:Ed;
    destruct (reconstruct (S (size (visited s))) (previous s) dst []) as [p|];
    try discriminate;
    injection H as <-; repeat split; congruence.
Qed.

(** Whatever the node ids, a returned sequence ends at [dst], and its
    intermediate positions hold no excluded node, nor [src], nor [dst]. *)
Lemma findShortestPath_shape g src dst excl path :
  findShortestPath g src dst excl = Some path ->
  last path = Some dst /\
  forall x, x ∈ intermediates path ->
    isExcluded excl x = false /\ x <> src /\ x <> dst.
Proof.
  intros H. destruct (findShortestPath_Some _ _ _ _ _ H) as (s & Hs & Hrec & _).
  pose proof (search_final_inv g src dst excl (fun _ => True) s I
                (fun _ _ _ => I) Hs) as HI.
  destruct (reconstruct_walk _ _ _ _ _ Hrec) as (l & -> & Hwalk & _).
  split; [apply last_snoc|].
  intros x Hx. rewrite intermediates_snoc in Hx.
  destruct (walk_values _ _ _ Hwalk x (elem_of_drop_1 _ _ Hx)) as [y Hy].
  destruct (inv_prev _ _ _ _ _ _ HI y x Hy) as (_ & Hxd & Hexp & _).
  assert (Hx' : x ∈ drop 1 (l ++ [dst])).
  { destruct l as [|a l]; simpl in *; [now apply elem_of_nil in Hx|].
    rewrite drop_0 in *. apply elem_of_app. now left. }
  destruct (walk_parents _ _ _ Hwalk x Hx') as [p Hp].
  destruct (inv_prev _ _ _ _ _ _ HI x p Hp) as (_ & _ & _ & Hxs & Hexd & _).
  repeat split; try assumption.
  destruct (isExcluded excl x) eqn:E; [|reflexivity].
  exfalso. apply Hxd. now apply Hexd.
Qed.

Lemma has_keys {V : Type} k (m : list (Z * V)) :
  JsMap.has k m = true -> k ∈ JsMap.keys m.
Proof.
  unfold JsMap.has. destruct (JsMap.get k m) eqn:E; [|discriminate].
  intros _. eapply JsMap.get_Some_keys, E.
Qed.

(** When 0 names no node, the walk back from [dst] can only stop at
    [src]: the returned sequence starts at [src] and ends at [dst]. *)
Lemma findShortestPath_endpoints g src dst excl path :
  src <> 0%Z ->
  (forall c e, e ∈ getNeighbors g c -> neighbor e <> 0%Z) ->
  findShortestPath g src dst excl = Some path ->
  head path = Some src /\ last path = Some dst.
Proof.
  intros Hsrc Hnbr H.
  split; [|now apply (findShortestPath_shape g src dst excl path H)].
  destruct (findShortestPath_Some _ _ _ _ _ H) as (s & Hs & Hrec & Hd & _ & Hdst).
  pose proof (search_final_inv g src dst excl (fun n => n <> 0%Z) s Hsrc Hnbr Hs)
    as HI.
  destruct (reconstruct_walk _ _ _ _ _ Hrec) as (l & -> & Hwalk & Htop).
  assert (Hnone : previous s !! hd dst l = None).
  { destruct (previous s !! hd dst l) as [p|] eqn:E; [|reflexivity].
    destruct (inv_prev _ _ _ _ _ _ HI _ _ E) as (_ & _ & _ & _ & _ & Hp).
    simpl in Htop. destruct (Z.eqb_spec p 0); [contradiction | discriminate]. }
  destruct l as [|a l]; simpl in *.
  - f_equal. destruct (inv_nodes _ _ _ _ _ _ HI dst (has_keys _ _ Hdst)) as [[d|] Hdd];
      [|congruence].
    destruct (inv_dist _ _ _ _ _ _ HI dst d Hdd) as [?|[x Hx]]; congruence.
  - f_equal.
    destruct (walk_values _ _ _ Hwalk a) as [y Hy]; [left|].
    destruct (inv_prev _ _ _ _ _ _ HI y a Hy) as (Ha & _).
    destruct (inv_visited _ _ _ _ _ _ HI a Ha) as [?|[x Hx]]; congruence.
Qed.

(** ** k node-disjoint paths *)

Lemma nodeIds_toPath g l : map p_nodeIds (map (toPath g) l) = l.
Proof. induction l as [|p l IH]; simpl; [reflexivity|]. now rewrite IH. Qed.

Definition pairwiseDisjoint (found : list (list Z)) : Prop :=
  forall (i j : nat) p q, (i < j)%nat -> found !! i = Some p -> found !! j = Some q ->
    forall x, x ∈ intermediates p -> x ∈ intermediates q -> False.

Lemma disjointLoop_spec g src dst (initial : gset Z) n : forall used found,
  pairwiseDisjoint found ->
  (forall p x, p ∈ found -> x ∈ intermediates p ->
     x ∈ used /\ x <> src /\ x <> dst /\ x ∉ initial) ->
  pairwiseDisjoint (disjointLoop n g src dst initial used found) /\
  (forall p x, p ∈ disjointLoop n g src dst initial used found ->
     x ∈ intermediates p -> x <> src /\ x <> dst /\ x ∉ initial).
Proof.
  induction n as [|n IH]; intros used found Hpair Hfound; simpl.
  - split; [assumption|]. intros p x Hp Hx. now destruct (Hfound p x Hp Hx).
  - destruct (findShortestPath g src dst (Some (excludeSetFor src dst initial used)))
      as [path|] eqn:Hpath.
    + destruct (findShortestPath_shape _ _ _ _ _ Hpath) as [_ Hshape].
      assert (Hnew : forall x, x ∈ intermediates path ->
                (x ∉ used) /\ x <> src /\ x <> dst /\ x ∉ initial).
      { intros x Hx. destruct (Hshape x Hx) as (Hex & Hxs & Hxd).
        simpl in Hex. apply bool_decide_eq_false in Hex.
        unfold excludeSetFor in Hex. rewrite elem_of_union, elem_of_filter in Hex.
        repeat split; try assumption; intros ?; apply Hex; tauto. }
      apply IH.
      * intros i j p q Hij Hi Hj x Hxp Hxq.
        destruct (decide (j < length found)%nat) as [Hlt|Hge].
        -- rewrite lookup_app_l in Hi, Hj by lia.
           exact (Hpair i j p q Hij Hi Hj x Hxp Hxq).
        -- rewrite lookup_app_r in Hj by lia.
           destruct (j - length found)%nat as [|k] eqn:Ek; [|discriminate].
           injection Hj as <-.
           rewrite lookup_app_l in Hi by lia.
           apply list_elem_of_lookup_2 in Hi.
           destruct (Hfound p x Hi Hxp) as (Hused & _).
           destruct (Hnew x Hxq) as (Hnot & _). contradiction.
      * intros p x Hp Hx. apply elem_of_app in Hp as [Hp|Hp].
        -- destruct (Hfound p x Hp Hx) as (? & ? & ? & ?).
           repeat split; try assumption. set_solver.
        -- apply list_elem_of_singleton in Hp. subst p.
           destruct (Hnew x Hx) as (? & ? & ? & ?).
           repeat split; try assumption.
           apply elem_of_union. right. now apply elem_of_list_to_set.
    + split; [assumption|]. intros p x Hp Hx. now destruct (Hfound p x Hp Hx).
Qed.

(** What the loop of findKShortestPaths does guarantee, whatever the node
    ids: the returned node sequences have pairwise disjoint intermediate
    positions (path[1 .. length-2], the positions the source itself calls
    intermediate), and no intermediate position holds src, dst or a node
    of excludeNodes. *)
Lemma kShortestPaths_disjoint (g : Graph) (src dst k : Z)
  (excludeNodes : option (list Z)) :
  let found := map p_nodeIds (findKShortestPaths g src dst k excludeNodes) in
  (forall (i j : nat) p q,
     i <> j -> found !! i = Some p -> found !! j = Some q ->
     forall x, x ∈ intermediates p -> x ∉ intermediates q) /\
  (forall p x, p ∈ found -> x ∈ intermediates p ->
     x <> src /\ x <> dst /\ forall l, excludeNodes = Some l -> x ∉ l).
Proof.
  unfold findKShortestPaths.
  destruct (negb (JsMap.has src (nodes g)) || negb (JsMap.has dst (nodes g))).
  { simpl. split; [intros i j p q _ Hi; now rewrite lookup_nil in Hi|].
    intros p x Hp. now apply elem_of_nil in Hp. }
  destruct (k <=? 0)%Z.
  { simpl. split; [intros i j p q _ Hi; now rewrite lookup_nil in Hi|].
    intros p x Hp. now apply elem_of_nil in Hp. }
  rewrite nodeIds_toPath.
  set (initial := match excludeNodes with
                  | Some l => list_to_set l
                  | None => ∅
                  end : gset Z).
  destruct (disjointLoop_spec g src dst initial (Z.to_nat k) ∅ []) as [Hpair Hexcl].
  - intros i j p q _ Hi. now rewrite lookup_nil in Hi.
  - intros p x Hp. now apply elem_of_nil in Hp.
  - cbv zeta. split.
    + intros i j p q Hij Hi Hj x Hxp Hxq.
      destruct (decide (i < j)%nat).
      * exact (Hpair i j p q ltac:(assumption) Hi Hj x Hxp Hxq).
      * exact (Hpair j i q p ltac:(lia) Hj Hi x Hxq Hxp).
    + intros p x Hp Hx. destruct (Hexcl p x Hp Hx) as (? & ? & Hinit).
      repeat split; try assumption.
      intros l -> Hl. apply Hinit. unfold initial. now apply elem_of_list_to_set.
Qed.

Definition plainNode (nodeId : Z) (t : Tier) : Node :=
  mkNode nodeId t "n" None None None None "high" None.

Definition plainLink (a b : Z) (delay : Q) : Link :=
  mkLink a b 100 delay 1 (1 # 1000) None None.

Definition graphOf (topologyData : TopologyData) : Graph :=
  match loadTopology topologyData with
  | inr (g, _) => g
  | inl _ => emptyGraph
  end.

(** An edge node with id 0 linked to a cloud node with id 1. *)
Definition zeroIdTopology : TopologyData :=
  mkTopologyData (Some [plainNode 0 edge; plainNode 1 cloud])
    (Some [plainLink 0 1 5]).

(** C10: with src = 0 the walk back from dst reads previous.get(1) = 0 as
    "no predecessor" and stops: the returned sequence is [1], whose first
    element is not src. *)
Theorem findShortestPath_loses_node_zero :
  JsMap.has 0%Z (nodes (graphOf zeroIdTopology)) = true /\
  JsMap.has 1%Z (nodes (graphOf zeroIdTopology)) = true /\
  findShortestPath (graphOf zeroIdTopology) 0 1 None = Some [1%Z].
Proof. vm_compute. repeat split; reflexivity. Qed.

(** An edge node with id 0 whose only link leads to node 1, from which
    two branches, over 2 and over 3, reach the cloud node 4. *)
Definition forkTopology : TopologyData :=
  mkTopologyData
    (Some [plainNode 0 edge; plainNode 1 core; plainNode 2 core;
           plainNode 3 core; plainNode 4 cloud])
    (Some [plainLink 0 1 1; plainLink 1 2 1; plainLink 1 3 2; plainLink 2 4 1;
           plainLink 3 4 2]).

(** C8: with src = 0 both walks back from dst stop at node 1, so the
    returned sequences are [1,2,4] and [1,3,4]. Their first position holds
    the hop 1, which the loop takes for the source and never excludes: the
    two paths share node 1, which is neither src = 0 nor dst = 4. *)
Theorem kShortestPaths_share_hop :
  let found :=
    map p_nodeIds (findKShortestPaths (graphOf forkTopology) 0 4 2 None) in
  JsMap.has 0%Z (nodes (graphOf forkTopology)) = true /\
  JsMap.has 4%Z (nodes (graphOf forkTopology)) = true /\
  found = [[1; 2; 4]; [1; 3; 4]]%Z /\
  exists p q x,
    found !! 0%nat = Some p /\ found !! 1%nat = Some q /\
    x ∈ p /\ x ∈ q /\ x <> 0%Z /\ x <> 4%Z.
Proof.
  assert (E : map p_nodeIds (findKShortestPaths (graphOf forkTopology) 0 4 2 None)
              = [[1; 2; 4]; [1; 3; 4]]%Z) by (vm_compute; reflexivity).
  cbv zeta. rewrite E.
  split; [vm_compute; reflexivity|]. split; [vm_compute; reflexivity|].
  split; [reflexivity|].
  exists [1; 2; 4]%Z, [1; 3; 4]%Z, 1%Z.
  repeat split; try reflexivity; try lia; left.
Qed.

End GraphEngine.

(** * Further properties of GraphEngine *)

Module GraphEngineFacts.
Import GraphEngine.
Local Open Scope Q_scope.

(** Scenario 3 of the specification as a topology: edge node 1, core
    nodes 9 and 10, cloud nodes 19, 20 and 21. *)
Definition scenarioTopology : TopologyData :=
  mkTopologyData
    (Some [plainNode 1 edge; plainNode 9 core; plainNode 10 core;
           plainNode 19 cloud; plainNode 20 cloud; plainNode 21 cloud])
    (Some [plainLink 1 9 5; plainLink 1 10 7; plainLink 9 19 5;
           plainLink 9 20 6; plainLink 10 21 5; plainLink 10 19 9]).

Definition scenarioGraph : Graph := graphOf scenarioTopology.

(** Both loops of findShortestPath end: the search loop within
    2 + (number of adjacency entries) iterations and the walk back within
    |visited| + 1 steps, so that allowing more iterations never changes
    the result. *)
Theorem findShortestPath_loops_end (g : Graph) (src dst : Z)
  (excl : option (gset Z)) (extra : nat) :
  findShortestPathWith (searchFuel g) g src dst excl <> OutOfFuel /\
  findShortestPathWith (searchFuel g + extra) g src dst excl
  = findShortestPathWith (searchFuel g) g src dst excl.
Proof.
  split; [apply findShortestPathWith_fuel | apply findShortestPathWith_more_fuel].
Qed.

(** Whatever the node ids, a sequence returned by findShortestPath ends at
    dst, and the nodes strictly between its first and last position are
    neither excluded nodes nor src nor dst. *)
Theorem findShortestPath_honours_exclusion (g : Graph) (src dst : Z)
  (excl : option (gset Z)) (path : list Z) :
  findShortestPath g src dst excl = Some path ->
  last path = Some dst /\
  forall x, x ∈ intermediates path ->
    isExcluded excl x = false /\ x <> src /\ x <> dst.
Proof. apply findShortestPath_shape. Qed.

Lemma findShortestPath_honours_exclusion_witness :
  last [1; 10; 19]%Z = Some 19%Z /\
  forall x, x ∈ intermediates [1; 10; 19]%Z ->
    isExcluded (Some {[9%Z]}) x = false /\ x <> 1%Z /\ x <> 19%Z.
Proof.
  apply (findShortestPath_honours_exclusion scenarioGraph 1 19 (Some {[9%Z]})).
  vm_compute. reflexivity.
Defined.

(** A node of the topology reaches itself by the one-node path, also when
    it is listed in excludeNodes. *)
Theorem findShortestPath_self (g : Graph) (n : Z) (excl : option (gset Z)) :
  JsMap.has n (nodes g) = true -> findShortestPath g n n excl = Some [n].
Proof.
  intros Hn. unfold findShortestPath, findShortestPathWith. rewrite Hn.
  cbn [negb]. unfold searchFuel.
  cbn [searchLoop initSearch priorityQueue js_sort fold_right sort_insert visited
       distances previous].
  rewrite bool_decide_eq_false_2 by apply not_elem_of_empty.
  rewrite Z.eqb_refl. cbn [distances visited previous].
  rewrite lookup_insert_eq. cbn [reconstruct].
  now rewrite lookup_empty.
Qed.

Lemma findShortestPath_self_witness :
  findShortestPath scenarioGraph 9 9 (Some {[9%Z]}) = Some [9%Z].
Proof. apply findShortestPath_self. vm_compute. reflexivity. Defined.

Lemma disjointLoop_length g src dst initial n : forall used found,
  (length (disjointLoop n g src dst initial used found) <= length found + n)%nat.
Proof.
  induction n as [|n IH]; intros used found; simpl; [lia|].
  destruct (findShortestPath g src dst _) as [path|]; [|lia].
  etransitivity; [apply IH|]. rewrite length_app. simpl. lia.
Qed.

Lemma disjointLoop_last g src dst initial n : forall used found,
  (forall p, p ∈ found -> last p = Some dst) ->
  forall p, p ∈ disjointLoop n g src dst initial used found -> last p = Some dst.
Proof.
  induction n as [|n IH]; intros used found Hfound; simpl; [assumption|].
  destruct (findShortestPath g src dst _) as [path|] eqn:E; [|assumption].
  apply IH. intros p Hp. apply elem_of_app in Hp as [Hp|Hp]; [auto|].
  apply list_elem_of_singleton in Hp. subst.
  now apply (findShortestPath_shape _ _ _ _ _ E).
Qed.

Lemma disjointLoop_head g src dst initial n : forall used found,
  head (disjointLoop n g src dst initial used found)
  = match found with
    | p :: _ => Some p
    | [] =>
        match n with
        | O => None
        | S _ => findShortestPath g src dst (Some (excludeSetFor src dst initial used))
        end
    end.
Proof.
  induction n as [|n IH]; intros used found; simpl.
  - now destruct found.
  - destruct (findShortestPath g src dst _) as [path|] eqn:E.
    + rewrite IH. destruct found; [reflexivity|reflexivity].
    + now destruct found.
Qed.

(** findKShortestPaths returns at most k paths, none for k <= 0; each
    returned sequence ends at dst and carries the latency, capacity and
    score computed for it; the first one is the shortest path under the
    caller's exclusion list alone. *)
Theorem findKShortestPaths_at_most_k (g : Graph) (src dst k : Z)
  (excludeNodes : option (list Z)) :
  (Z.of_nat (length (findKShortestPaths g src dst k excludeNodes)) <= Z.max 0 k)%Z /\
  (forall p, p ∈ findKShortestPaths g src dst k excludeNodes ->
     last (p_nodeIds p) = Some dst /\ p = toPath g (p_nodeIds p)) /\
  (forall p, head (findKShortestPaths g src dst k excludeNodes) = Some p ->
     findShortestPath g src dst
       (Some (match excludeNodes with Some l => list_to_set l | None => ∅ end))
     = Some (p_nodeIds p)).
Proof.
  unfold findKShortestPaths.
  destruct (negb (JsMap.has src (nodes g)) || negb (JsMap.has dst (nodes g))).
  { simpl. split; [lia|]. split; [intros p Hp; now apply elem_of_nil in Hp|].
    discriminate. }
  destruct (Z.leb_spec k 0) as [Hk|Hk].
  { simpl. split; [lia|]. split; [intros p Hp; now apply elem_of_nil in Hp|].
    discriminate. }
  set (initial := match excludeNodes with
                  | Some l => list_to_set l
                  | None => ∅
                  end : gset Z).
  split; [|split].
  - rewrite length_map.
    pose proof (disjointLoop_length g src dst initial (Z.to_nat k) ∅ []).
    simpl in *. lia.
  - intros p Hp. apply list_elem_of_fmap in Hp as (nodesOfP & -> & Hin).
    split; [|reflexivity]. simpl.
    eapply disjointLoop_last; [|exact Hin].
    intros q Hq. now apply elem_of_nil in Hq.
  - intros p Hp.
    pose proof (disjointLoop_head g src dst initial (Z.to_nat k) ∅ []) as Hhead.
    destruct (Z.to_nat k) as [|n] eqn:En; [lia|].
    assert (Hfilter : excludeSetFor src dst initial ∅ = initial).
    { unfold excludeSetFor. apply set_eq. intros x.
      rewrite elem_of_union, elem_of_filter. set_solver. }
    rewrite Hfilter in Hhead.
    destruct (disjointLoop (S n) g src dst initial ∅ []) as [|q rest];
      [discriminate|].
    simpl in Hp, Hhead. injection Hp as <-. symmetry. exact Hhead.
Qed.

(** ** The adjacency list that buildGraph materialises *)

Definition entriesOf (adj : list (Z * list AdjacencyEntry)) (a : Z)
  : list AdjacencyEntry :=
  default [] (JsMap.get a adj).

Definition connects (l : Link) (a b : Z) : Prop :=
  (u l = a /\ v l = b) \/ (v l = a /\ u l = b).

Lemma pushEntry_is_Some a e adj k :
  is_Some (JsMap.get k (pushEntry a e adj)) <-> is_Some (JsMap.get k adj).
Proof.
  unfold pushEntry. destruct (JsMap.get a adj) as [es|] eqn:E; [|reflexivity].
  rewrite JsMap.get_set. destruct (Z.eqb_spec k a) as [->|]; [|reflexivity].
  rewrite E. split; intros _; eexists; reflexivity.
Qed.

Lemma pushEntry_entries a e adj k e' :
  is_Some (JsMap.get a adj) ->
  e' ∈ entriesOf (pushEntry a e adj) k <->
  e' ∈ entriesOf adj k \/ (k = a /\ e' = e).
Proof.
  intros [es E]. unfold entriesOf, pushEntry. rewrite E, JsMap.get_set.
  destruct (Z.eqb_spec k a) as [->|Hne].
  - rewrite E. simpl. rewrite elem_of_app, list_elem_of_singleton. tauto.
  - split; [auto|]. intros [?|[? _]]; [assumption | contradiction].
Qed.

Lemma init_adjacency_get ks : forall (acc : list (Z * list AdjacencyEntry)) a,
  JsMap.get a (fold_left (fun adj nodeId => JsMap.set nodeId [] adj) ks acc)
  = if bool_decide (a ∈ ks) then Some [] else JsMap.get a acc.
Proof.
  induction ks as [|k ks IH]; intros acc a; simpl; [reflexivity|].
  rewrite IH, JsMap.get_set. destruct (Z.eqb_spec a k) as [->|Hne].
  - rewrite (bool_decide_eq_true_2 (k ∈ k :: ks)) by left. now case_bool_decide.
  - case_bool_decide as H1; case_bool_decide as H2; try reflexivity.
    + exfalso. apply H2. now right.
    + exfalso. apply elem_of_cons in H2 as [?|?]; [congruence | contradiction].
Qed.

Record AdjInv (nodeMap : list (Z * Node)) (done : list Link)
  (adj : list (Z * list AdjacencyEntry)) : Prop := mkAdjInv {
  adj_keys : forall a, is_Some (JsMap.get a adj) <-> a ∈ JsMap.keys nodeMap;
  adj_entry : forall a e, e ∈ entriesOf adj a ->
    a ∈ JsMap.keys nodeMap /\ neighbor e ∈ JsMap.keys nodeMap /\
    exists l, done !! link e = Some l /\ connects l a (neighbor e);
  adj_sym : forall a e, e ∈ entriesOf adj a ->
    mkEntry a (link e) ∈ entriesOf adj (neighbor e)
}.

Lemma has_true_keys {V : Type} k (m : list (Z * V)) :
  JsMap.has k m = true <-> k ∈ JsMap.keys m.
Proof.
  split; [apply has_keys|]. intros Hk. unfold JsMap.has.
  destruct (JsMap.get k m) eqn:E; [reflexivity|].
  apply JsMap.get_None_keys in E. contradiction.
Qed.

Lemma addLink_inv nodeMap done adj l :
  AdjInv nodeMap done adj ->
  AdjInv nodeMap (done ++ [l]) (addLink nodeMap (length done, adj) l).2 /\
  (addLink nodeMap (length done, adj) l).1 = length (done ++ [l]).
Proof.
  intros [Hkeys Hentry Hsym]. unfold addLink. rewrite length_app. simpl.
  assert (Hold : AdjInv nodeMap (done ++ [l]) adj).
  { constructor; [assumption| |assumption].
    intros a e He. destruct (Hentry a e He) as (? & ? & l0 & Hl0 & ?).
    repeat split; try assumption. exists l0. split; [|assumption].
    now apply lookup_app_l_Some. }
  destruct (JsMap.has (u l) nodeMap) eqn:Hu; simpl; [|split; [assumption | lia]].
  destruct (JsMap.has (v l) nodeMap) eqn:Hv; simpl; [|split; [assumption | lia]].
  split; [|lia].
  apply has_true_keys in Hu, Hv.
  assert (Hu' : is_Some (JsMap.get (u l) adj)) by now apply Hkeys.
  assert (Hv' : is_Some (JsMap.get (v l)
                           (pushEntry (u l) (mkEntry (v l) (length done)) adj)))
    by now apply pushEntry_is_Some, Hkeys.
  assert (Hmem : forall k e',
             e' ∈ entriesOf (pushEntry (v l) (mkEntry (u l) (length done))
                               (pushEntry (u l) (mkEntry (v l) (length done)) adj)) k
             <-> e' ∈ entriesOf adj k
                 \/ (k = u l /\ e' = mkEntry (v l) (length done))
                 \/ (k = v l /\ e' = mkEntry (u l) (length done))).
  { intros k e'. rewrite pushEntry_entries by assumption.
    rewrite pushEntry_entries by assumption. tauto. }
  assert (Hnew : (done ++ [l]) !! length done = Some l).
  { rewrite lookup_app_r by lia. now rewrite Nat.sub_diag. }
  destruct Hold as [_ Hentry' _].
  constructor.
  - intros a. rewrite !pushEntry_is_Some. apply Hkeys.
  - intros a e He. apply Hmem in He as [He|[[-> ->]|[-> ->]]]; [auto|..]; simpl;
      (repeat split; try assumption); exists l; (split; [assumption|]);
      unfold connects; tauto.
  - intros a e He. apply Hmem. apply Hmem in He as [He|[[-> ->]|[-> ->]]]; simpl.
    + left. now apply Hsym.
    + right. right. auto.
    + right. left. auto.
Qed.

Lemma addLinks_inv nodeMap rest : forall done adj,
  AdjInv nodeMap done adj ->
  AdjInv nodeMap (done ++ rest)
    (fold_left (addLink nodeMap) rest (length done, adj)).2.
Proof.
  induction rest as [|l rest IH]; intros done adj HI; cbn [fold_left].
  - now rewrite app_nil_r.
  - destruct (addLink_inv nodeMap done adj l HI) as [HI' Hlen].
    destruct (addLink nodeMap (length done, adj) l) as [i adj'] eqn:E.
    cbn [fst snd] in HI', Hlen. subst i.
    replace (done ++ l :: rest) with ((done ++ [l]) ++ rest)
      by now rewrite <- app_assoc.
    now apply IH.
Qed.

Lemma buildAdjacency_inv nodeMap ls :
  AdjInv nodeMap ls (buildAdjacency nodeMap ls).
Proof.
  unfold buildAdjacency.
  apply (addLinks_inv nodeMap ls []). constructor.
  - intros a. rewrite init_adjacency_get. case_bool_decide as H.
    + split; [auto | intros _; eexists; reflexivity].
    + split; [intros [x Hx]; discriminate | contradiction].
  - intros a e He. unfold entriesOf in He. rewrite init_adjacency_get in He.
    case_bool_decide; simpl in He; now apply elem_of_nil in He.
  - intros a e He. unfold entriesOf in He. rewrite init_adjacency_get in He.
    case_bool_decide; simpl in He; now apply elem_of_nil in He.
Qed.

Lemma loadTopology_graph topologyData g report :
  loadTopology topologyData = inr (g, report) ->
  exists ns ls,
    t_nodes topologyData = Some ns /\ t_links topologyData = Some ls /\
    nodes g = fold_left (fun m n => JsMap.set (id n) (resetNode n) m) ns [] /\
    links g = map resetLink ls /\
    adjacencyList g = buildAdjacency (nodes g) (links g).
Proof.
  unfold loadTopology, buildGraph.
  destruct (t_nodes topologyData) as [ns|]; [|discriminate].
  destruct (t_links topologyData) as [ls|]; [|discriminate].
  intros [= <- _]. exists ns, ls. repeat split.
Qed.

(** In a loaded topology every adjacency entry of node a leads to a node
    of the topology over a link of [links] that joins the two, and the
    neighbour holds the mirror entry with the same link object. *)
Theorem loaded_adjacency_is_symmetric (topologyData : TopologyData) (g : Graph)
  (report : ConnectivityReport) (a : Z) (e : AdjacencyEntry) :
  loadTopology topologyData = inr (g, report) ->
  e ∈ getNeighbors g a ->
  a ∈ JsMap.keys (nodes g) /\ neighbor e ∈ JsMap.keys (nodes g) /\
  (exists l, linkAt g (link e) = Some l /\ connects l a (neighbor e)) /\
  mkEntry a (link e) ∈ getNeighbors g (neighbor e).
Proof.
  intros Hload He.
  destruct (loadTopology_graph _ _ _ Hload) as (ns & ls & _ & _ & _ & _ & Hadj).
  pose proof (buildAdjacency_inv (nodes g) (links g)) as [Hkeys Hentry Hsym].
  unfold getNeighbors in *. rewrite Hadj in *.
  destruct (Hentry a e He) as (Ha & Hn & Hl).
  repeat split; try assumption. now apply Hsym.
Qed.

Lemma loaded_adjacency_is_symmetric_witness :
  9%Z ∈ JsMap.keys (nodes scenarioGraph) /\
  19%Z ∈ JsMap.keys (nodes scenarioGraph) /\
  (exists l, linkAt scenarioGraph 2 = Some l /\ connects l 9 19) /\
  mkEntry 9 2 ∈ getNeighbors scenarioGraph 19.
Proof.
  assert (Hload : exists r, loadTopology scenarioTopology = inr (scenarioGraph, r))
    by (eexists; vm_compute; reflexivity).
  destruct Hload as [r Hload].
  apply (loaded_adjacency_is_symmetric scenarioTopology scenarioGraph r 9
           (mkEntry 19 2) Hload).
  vm_compute. apply list_elem_of_further, list_elem_of_here.
Defined.

(** On a loaded topology in which 0 names no node, every sequence that
    findShortestPath returns starts at src and ends at dst. *)
Theorem loaded_path_runs_src_to_dst (topologyData : TopologyData) (g : Graph)
  (report : ConnectivityReport) (src dst : Z) (excl : option (gset Z))
  (path : list Z) :
  loadTopology topologyData = inr (g, report) ->
  0%Z ∉ JsMap.keys (nodes g) ->
  findShortestPath g src dst excl = Some path ->
  head path = Some src /\ last path = Some dst.
Proof.
  intros Hload Hzero Hpath.
  destruct (findShortestPath_Some _ _ _ _ _ Hpath) as (_ & _ & _ & _ & Hsrc & _).
  apply (findShortestPath_endpoints g src dst excl path); [| |assumption].
  - intros ->. apply Hzero. now apply has_keys.
  - intros c e He E.
    destruct (loadTopology_graph _ _ _ Hload) as (ns & ls & _ & _ & _ & _ & Hadj).
    pose proof (buildAdjacency_inv (nodes g) (links g)) as [_ Hentry _].
    unfold getNeighbors in He. rewrite Hadj in He.
    destruct (Hentry c e He) as (_ & Hn & _). rewrite E in Hn. contradiction.
Qed.

Lemma loaded_path_runs_src_to_dst_witness :
  head [1; 10; 19]%Z = Some 1%Z /\ last [1; 10; 19]%Z = Some 19%Z.
Proof.
  assert (Hload : exists r, loadTopology scenarioTopology = inr (scenarioGraph, r))
    by (eexists; vm_compute; reflexivity).
  destruct Hload as [r Hload].
  apply (loaded_path_runs_src_to_dst scenarioTopology scenarioGraph r 1 19
           (Some {[9%Z]}) [1; 10; 19]%Z Hload).
  - by_compute.
  - vm_compute. reflexivity.
Defined.

(** ** What loadTopology stores *)

Lemma loaded_nodes_get ns : forall (acc : list (Z * Node)) k n,
  JsMap.get k (fold_left (fun m n => JsMap.set (id n) (resetNode n) m) ns acc)
  = Some n ->
  JsMap.get k acc = Some n \/ exists n0, n0 ∈ ns /\ id n0 = k /\ n = resetNode n0.
Proof.
  induction ns as [|a ns IH]; intros acc k n; simpl; [auto|].
  intros H. destruct (IH _ _ _ H) as [Hacc|(n0 & Hin & Hid & Hn)].
  - rewrite JsMap.get_set in Hacc. destruct (Z.eqb_spec k (id a)) as [->|Hne].
    + injection Hacc as <-. right. exists a. repeat split. left.
    + now left.
  - right. exists n0. repeat split; try assumption. now right.
Qed.

Lemma loaded_nodes_keys ns : forall (acc : list (Z * Node)) k,
  k ∈ JsMap.keys (fold_left (fun m n => JsMap.set (id n) (resetNode n) m) ns acc)
  <-> k ∈ JsMap.keys acc \/ exists n0, n0 ∈ ns /\ id n0 = k.
Proof.
  induction ns as [|a ns IH]; intros acc k; simpl.
  - split; [auto|]. intros [?|(n0 & Hin & _)]; [assumption|].
    now apply elem_of_nil in Hin.
  - rewrite IH, JsMap.keys_set_in. split.
    + intros [[->|?]|(n0 & Hin & Hid)]; [right|now left|right].
      * exists a. split; [left | reflexivity].
      * exists n0. split; [now right | assumption].
    + intros [?|(n0 & Hin & Hid)]; [left; now right|].
      apply elem_of_cons in Hin as [->|Hin]; [left; now left|].
      right. now exists n0.
Qed.

Lemma loaded_nodes_NoDup ns : forall acc : list (Z * Node),
  NoDup (JsMap.keys acc) ->
  NoDup (JsMap.keys (fold_left (fun m n => JsMap.set (id n) (resetNode n) m) ns acc)).
Proof.
  induction ns as [|a ns IH]; intros acc Hacc; simpl; [assumption|].
  apply IH. now apply JsMap.keys_set_NoDup.
Qed.

(** A loaded topology stores every node under its own id, with distinct
    ids covering exactly the ids of the descriptor; every node and link
    utilisation starts at 0; the links keep the descriptor's order,
    endpoints and delays. *)
Theorem loadTopology_stores (topologyData : TopologyData) (g : Graph)
  (report : ConnectivityReport) :
  loadTopology topologyData = inr (g, report) ->
  NoDup (JsMap.keys (nodes g)) /\
  (forall k n, JsMap.get k (nodes g) = Some n ->
     id n = k /\ current_utilization n = Some 0) /\
  (forall k, k ∈ JsMap.keys (nodes g) <->
     exists n0, n0 ∈ default [] (t_nodes topologyData) /\ id n0 = k) /\
  Forall (fun l => l_current_utilization l = Some 0) (links g) /\
  map (fun l => (u l, v l, delay_ms l)) (links g)
  = map (fun l => (u l, v l, delay_ms l)) (default [] (t_links topologyData)).
Proof.
  intros Hload.
  destruct (loadTopology_graph _ _ _ Hload) as (ns & ls & Hns & Hls & Hnodes & Hlinks & _).
  rewrite Hns, Hls, Hnodes, Hlinks. simpl. repeat split.
  - apply loaded_nodes_NoDup. apply NoDup_nil_2.
  - destruct (loaded_nodes_get ns [] k n H) as [Hk|(n0 & _ & Hid & ->)];
      [discriminate | exact Hid].
  - destruct (loaded_nodes_get ns [] k n H) as [Hk|(n0 & _ & Hid & ->)];
      [discriminate | reflexivity].
  - intros Hk. apply loaded_nodes_keys in Hk as [Hk|Hk]; [|assumption].
    now apply elem_of_nil in Hk.
  - intros Hk. apply loaded_nodes_keys. now right.
  - apply Forall_forall. intros l Hl.
    apply list_elem_of_fmap in Hl as (l0 & -> & _). reflexivity.
  - rewrite map_map. reflexivity.
Qed.

Lemma loadTopology_stores_witness :
  NoDup (JsMap.keys (nodes scenarioGraph)) /\
  Forall (fun l => l_current_utilization l = Some 0) (links scenarioGraph).
Proof.
  assert (Hload : exists r, loadTopology scenarioTopology = inr (scenarioGraph, r))
    by (eexists; vm_compute; reflexivity).
  destruct Hload as [r Hload].
  destruct (loadTopology_stores scenarioTopology scenarioGraph r Hload)
    as (Hnd & _ & _ & Hlinks & _).
  split; assumption.
Defined.

(** ** Tier validity *)

Definition nodeTier (g : Graph) (nodeId : Z) : option Tier :=
  tier <$> JsMap.get nodeId (nodes g).

Definition tierLe (a b : Tier) : Prop := (tierOrder a <= tierOrder b)%Z.

Lemma tierScan_iff g path : forall lvl,
  tierScan g lvl path = true <->
  exists ts,
    Forall2 (fun nodeId t => nodeTier g nodeId = Some t) path ts /\
    Forall (fun t => (lvl <= tierOrder t)%Z) ts /\
    StronglySorted tierLe ts.
Proof.
  induction path as [|a path IH]; intros lvl; simpl.
  - split; [|reflexivity]. intros _. exists []. repeat constructor.
  - unfold nodeTier at 1. destruct (JsMap.get a (nodes g)) as [node|] eqn:Ea.
    + destruct (Z.ltb_spec (tierOrder (tier node)) lvl) as [Hlt|Hge].
      * split; [discriminate|]. intros (ts & H2 & Hall & _).
        apply Forall2_cons_inv_l in H2 as (t & ts' & Ht & _ & ->).
        unfold nodeTier in Ht. rewrite Ea in Ht. injection Ht as <-.
        apply Forall_cons in Hall as [Hall _]. lia.
      * rewrite IH. split.
        -- intros (ts & H2 & Hall & Hsorted). exists (tier node :: ts).
           split; [|split].
           ++ constructor; [|assumption]. unfold nodeTier. now rewrite Ea.
           ++ constructor; [assumption|].
              eapply Forall_impl; [exact Hall|]. intros t Ht. simpl in Ht. lia.
           ++ constructor; [assumption|]. exact Hall.
        -- intros (ts & H2 & Hall & Hsorted).
           apply Forall2_cons_inv_l in H2 as (t & ts' & Ht & H2 & ->).
           unfold nodeTier in Ht. rewrite Ea in Ht. injection Ht as <-.
           exists ts'. split; [assumption|].
           apply StronglySorted_inv in Hsorted as [Hs Hhd].
           split; [|assumption].
           apply Forall_forall. intros t Ht.
           rewrite List.Forall_forall in Hhd. apply Hhd. now apply list_elem_of_In.
    + split; [discriminate|]. intros (ts & H2 & _).
      apply Forall2_cons_inv_l in H2 as (t & ts' & Ht & _ & _).
      unfold nodeTier in Ht. rewrite Ea in Ht. discriminate.
Qed.

Lemma Forall2_head {A B : Type} (R : A -> B -> Prop) l k :
  Forall2 R l k ->
  match head l, head k with
  | Some a, Some b => R a b
  | None, None => True
  | _, _ => False
  end.
Proof. destruct 1; simpl; auto. Qed.

Lemma Forall2_last {A B : Type} (R : A -> B -> Prop) l k :
  Forall2 R l k ->
  match last l, last k with
  | Some a, Some b => R a b
  | None, None => True
  | _, _ => False
  end.
Proof.
  induction 1 as [|a b l k Hab H IH]; simpl; [exact I|].
  destruct H; simpl in *; [assumption|]. exact IH.
Qed.

Lemma tierOrder_pos t : (0 <= tierOrder t)%Z.
Proof. destruct t; simpl; lia. Qed.

(** isValidPath accepts exactly the sequences of at least two nodes that
    all exist in the topology, whose tiers never decrease along the path
    under edge < core < cloud, that start on an edge node and end on a
    cloud node. *)
Theorem isValidPath_iff (g : Graph) (path : list Z) :
  isValidPath g path = true <->
  (2 <= length path)%nat /\
  exists ts,
    Forall2 (fun nodeId t => nodeTier g nodeId = Some t) path ts /\
    StronglySorted tierLe ts /\
    head ts = Some edge /\ last ts = Some cloud.
Proof.
  unfold isValidPath.
  destruct (Nat.ltb_spec (length path) 2) as [Hlen|Hlen].
  { split; [discriminate|]. intros [? _]. lia. }
  destruct (tierScan g 0 path) eqn:Escan; simpl.
  - apply tierScan_iff in Escan as (ts & H2 & _ & Hsorted).
    pose proof (Forall2_head _ _ _ H2) as Hhead.
    pose proof (Forall2_last _ _ _ H2) as Hlast.
    destruct (head path) as [first|] eqn:Eh;
      [|destruct path; [simpl in Hlen; lia | discriminate]].
    destruct (last path) as [final|] eqn:El;
      [|destruct (head ts); [|contradiction];
        apply last_None in El; subst; simpl in Hlen; lia].
    destruct (head ts) as [t1|] eqn:Eh'; [|contradiction].
    destruct (last ts) as [t2|] eqn:El'; [|contradiction].
    unfold nodeTier in Hhead, Hlast.
    destruct (JsMap.get first (nodes g)) as [firstNode|]; [|discriminate].
    destruct (JsMap.get final (nodes g)) as [lastNode|]; [|discriminate].
    simpl in Hhead, Hlast. injection Hhead as ->. injection Hlast as ->.
    split.
    + intros H. apply andb_true_iff in H as [H1 H2'].
      split; [assumption|]. exists ts.
      repeat split; try assumption.
      * rewrite Eh'. f_equal. now destruct t1.
      * rewrite El'. f_equal. now destruct t2.
    + intros (_ & ts' & H2' & _ & Hh & Hl).
      assert (ts' = ts) as ->.
      { clear -H2 H2'. revert ts' H2'.
        induction H2 as [|a t l k Ht H IH]; intros ts' H2'.
        - now apply Forall2_nil_inv_l in H2'.
        - apply Forall2_cons_inv_l in H2' as (t' & k' & Ht' & H2' & ->).
          f_equal; [congruence | now apply IH]. }
      rewrite Eh' in Hh. rewrite El' in Hl.
      injection Hh as ->. injection Hl as ->. reflexivity.
  - split; [discriminate|]. intros (_ & ts & H2 & Hsorted & _).
    assert (tierScan g 0 path = true); [|congruence].
    apply tierScan_iff. exists ts. repeat split; try assumption.
    apply Forall_forall. intros t _. apply tierOrder_pos.
Qed.

(** ** Fault knobs *)

Lemma touches_setDelay nodeId l d b :
  touches nodeId (setDelay l d b) = touches nodeId l.
Proof. reflexivity. Qed.

(** With no fault outstanding (no link carries a base_delay_ms snapshot),
    injecting a latency fault on a node and removing it restores every
    link's delay_ms exactly, and leaves nodes, adjacency, endpoints and
    bandwidths untouched. *)
Theorem fault_round_trip (nodeId : Z) (additionalLatencyMs : Q) (g : Graph) :
  Forall (fun l => base_delay_ms l = None) (links g) ->
  map (fun l => (u l, v l, l_bw_mbps l, delay_ms l))
    (links (removeNodeLatencyFault nodeId
              (injectNodeLatencyFault nodeId additionalLatencyMs g)))
  = map (fun l => (u l, v l, l_bw_mbps l, delay_ms l)) (links g) /\
  nodes (removeNodeLatencyFault nodeId
           (injectNodeLatencyFault nodeId additionalLatencyMs g)) = nodes g /\
  adjacencyList (removeNodeLatencyFault nodeId
                   (injectNodeLatencyFault nodeId additionalLatencyMs g))
  = adjacencyList g.
Proof.
  intros Hbase. repeat split. simpl. rewrite !map_map.
  apply map_ext_in. intros l Hl. apply list_elem_of_In in Hl.
  rewrite Forall_forall in Hbase. specialize (Hbase l Hl).
  destruct (touches nodeId l) eqn:Et.
  - rewrite touches_setDelay, Et. simpl. unfold baseOrDelay. now rewrite Hbase.
  - rewrite Et. reflexivity.
Qed.

Lemma fault_round_trip_witness :
  map (fun l => (u l, v l, l_bw_mbps l, delay_ms l))
    (links (removeNodeLatencyFault 9 (injectNodeLatencyFault 9 100 scenarioGraph)))
  = map (fun l => (u l, v l, l_bw_mbps l, delay_ms l)) (links scenarioGraph).
Proof.
  apply (fault_round_trip 9 100 scenarioGraph). by_compute_forall.
Defined.

(** Faults do not stack on a link: when two faulty nodes share a link of
    non-zero delay, the second injection replaces the first one's extra
    latency, and removing the second node's fault restores the base delay
    although the first node's fault was never removed. *)
Theorem faults_do_not_stack (n1 n2 : Z) (extra1 extra2 : Q) (g : Graph)
  (i : nat) (l : Link) :
  links g !! i = Some l ->
  base_delay_ms l = None -> ~ delay_ms l == 0 ->
  touches n1 l = true -> touches n2 l = true ->
  delay_ms <$> links (injectNodeLatencyFault n1 extra1 g) !! i
    = Some (delay_ms l + extra1) /\
  delay_ms <$> links (injectNodeLatencyFault n2 extra2
                        (injectNodeLatencyFault n1 extra1 g)) !! i
    = Some (delay_ms l + extra2) /\
  delay_ms <$> links (removeNodeLatencyFault n2
                        (injectNodeLatencyFault n2 extra2
                           (injectNodeLatencyFault n1 extra1 g))) !! i
    = Some (delay_ms l).
Proof.
  intros Hl Hbase Hnz H1 H2. simpl.
  change (@map Link Link) with (@fmap list _ Link Link).
  rewrite !list_lookup_fmap, Hl. simpl.
  assert (E0 : Qeq_bool (delay_ms l) 0 = false).
  { destruct (Qeq_bool (delay_ms l) 0) eqn:E; [|reflexivity].
    apply Qeq_bool_iff in E. contradiction. }
  rewrite H1. rewrite !touches_setDelay, H2.
  unfold baseOrDelay. rewrite Hbase. simpl. rewrite E0. simpl.
  rewrite !touches_setDelay, H2. auto.
Qed.

Lemma faults_do_not_stack_witness :
  delay_ms <$> links (removeNodeLatencyFault 19
                        (injectNodeLatencyFault 19 30
                           (injectNodeLatencyFault 9 100 scenarioGraph))) !! 2%nat
    = Some 5.
Proof.
  refine (proj2 (proj2 (faults_do_not_stack 9 19 100 30 scenarioGraph 2
                          (resetLink (plainLink 9 19 5)) _ _ _ _ _))).
  - reflexivity.
  - reflexivity.
  - vm_compute. discriminate.
  - reflexivity.
  - reflexivity.
Defined.

(** ** Path capacity *)

Lemma capacity_fold hops : forall acc,
  (forall c, acc = Fin c ->
     exists c', fold_left (fun minCapacity o =>
                             match o with
                             | Some l => Dist_min minCapacity (availableBw l)
                             | None => minCapacity
                             end) hops acc = Fin c' /\ c' <= c) /\
  (forall l, Some l ∈ hops ->
     exists c', fold_left (fun minCapacity o =>
                             match o with
                             | Some l => Dist_min minCapacity (availableBw l)
                             | None => minCapacity
                             end) hops acc = Fin c' /\ c' <= availableBw l).
Proof.
  induction hops as [|o hops IH]; intros acc; simpl.
  - split.
    + intros c ->. exists c. split; [reflexivity | apply Qle_refl].
    + intros l Hl. now apply elem_of_nil in Hl.
  - split.
    + intros c ->. destruct o as [l|].
      * simpl. destruct (Qle_bool c (availableBw l)) eqn:E.
        -- apply (proj1 (IH (Fin c))). reflexivity.
        -- destruct (proj1 (IH (Fin (availableBw l))) _ eq_refl) as (c' & Hc' & Hle).
           exists c'. split; [assumption|].
           assert (availableBw l <= c); [|lra].
           apply Qlt_le_weak, Qnot_le_lt. intros H.
           apply Qle_bool_iff in H. congruence.
      * apply (proj1 (IH (Fin c))). reflexivity.
    + intros l Hl. apply elem_of_cons in Hl as [<-|Hl].
      * destruct acc as [c|]; simpl.
        -- destruct (Qle_bool c (availableBw l)) eqn:E.
           ++ destruct (proj1 (IH (Fin c)) _ eq_refl) as (c' & Hc' & Hle).
              exists c'. split; [assumption|].
              apply Qle_bool_iff in E. lra.
           ++ apply (proj1 (IH (Fin (availableBw l)))). reflexivity.
        -- apply (proj1 (IH (Fin (availableBw l)))). reflexivity.
      * apply (proj2 (IH _)). assumption.
Qed.

(** The capacity of a path is a bottleneck: it is at most the available
    bandwidth bw * (1 - utilisation) of every link along the path. *)
Theorem estimatePathCapacity_bottleneck (g : Graph) (path : list Z) (l : Link) :
  Some l ∈ hopLinks g path ->
  estimatePathCapacity g path <= availableBw l.
Proof.
  intros Hl. unfold estimatePathCapacity.
  destruct (Nat.ltb_spec (length path) 2) as [Hlen|Hlen].
  { destruct path as [|a [|b path]]; simpl in *; try lia;
      now apply elem_of_nil in Hl. }
  destruct (proj2 (capacity_fold (hopLinks g path) Inf) l Hl) as (c & -> & Hc).
  exact Hc.
Qed.

Lemma estimatePathCapacity_bottleneck_witness :
  estimatePathCapacity scenarioGraph [1; 9; 19]%Z
  <= availableBw (resetLink (plainLink 9 19 5)).
Proof.
  apply estimatePathCapacity_bottleneck.
  vm_compute. apply list_elem_of_further, list_elem_of_here.
Defined.

(** ** Disjoint paths on a loaded topology without node 0 *)

Lemma disjointLoop_from_search g src dst initial n : forall used found,
  (forall p, p ∈ found ->
     exists excl, findShortestPath g src dst (Some excl) = Some p) ->
  forall p, p ∈ disjointLoop n g src dst initial used found ->
    exists excl, findShortestPath g src dst (Some excl) = Some p.
Proof.
  induction n as [|n IH]; intros used found Hfound; simpl; [assumption|].
  destruct (findShortestPath g src dst
              (Some (excludeSetFor src dst initial used))) as [path|] eqn:Hpath;
    [|assumption].
  apply IH. intros p Hp. apply elem_of_app in Hp as [Hp|Hp]; [now apply Hfound|].
  apply list_elem_of_singleton in Hp. subst p. eexists. exact Hpath.
Qed.

Lemma kShortestPaths_from_search g src dst k excludeNodes p :
  p ∈ map p_nodeIds (findKShortestPaths g src dst k excludeNodes) ->
  exists excl, findShortestPath g src dst (Some excl) = Some p.
Proof.
  unfold findKShortestPaths.
  destruct (negb (JsMap.has src (nodes g)) || negb (JsMap.has dst (nodes g)));
    [intros H; now apply elem_of_nil in H|].
  destruct (k <=? 0)%Z; [intros H; now apply elem_of_nil in H|].
  rewrite nodeIds_toPath. apply disjointLoop_from_search.
  intros q Hq. now apply elem_of_nil in Hq.
Qed.

(** A node of a sequence sits at its first position, at its last one or
    at one of the positions between the two. *)
Lemma path_positions (p : list Z) x :
  x ∈ p -> head p = Some x \/ x ∈ intermediates p \/ last p = Some x.
Proof.
  destruct p as [|a r]; intros Hx; [now apply elem_of_nil in Hx|].
  apply elem_of_cons in Hx as [->|Hx]; [now left|]. right.
  destruct (exists_last (l := r)) as (r' & z & ->).
  { intros ->. now apply elem_of_nil in Hx. }
  change (a :: r' ++ [z]) with ((a :: r') ++ [z]).
  rewrite intermediates_snoc, last_snoc. simpl. rewrite drop_0.
  apply elem_of_app in Hx as [Hx|Hx]; [now left|].
  apply list_elem_of_singleton in Hx. subst. now right.
Qed.

(** On a loaded topology in which 0 names no node, the paths that
    findKShortestPaths returns start at src and end at dst, two of them
    share no node other than src and dst, and none passes through a node
    of excludeNodes other than src and dst. *)
Theorem loaded_paths_share_only_endpoints (topologyData : TopologyData)
  (g : Graph) (report : ConnectivityReport) (src dst k : Z)
  (excludeNodes : option (list Z)) :
  loadTopology topologyData = inr (g, report) ->
  0%Z ∉ JsMap.keys (nodes g) ->
  let found := map p_nodeIds (findKShortestPaths g src dst k excludeNodes) in
  (forall p, p ∈ found -> head p = Some src /\ last p = Some dst) /\
  (forall (i j : nat) p q,
     i <> j -> found !! i = Some p -> found !! j = Some q ->
     forall x, x ∈ p -> x ∈ q -> x = src \/ x = dst) /\
  (forall p x l, p ∈ found -> excludeNodes = Some l -> x ∈ p -> x ∈ l ->
     x = src \/ x = dst).
Proof.
  intros Hload Hzero found.
  destruct (kShortestPaths_disjoint g src dst k excludeNodes) as [Hpair Hexcl].
  fold found in Hpair, Hexcl.
  assert (Hends : forall p, p ∈ found -> head p = Some src /\ last p = Some dst).
  { intros p Hp. apply kShortestPaths_from_search in Hp as [excl Hp].
    destruct (findShortestPath_Some _ _ _ _ _ Hp) as (_ & _ & _ & _ & Hsrc & _).
    apply (findShortestPath_endpoints g src dst (Some excl) p); [| |assumption].
    - intros ->. apply Hzero. now apply has_keys.
    - intros c e He E.
      destruct (loadTopology_graph _ _ _ Hload) as (ns & ls & _ & _ & _ & _ & Hadj).
      pose proof (buildAdjacency_inv (nodes g) (links g)) as [_ Hentry _].
      unfold getNeighbors in He. rewrite Hadj in He.
      destruct (Hentry c e He) as (_ & Hn & _). rewrite E in Hn. contradiction. }
  assert (Hpos : forall p x, p ∈ found -> x ∈ p ->
            x = src \/ x = dst \/ x ∈ intermediates p).
  { intros p x Hp Hx. destruct (Hends p Hp) as [Hh Hl].
    destruct (path_positions p x Hx) as [H|[H|H]]; [left|auto|right; left];
      congruence. }
  split; [exact Hends|]. split.
  - intros i j p q Hij Hi Hj x Hxp Hxq.
    destruct (Hpos p x (list_elem_of_lookup_2 _ _ _ Hi) Hxp) as [?|[?|Hip]];
      [now left | now right |].
    destruct (Hpos q x (list_elem_of_lookup_2 _ _ _ Hj) Hxq) as [?|[?|Hiq]];
      [now left | now right |].
    exfalso. exact (Hpair i j p q Hij Hi Hj x Hip Hiq).
  - intros p x l Hp -> Hxp Hxl.
    destruct (Hpos p x Hp Hxp) as [?|[?|Hip]]; [now left | now right |].
    exfalso. destruct (Hexcl p x Hp Hip) as (_ & _ & Hl). now apply (Hl l).
Qed.

Lemma loaded_paths_share_only_endpoints_witness :
  let found :=
    map p_nodeIds (findKShortestPaths scenarioGraph 1 19 3 (Some [20%Z])) in
  (forall p, p ∈ found -> head p = Some 1%Z /\ last p = Some 19%Z) /\
  (forall (i j : nat) p q,
     i <> j -> found !! i = Some p -> found !! j = Some q ->
     forall x, x ∈ p -> x ∈ q -> x = 1%Z \/ x = 19%Z) /\
  (forall p x l, p ∈ found -> Some [20%Z] = Some l -> x ∈ p -> x ∈ l ->
     x = 1%Z \/ x = 19%Z).
Proof.
  assert (Hload : exists r, loadTopology scenarioTopology = inr (scenarioGraph, r))
    by (eexists; vm_compute; reflexivity).
  destruct Hload as [r Hload].
  apply (loaded_paths_share_only_endpoints scenarioTopology scenarioGraph r 1 19 3
           (Some [20%Z]) Hload).
  by_compute.
Defined.

End GraphEngineFacts.

(** * Connectivity of a loaded topology *)

Module Connectivity.
Import GraphEngine GraphEngineFacts.
Local Open Scope Q_scope.

(** [Reach g a b]: node [b] is reached from [a] along adjacency entries. *)
Inductive Reach (g : Graph) (a : Z) : Z -> Prop :=
| reach_here : Reach g a a
| reach_step b e :
    Reach g a b -> e ∈ getNeighbors g b -> Reach g a (neighbor e).

(** The search holds a finite distance for [n]. *)
Definition finite (s : Search) (n : Z) : Prop :=
  exists d, distances s !! n = Some (Fin d).

Section SearchReach.
Context (g : Graph) (src dst : Z).

(** What a search without exclusions keeps true; [C] are the nodes whose
    adjacency lists have been scanned. *)
Record ReachedOn (C : gset Z) (s : Search) : Prop := mkReachedOn {
  r_sound : forall n, finite s n -> Reach g src n;
  r_queue : forall e, e ∈ priorityQueue s -> finite s e.2;
  r_covered : forall n, finite s n ->
    n ∈ visited s \/ exists d, (d, n) ∈ priorityQueue s;
  r_closed : forall c e, c ∈ C -> c <> dst -> e ∈ getNeighbors g c ->
    finite s (neighbor e);
  r_src : finite s src;
  r_visited : forall c, c ∈ visited s -> finite s c
}.

Lemma reached_init : ReachedOn ∅ (initSearch g src).
Proof.
  assert (Hfin : forall n, finite (initSearch g src) n <-> n = src).
  { intros n. unfold finite, initSearch. simpl. split.
    - intros [d H]. destruct (decide (n = src)) as [|Hne]; [assumption|].
      rewrite lookup_insert_ne, fold_inf_lookup in H by congruence.
      case_bool_decide; [discriminate|]. now rewrite lookup_empty in H.
    - intros ->. exists 0. apply lookup_insert_eq. }
  constructor.
  - intros n Hn. apply Hfin in Hn. subst. constructor.
  - intros e He. simpl in He. apply list_elem_of_singleton in He. subst e.
    now apply Hfin.
  - intros n Hn. apply Hfin in Hn. subst. right. exists 0. simpl. left.
  - intros c e Hc. now apply not_elem_of_empty in Hc.
  - now apply Hfin.
  - intros c Hc. simpl in Hc. now apply not_elem_of_empty in Hc.
Qed.

Lemma relax_finite_mono d c s e n :
  finite s n -> finite (relax g dst None d c s e) n.
Proof.
  intros [d0 H]. unfold relax. simpl.
  case_bool_decide; [now exists d0|].
  destruct (Dist_ltb _ _); [|now exists d0]. unfold finite. simpl.
  destruct (decide (n = neighbor e)) as [->|Hne].
  - rewrite lookup_insert_eq. eexists; reflexivity.
  - rewrite lookup_insert_ne by congruence. now exists d0.
Qed.

Lemma relax_fold_finite_mono d c es n : forall s,
  finite s n -> finite (fold_left (relax g dst None d c) es s) n.
Proof.
  induction es as [|e es IH]; intros s H; simpl; [assumption|].
  apply IH. now apply relax_finite_mono.
Qed.

Lemma orInfinity_Fin o d : orInfinity o = Fin d -> o = Some (Fin d).
Proof.
  destruct o as [[d0|]|]; simpl; try discriminate.
  destruct (Qeq_bool d0 0); [discriminate|]. now intros [= ->].
Qed.

Lemma relax_reached C d c s e :
  ReachedOn C s -> Reach g src c -> e ∈ getNeighbors g c ->
  ReachedOn C (relax g dst None d c s e) /\
  finite (relax g dst None d c s e) (neighbor e).
Proof.
  intros HR Hc He.
  pose proof (relax_finite_mono d c s e) as Hmono.
  pose proof (relax_visited g dst None d c s e) as Hvis.
  destruct HR as [Hsound Hqueue Hcov Hclosed Hsrc Hvisited].
  unfold relax in *. simpl in *.
  case_bool_decide as Hv.
  { split; [constructor; assumption|]. now apply Hvisited. }
  destruct (Dist_ltb _ _) eqn:Elt.
  - set (n := neighbor e) in *.
    set (nd := d + match linkAt g (link e) with
                   | Some l => delay_ms l
                   | None => 0
                   end) in *.
    assert (Hn : finite
              (mkSearch (<[n := Fin nd]> (distances s)) (<[n := c]> (previous s))
                 (visited s) (priorityQueue s ++ [(nd, n)])) n).
    { exists nd. simpl. apply lookup_insert_eq. }
    split; [|exact Hn]. constructor; simpl.
    + intros n' [d' H]. simpl in H. destruct (decide (n' = n)) as [->|Hne].
      * unfold n. now apply reach_step with (b := c).
      * rewrite lookup_insert_ne in H by congruence. apply Hsound. now exists d'.
    + intros e' He'. apply elem_of_app in He' as [He'|He'].
      * apply Hmono, Hqueue, He'.
      * apply list_elem_of_singleton in He'. subst e'. exact Hn.
    + intros n' [d' H]. simpl in H. destruct (decide (n' = n)) as [->|Hne].
      * right. exists nd. apply elem_of_app. right. left.
      * rewrite lookup_insert_ne in H by congruence.
        destruct (Hcov n') as [?|[d0 Hd0]]; [now exists d' | now left |].
        right. exists d0. apply elem_of_app. now left.
    + intros c' e' Hc' Hne He'. apply Hmono. eapply Hclosed; eassumption.
    + now apply Hmono.
    + intros c' Hc'. now apply Hmono, Hvisited.
  - split; [constructor; assumption|].
    destruct (orInfinity (distances s !! neighbor e)) as [d0|] eqn:Eo;
      [|discriminate].
    exists d0. now apply orInfinity_Fin.
Qed.

Lemma relax_fold_reached C d c es : forall s,
  ReachedOn C s -> Reach g src c -> (forall e, e ∈ es -> e ∈ getNeighbors g c) ->
  ReachedOn C (fold_left (relax g dst None d c) es s) /\
  forall e, e ∈ es -> finite (fold_left (relax g dst None d c) es s) (neighbor e).
Proof.
  induction es as [|e es IH]; intros s HR Hc Hes; simpl.
  - split; [assumption|]. intros e He. now apply elem_of_nil in He.
  - destruct (relax_reached C d c s e HR Hc) as [HR1 Hfin1]; [apply Hes; left|].
    destruct (IH _ HR1 Hc) as [HR2 Hfin2]; [intros e' He'; apply Hes; now right|].
    split; [assumption|]. intros e' He'.
    apply elem_of_cons in He' as [->|He']; [|now apply Hfin2].
    now apply relax_fold_finite_mono.
Qed.

Lemma reached_pop C s d c rest :
  ReachedOn C s -> js_sort byDistance (priorityQueue s) = (d, c) :: rest ->
  ReachedOn C (mkSearch (distances s) (previous s) ({[c]} ∪ visited s) rest) /\
  finite s c.
Proof.
  intros [Hsound Hqueue Hcov Hclosed Hsrc Hvisited] Hsort.
  assert (Hin : forall e, e ∈ priorityQueue s <-> e = (d, c) \/ e ∈ rest).
  { intros e. rewrite <- (js_sort_elem_of byDistance), Hsort.
    apply elem_of_cons. }
  assert (Hc : finite s c) by (apply (Hqueue (d, c)), Hin; now left).
  split; [|exact Hc]. constructor; simpl; try assumption.
  - intros e He. apply Hqueue, Hin. now right.
  - intros n Hn. destruct (Hcov n Hn) as [?|[d0 Hd0]]; [left; set_solver|].
    apply Hin in Hd0 as [[= -> ->]|Hd0]; [left; set_solver|].
    right. now exists d0.
  - intros c' Hc'. apply elem_of_union in Hc' as [Hc'|Hc']; [|now apply Hvisited].
    apply elem_of_singleton in Hc'. now subst.
Qed.

Lemma reached_drop s d c rest :
  ReachedOn (visited s) s ->
  js_sort byDistance (priorityQueue s) = (d, c) :: rest -> c ∈ visited s ->
  ReachedOn (visited s) (mkSearch (distances s) (previous s) (visited s) rest).
Proof.
  intros [Hsound Hqueue Hcov Hclosed Hsrc Hvisited] Hsort Hc.
  assert (Hin : forall e, e ∈ priorityQueue s <-> e = (d, c) \/ e ∈ rest).
  { intros e. rewrite <- (js_sort_elem_of byDistance), Hsort.
    apply elem_of_cons. }
  constructor; simpl; try assumption.
  - intros e He. apply Hqueue, Hin. now right.
  - intros n Hn. destruct (Hcov n Hn) as [?|[d0 Hd0]]; [now left|].
    apply Hin in Hd0 as [[= -> ->]|Hd0]; [now left|].
    right. now exists d0.
Qed.

Lemma reached_widen C c s :
  ReachedOn C s ->
  (c <> dst -> forall e, e ∈ getNeighbors g c -> finite s (neighbor e)) ->
  ReachedOn ({[c]} ∪ C) s.
Proof.
  intros [Hsound Hqueue Hcov Hclosed Hsrc Hvisited] Hc.
  constructor; try assumption.
  intros c' e Hc' Hne He. apply elem_of_union in Hc' as [Hc'|Hc'].
  - apply elem_of_singleton in Hc'. subst c'. now apply Hc.
  - eapply Hclosed; eassumption.
Qed.

Lemma searchLoop_reached fuel : forall s s',
  ReachedOn (visited s) s -> searchLoop fuel g src dst None s = Some s' ->
  ReachedOn (visited s') s' /\ (priorityQueue s' = [] \/ dst ∈ visited s').
Proof.
  induction fuel as [|fuel IH]; intros s s' HR; simpl; [discriminate|].
  pose proof (js_sort_length byDistance (priorityQueue s)) as Hlen.
  destruct (js_sort byDistance (priorityQueue s)) as [|[d c] rest] eqn:Hsort.
  - intros [= <-]. split; [assumption|]. left.
    destruct (priorityQueue s); [reflexivity | discriminate].
  - case_bool_decide as Hvis.
    + apply IH. now apply (reached_drop s d c rest).
    + destruct (reached_pop _ s d c rest HR Hsort) as [HR1 Hc].
      destruct (Z.eqb_spec c dst) as [->|Hcd].
      * intros [= <-]. simpl. split; [|right; set_solver].
        apply reached_widen; [assumption | congruence].
      * intros Hloop. apply IH in Hloop; [assumption|].
        rewrite relax_fold_visited. simpl.
        destruct (relax_fold_reached (visited s) d c (getNeighbors g c) _ HR1)
          as [HR2 Hfin]; [now apply (r_sound _ _ HR) | auto |].
        apply reached_widen; [assumption|]. intros _ e He. now apply Hfin.
Qed.

Lemma reached_complete s :
  ReachedOn (visited s) s -> priorityQueue s = [] \/ dst ∈ visited s ->
  forall n, Reach g src n -> finite s n \/ finite s dst.
Proof.
  intros HR Hend n Hn. induction Hn as [|b e Hb IH He].
  - left. apply (r_src _ _ HR).
  - destruct IH as [Hfb|?]; [|now right].
    destruct (decide (b = dst)) as [->|Hne]; [now right|].
    destruct Hend as [Hq|Hd]; [|right; now apply (r_visited _ _ HR)].
    left. apply (r_closed _ _ HR b e); try assumption.
    destruct (r_covered _ _ HR b Hfb) as [?|[d0 Hd0]]; [assumption|].
    rewrite Hq in Hd0. now apply elem_of_nil in Hd0.
Qed.

End SearchReach.

(** Without exclusions, findShortestPath returns null exactly when dst
    cannot be reached from src along adjacency entries. *)
Lemma findShortestPath_None_iff g src dst :
  JsMap.has src (nodes g) = true -> JsMap.has dst (nodes g) = true ->
  findShortestPath g src dst None = None <-> ~ Reach g src dst.
Proof.
  intros Hs Hd. unfold findShortestPath.
  pose proof (findShortestPathWith_fuel g src dst None) as Hfuel.
  unfold findShortestPathWith in Hfuel |- *. rewrite Hs, Hd in Hfuel |- *.
  cbn [negb] in Hfuel |- *.
  destruct (searchLoop_from_init g src dst None) as [s Hloop].
  rewrite Hloop in Hfuel |- *.
  destruct (searchLoop_reached g src dst (searchFuel g) (initSearch g src) s
              (reached_init g src dst) Hloop) as [HR Hend].
  pose proof (search_final_inv g src dst None (fun _ => True) s I
                (fun _ _ _ => I) Hloop) as HI.
  destruct (inv_nodes _ _ _ _ _ _ HI dst (has_keys _ _ Hd)) as [x Hx].
  rewrite Hx in Hfuel |- *. destruct x as [d|].
  - destruct (reconstruct _ _ _ _); [|congruence].
    split; [discriminate|]. intros Hn. exfalso. apply Hn.
    apply (r_sound _ _ _ _ _ HR). now exists d.
  - split; [|reflexivity]. intros _ Hreach.
    destruct (reached_complete g src dst s HR Hend dst Hreach) as [[d H]|[d H]];
      congruence.
Qed.

(** Without exclusions, findShortestPath finds a path whenever dst can
    be reached from src along the adjacency entries, and returns null
    exactly when it cannot. *)
Theorem findShortestPath_finds_reachable (g : Graph) (src dst : Z) :
  JsMap.has src (nodes g) = true -> JsMap.has dst (nodes g) = true ->
  (Reach g src dst -> exists path, findShortestPath g src dst None = Some path) /\
  (findShortestPath g src dst None = None <-> ~ Reach g src dst).
Proof.
  intros Hs Hd. pose proof (findShortestPath_None_iff g src dst Hs Hd) as Hiff.
  split; [|exact Hiff]. intros Hr.
  destruct (findShortestPath g src dst None) as [path|]; [now exists path|].
  exfalso. now apply (proj1 Hiff).
Qed.

Lemma findShortestPath_finds_reachable_witness :
  (Reach scenarioGraph 1 21 ->
   exists path, findShortestPath scenarioGraph 1 21 None = Some path) /\
  (findShortestPath scenarioGraph 1 21 None = None <-> ~ Reach scenarioGraph 1 21).
Proof.
  apply (findShortestPath_finds_reachable scenarioGraph 1 21);
    vm_compute; reflexivity.
Defined.

(** ** Loading never rejects a graph *)








End Connectivity.

(** * Further properties of PRFCController *)

Module PRFCFacts.
Import PRFC.
Local Open Scope Q_scope.

(** ** The latency rings *)

Definition windowsBounded (st : Controller) : Prop :=
  (Z.of_nat (length (c_latencyWindow st)) <= windowSize st)%Z /\
  forall k pm, JsMap.get k (paths st) = Some pm ->
    (Z.of_nat (length (latencyWindow pm)) <= windowSize st)%Z.

Lemma pushWindow_bound W w b :
  (0 <= W)%Z -> (Z.of_nat (length w) <= W)%Z ->
  (Z.of_nat (length (pushWindow W w b)) <= W)%Z.
Proof.
  intros HW Hw. unfold pushWindow.
  destruct (Z.ltb_spec W (Z.of_nat (length (w ++ [b])))) as [Hlt|Hge]; [|assumption].
  rewrite length_app in Hlt. simpl in Hlt.
  destruct w as [|a w]; simpl in *; [lia|].
  rewrite length_app. simpl. lia.
Qed.

Lemma pushWindow_evicts W w b :
  Z.of_nat (length w) = W -> pushWindow W w b = tail (w ++ [b]).
Proof.
  intros Hw. unfold pushWindow.
  destruct (Z.ltb_spec W (Z.of_nat (length (w ++ [b])))) as [Hlt|Hge]; [reflexivity|].
  rewrite length_app in Hge. simpl in Hge. lia.
Qed.

Lemma addBatchLatency_window now x id st :
  c_latencyWindow (addBatchLatency now x id st)
  = pushWindow (windowSize st) (c_latencyWindow st) (mkBatch now x).
Proof.
  unfold addBatchLatency. destruct id as [i|]; [|reflexivity].
  destruct (JsMap.has i _); [|reflexivity].
  unfold updatePathMetrics. simpl. destruct (JsMap.get i (paths st)); reflexivity.
Qed.

Lemma addBatchLatency_windowSize now x id st :
  windowSize (addBatchLatency now x id st) = windowSize st.
Proof.
  unfold addBatchLatency. destruct id as [i|]; [|reflexivity].
  destruct (JsMap.has i _); [|reflexivity].
  unfold updatePathMetrics. simpl. destruct (JsMap.get i (paths st)); reflexivity.
Qed.

Lemma addBatchLatency_path_window now x i st pm :
  JsMap.get i (paths st) = Some pm ->
  exists pm',
    JsMap.get i (paths (addBatchLatency now x (Some i) st)) = Some pm' /\
    latencyWindow pm'
    = pushWindow (windowSize st) (latencyWindow pm) (mkBatch now x).
Proof.
  intros Hget. unfold addBatchLatency, JsMap.has. simpl. rewrite Hget.
  unfold updatePathMetrics. simpl. rewrite Hget.
  eexists. simpl. rewrite JsMap.get_set_eq. split; [reflexivity|].
  repeat match goal with |- context [if ?b then _ else _] => destruct b end;
    reflexivity.
Qed.

Lemma addBatchLatency_unregistered now x i st :
  JsMap.get i (paths st) = None ->
  paths (addBatchLatency now x (Some i) st) = paths st.
Proof.
  intros Hget. unfold addBatchLatency, JsMap.has. simpl. now rewrite Hget.
Qed.

(** With a window size W >= 0, a batch never lets the aggregate ring or a
    path's ring grow beyond W samples; on a full aggregate ring the oldest
    sample is dropped and the new one appended. *)
Theorem latency_rings_bounded (now x : Q) (id : option Z) (st : Controller) :
  (0 <= windowSize st)%Z ->
  windowsBounded st ->
  windowsBounded (addBatchLatency now x id st) /\
  (Z.of_nat (length (c_latencyWindow st)) = windowSize st ->
   c_latencyWindow (addBatchLatency now x id st)
   = tail (c_latencyWindow st ++ [mkBatch now x])).
Proof.
  intros HW [Hglobal Hpaths]. split; [split|].
  - rewrite addBatchLatency_window, addBatchLatency_windowSize.
    now apply pushWindow_bound.
  - rewrite addBatchLatency_windowSize. intros k pm' Hk.
    destruct id as [i|]; [|now apply (Hpaths k)].
    destruct (JsMap.get i (paths st)) as [pm|] eqn:Hi.
    + destruct (Z.eq_dec k i) as [->|Hne].
      * destruct (addBatchLatency_path_window now x i st pm Hi) as (pm'' & Hget & Hw).
        rewrite Hget in Hk. injection Hk as <-. rewrite Hw.
        apply pushWindow_bound; [assumption|]. now apply (Hpaths i).
      * rewrite addBatchLatency_other in Hk by assumption. now apply (Hpaths k).
    + rewrite addBatchLatency_unregistered in Hk by assumption.
      now apply (Hpaths k).
  - intros Hfull. rewrite addBatchLatency_window. now apply pushWindow_evicts.
Qed.

Lemma latency_rings_bounded_witness :
  windowsBounded (addBatchLatency 4 90 (Some 0%Z) path0Degraded).
Proof.
  apply (latency_rings_bounded 4 90 (Some 0%Z) path0Degraded).
  - vm_compute. discriminate.
  - split; [vm_compute; discriminate|].
    intros k pm Hk.
    assert (Hin : (k, pm) ∈ paths path0Degraded) by now apply JsMap.get_Some_In.
    vm_compute in Hin.
    repeat (apply elem_of_cons in Hin as [Hin|Hin];
            [injection Hin as -> ->; vm_compute; discriminate|]).
    now apply elem_of_nil in Hin.
Defined.

(** ** Well-formed registries *)

(** The path map has distinct keys, and every registered path has a
    stored optimal load. *)
Definition wellFormed (st : Controller) : Prop :=
  NoDup (JsMap.keys (paths st)) /\
  forall k, k ∈ JsMap.keys (paths st) ->
    is_Some (JsMap.get k (optimalDistribution st)).

Lemma addBatchLatency_keys now x id st :
  JsMap.keys (paths (addBatchLatency now x id st)) = JsMap.keys (paths st).
Proof.
  unfold addBatchLatency. destruct id as [i|]; [|reflexivity].
  unfold JsMap.has. simpl.
  destruct (JsMap.get i (paths st)) as [pm|] eqn:E; [|reflexivity].
  unfold updatePathMetrics. simpl. rewrite E. simpl.
  apply keys_set_existing. eapply JsMap.get_Some_keys, E.
Qed.

Lemma addBatchLatency_optimal now x id st :
  optimalDistribution (addBatchLatency now x id st) = optimalDistribution st.
Proof.
  unfold addBatchLatency. destruct id as [i|]; [|reflexivity].
  destruct (JsMap.has i _); [|reflexivity].
  unfold updatePathMetrics. simpl. destruct (JsMap.get i (paths st)); reflexivity.
Qed.

Lemma updatePathLoad_optimal k v st :
  optimalDistribution (updatePathLoad k v st) = optimalDistribution st.
Proof. unfold updatePathLoad. now destruct (JsMap.get k (paths st)). Qed.

Lemma applyDistribution_optimal d : forall st,
  optimalDistribution (applyDistribution d st) = optimalDistribution st.
Proof.
  unfold applyDistribution. induction d as [|e d IH]; intros st; simpl;
    [reflexivity|]. now rewrite IH, updatePathLoad_optimal.
Qed.

Lemma redistribute_keys st1 D :
  JsMap.keys (paths (redistribute st1 D).1) = JsMap.keys (paths st1) /\
  optimalDistribution (redistribute st1 D).1 = optimalDistribution st1.
Proof.
  unfold redistribute.
  destruct (healthyPathsOf D (JsMap.keys (paths st1))); [now split|].
  destruct (normalise _); simpl; [|now split].
  split; [apply applyDistribution_keys | apply applyDistribution_optimal].
Qed.

Lemma rebalancePaths_state ge src dst now st :
  (rebalancePaths ge src dst now st).1 = (detectDegradedPaths now st).1 \/
  (rebalancePaths ge src dst now st).1
  = (redistribute (detectDegradedPaths now st).1 (detectDegradedPaths now st).2).1.
Proof.
  unfold rebalancePaths.
  destruct (detectDegradedPaths now st).2; [now left|].
  destruct (api_findKShortestPaths ge src dst 5 _); [now left|].
  destruct (List.filter _ _); [now left | now right].
Qed.

Lemma gradualRevert_state now st :
  (gradualRevert now st).1 = (detectRecoveredPaths now st).1.
Proof.
  unfold gradualRevert.
  now destruct (negb _ || negb (hasHealthyOrRecovering _)).
Qed.

Lemma wellFormed_keys st st' :
  JsMap.keys (paths st') = JsMap.keys (paths st) ->
  optimalDistribution st' = optimalDistribution st ->
  wellFormed st -> wellFormed st'.
Proof. unfold wellFormed. intros -> ->. auto. Qed.

(** Controllers built through the public methods are well formed: a new
    controller is, and registerPath (also of an id already present, which
    is overwritten in place), addBatchLatency, updatePathLoad, both scans,
    rebalancePaths, gradualRevert and applyTransitionStep keep it so. *)
Theorem wellFormed_preserved (st : Controller) :
  wellFormed st ->
  (forall k nodes load, wellFormed (registerPath k nodes load st)) /\
  (forall now x id, wellFormed (addBatchLatency now x id st)) /\
  (forall k load, wellFormed (updatePathLoad k load st)) /\
  (forall now, wellFormed (detectDegradedPaths now st).1) /\
  (forall now, wellFormed (detectRecoveredPaths now st).1) /\
  (forall ge src dst now, wellFormed (rebalancePaths ge src dst now st).1) /\
  (forall now, wellFormed (gradualRevert now st).1) /\
  (forall step, wellFormed (stateOf (applyTransitionStep step st))).
Proof.
  intros Hwf. repeat split.
  - simpl. apply JsMap.keys_set_NoDup, Hwf.
  - simpl. intros k' Hk'. rewrite JsMap.get_set.
    destruct (Z.eqb_spec k' k); [eexists; reflexivity|].
    apply Hwf. apply JsMap.keys_set_in in Hk' as [?|?]; [contradiction | assumption].
  - rewrite addBatchLatency_keys. apply Hwf.
  - rewrite addBatchLatency_keys, addBatchLatency_optimal. apply Hwf.
  - rewrite updatePathLoad_keys. apply Hwf.
  - rewrite updatePathLoad_keys, updatePathLoad_optimal. apply Hwf.
  - rewrite detectDegradedPaths_keys. apply Hwf.
  - rewrite detectDegradedPaths_keys. apply Hwf.
  - rewrite detectRecoveredPaths_keys. apply Hwf.
  - rewrite detectRecoveredPaths_keys. apply Hwf.
  - destruct (rebalancePaths_state ge src dst now st) as [-> | ->];
      rewrite ?(proj1 (redistribute_keys _ _)), detectDegradedPaths_keys; apply Hwf.
  - destruct (rebalancePaths_state ge src dst now st) as [-> | ->];
      rewrite ?(proj1 (redistribute_keys _ _)), ?(proj2 (redistribute_keys _ _)),
        detectDegradedPaths_keys; apply Hwf.
  - rewrite gradualRevert_state, detectRecoveredPaths_keys. apply Hwf.
  - rewrite gradualRevert_state, detectRecoveredPaths_keys. apply Hwf.
  - unfold applyTransitionStep. destruct (distribution step); [|apply Hwf].
    cbn [stateOf]. rewrite applyDistribution_keys. apply Hwf.
  - unfold applyTransitionStep. destruct (distribution step); [|apply Hwf].
    cbn [stateOf]. rewrite applyDistribution_keys, applyDistribution_optimal.
    apply Hwf.
Qed.

Lemma wellFormed_new W a T S : wellFormed (newController W a T S).
Proof.
  split; [apply NoDup_nil_2|]. intros k Hk. now apply elem_of_nil in Hk.
Qed.

Lemma wellFormed_preserved_witness :
  wellFormed (registerPath 0 [1; 9; 19]%Z 50 defaultController) /\
  wellFormed (registerPath 0 [1; 9; 20]%Z 30
                (registerPath 0 [1; 9; 19]%Z 50 defaultController)).
Proof.
  pose proof (proj1 (wellFormed_preserved defaultController
                       (wellFormed_new 10 (3 # 10) 100 5)) 0%Z [1; 9; 19]%Z 50)
    as H1.
  split; [exact H1|].
  exact (proj1 (wellFormed_preserved _ H1) 0%Z [1; 9; 20]%Z 30).
Defined.

(** ** Single steps of the health state machine *)

(** What one operation may do to the status of a path: keep it, degrade
    it, move it from degraded to recovering, or from recovering to
    healthy. *)
Definition allowed (s s' : Status) : Prop :=
  s' = s \/ s' = degraded \/ (s = degraded /\ s' = recovering) \/
  (s = recovering /\ s' = healthy).

Definition stepsTo (st st' : Controller) : Prop :=
  forall k s s', pathStatus st k = Some s -> pathStatus st' k = Some s' ->
    allowed s s'.

Lemma detectDegradedPaths_get now st k :
  JsMap.get k (paths (detectDegradedPaths now st).1)
  = (fun pm => if meetsDegraded st pm then markDegraded now pm else pm)
      <$> JsMap.get k (paths st).
Proof.
  unfold detectDegradedPaths. simpl.
  rewrite <- (get_map_entries
    (fun pm => if meetsDegraded st pm then markDegraded now pm else pm)).
  f_equal. apply map_ext. intros [k' pm]. simpl.
  now destruct (meetsDegraded st pm).
Qed.

Lemma updatePathLoad_status k v st k' :
  pathStatus (updatePathLoad k v st) k' = pathStatus st k'.
Proof.
  unfold pathStatus, updatePathLoad.
  destruct (JsMap.get k (paths st)) as [pm|] eqn:E; [|reflexivity].
  simpl. rewrite JsMap.get_set. destruct (Z.eqb_spec k' k) as [->|]; [|reflexivity].
  now rewrite E.
Qed.

Lemma applyDistribution_status d k : forall st,
  pathStatus (applyDistribution d st) k = pathStatus st k.
Proof.
  unfold applyDistribution. induction d as [|e d IH]; intros st; simpl;
    [reflexivity|]. now rewrite IH, updatePathLoad_status.
Qed.

Lemma stepsTo_same st st' :
  (forall k, pathStatus st' k = pathStatus st k) -> stepsTo st st'.
Proof. intros H k s s' Hs Hs'. rewrite H, Hs in Hs'. injection Hs' as <-. now left. Qed.

Lemma stepsTo_trans_same st st' st'' :
  stepsTo st st' -> (forall k, pathStatus st'' k = pathStatus st' k) ->
  stepsTo st st''.
Proof. intros H Hsame k s s' Hs Hs'. rewrite Hsame in Hs'. eauto. Qed.

Lemma stepsTo_detectDegraded now st : stepsTo st (detectDegradedPaths now st).1.
Proof.
  intros k s s'. unfold pathStatus. rewrite detectDegradedPaths_get.
  destruct (JsMap.get k (paths st)) as [pm|]; simpl; [|discriminate].
  intros [= <-] [= <-]. destruct (meetsDegraded st pm); [|now left].
  unfold markDegraded. destruct (status pm) eqn:E; simpl; rewrite ?E;
    unfold allowed; auto.
Qed.

Lemma stepsTo_detectRecovered now st : stepsTo st (detectRecoveredPaths now st).1.
Proof.
  intros k s s'. unfold pathStatus. rewrite detectRecoveredPaths_get.
  destruct (JsMap.get k (paths st)) as [pm|]; simpl; [|discriminate].
  intros [= <-] [= <-]. unfold recoverStep.
  destruct (status pm) eqn:E; simpl;
    repeat match goal with |- context [if ?b then _ else _] => destruct b end;
    simpl; rewrite ?E; unfold allowed; auto.
Qed.

Lemma stepsTo_addBatchLatency now x id st : stepsTo st (addBatchLatency now x id st).
Proof.
  destruct id as [i|]; [|apply stepsTo_same; reflexivity].
  intros k s s' Hs Hs'. unfold pathStatus in *.
  destruct (Z.eq_dec k i) as [->|Hne].
  - destruct (JsMap.get i (paths st)) as [pm|] eqn:Hi; [|discriminate].
    simpl in Hs. injection Hs as <-.
    unfold addBatchLatency, JsMap.has in Hs'. simpl in Hs'. rewrite Hi in Hs'.
    unfold updatePathMetrics in Hs'. simpl in Hs'. rewrite Hi in Hs'.
    simpl in Hs'. rewrite JsMap.get_set_eq in Hs'. simpl in Hs'.
    injection Hs' as <-.
    destruct (Qltb _ _ && Qle_bool _ _); [unfold allowed; auto|].
    destruct (status pm) eqn:E; simpl.
    + now left.
    + now left.
    + destruct (Qltb _ _); simpl; unfold allowed; auto.
  - rewrite addBatchLatency_other in Hs' by assumption.
    rewrite Hs in Hs'. injection Hs' as <-. now left.
Qed.

(** No operation of the controller on registered paths skips a state: a
    batch, either scan, a rebalance, a gradual revert, a load update or
    the application of a step leaves each path's status unchanged,
    degrades it, moves it from degraded to recovering or from recovering
    to healthy; none takes a degraded path straight to healthy or a
    healthy one to recovering. *)
Theorem status_steps_allowed (st : Controller) :
  (forall now x id, stepsTo st (addBatchLatency now x id st)) /\
  (forall now, stepsTo st (detectDegradedPaths now st).1) /\
  (forall now, stepsTo st (detectRecoveredPaths now st).1) /\
  (forall ge src dst now, stepsTo st (rebalancePaths ge src dst now st).1) /\
  (forall now, stepsTo st (gradualRevert now st).1) /\
  (forall k load, stepsTo st (updatePathLoad k load st)) /\
  (forall step, stepsTo st (stateOf (applyTransitionStep step st))).
Proof.
  repeat split.
  - intros. apply stepsTo_addBatchLatency.
  - intros. apply stepsTo_detectDegraded.
  - intros. apply stepsTo_detectRecovered.
  - intros ge src dst now.
    destruct (rebalancePaths_state ge src dst now st) as [-> | ->];
      [apply stepsTo_detectDegraded|].
    eapply stepsTo_trans_same; [apply stepsTo_detectDegraded|].
    intros k. unfold redistribute.
    destruct (healthyPathsOf _ _); [reflexivity|].
    destruct (normalise _); [|reflexivity]. apply applyDistribution_status.
  - intros now. rewrite gradualRevert_state. apply stepsTo_detectRecovered.
  - intros k load. apply stepsTo_same. intros k'. apply updatePathLoad_status.
  - intros step. apply stepsTo_same. intros k. unfold applyTransitionStep.
    destruct (distribution step); cbn [stateOf];
      [apply applyDistribution_status | reflexivity].
Qed.

(** ** The thresholds of the recovery scan *)

(** detectRecoveredPaths moves a degraded path to recovering exactly when
    ewma < 0.8*ewmaMaxMs, slope <= 0.5 and more than 20000 ms have passed
    since lastFailureTime, recording lastRecoveryTime = now; it moves a
    recovering path to healthy exactly when ewma < 0.6*ewmaMaxMs and more
    than 15000 ms have passed since lastRecoveryTime; every other path is
    left as it is. *)
Theorem recovery_scan_thresholds (now : Q) (st : Controller) (k : Z)
  (pm : PathMetrics) :
  JsMap.get k (paths st) = Some pm ->
  exists pm',
    JsMap.get k (paths (detectRecoveredPaths now st).1) = Some pm' /\
    (status pm = degraded ->
       (status pm' = recovering <->
        ewma pm < ewmaMaxMs st * (8 # 10) /\ slope pm <= 5 # 10 /\
        RECOVERY_HOLD_TIME_MS < now - lastFailureTime pm) /\
       (status pm' = recovering -> lastRecoveryTime pm' = now) /\
       (status pm' <> recovering -> pm' = pm)) /\
    (status pm = recovering ->
       (status pm' = healthy <->
        ewma pm < ewmaMaxMs st * (6 # 10) /\
        STABILITY_TIME_MS < now - lastRecoveryTime pm) /\
       (status pm' <> healthy -> pm' = pm)) /\
    (status pm = healthy -> pm' = pm).
Proof.
  intros Hget. exists (recoverStep st now pm).1.
  split; [now rewrite detectRecoveredPaths_get, Hget|].
  unfold recoverStep. split; [|split].
  - intros H. rewrite H.
    destruct (Qltb (ewma pm) _) eqn:E1; simpl.
    2:{ repeat split; try congruence.
        intros (H1 & _). apply Qltb_lt in H1. congruence. }
    destruct (Qle_bool (slope pm) _) eqn:E2; simpl.
    2:{ repeat split; try congruence.
        intros (_ & H2 & _). apply Qle_bool_iff in H2. congruence. }
    destruct (Qltb RECOVERY_HOLD_TIME_MS _) eqn:E3; simpl.
    2:{ repeat split; try congruence.
        intros (_ & _ & H3). apply Qltb_lt in H3. congruence. }
    apply Qltb_lt in E1, E3. apply Qle_bool_iff in E2.
    repeat split; auto. intros Hn. now elim Hn.
  - intros H. rewrite H.
    destruct (Qltb (ewma pm) _) eqn:E1; simpl.
    2:{ repeat split; try congruence.
        intros (H1 & _). apply Qltb_lt in H1. congruence. }
    destruct (Qltb STABILITY_TIME_MS _) eqn:E3; simpl.
    2:{ repeat split; try congruence.
        intros (_ & H3). apply Qltb_lt in H3. congruence. }
    apply Qltb_lt in E1, E3.
    repeat split; auto. intros Hn. now elim Hn.
  - intros H. now rewrite H.
Qed.

Lemma recovery_scan_thresholds_witness :
  exists pm,
    JsMap.get 0%Z (paths path0Calm) = Some pm /\
    exists pm',
      JsMap.get 0%Z (paths (detectRecoveredPaths 21000 path0Calm).1) = Some pm' /\
      (status pm = degraded ->
         (status pm' = recovering <->
          ewma pm < ewmaMaxMs path0Calm * (8 # 10) /\ slope pm <= 5 # 10 /\
          RECOVERY_HOLD_TIME_MS < 21000 - lastFailureTime pm) /\
         (status pm' = recovering -> lastRecoveryTime pm' = 21000) /\
         (status pm' <> recovering -> pm' = pm)) /\
      (status pm = recovering ->
         (status pm' = healthy <->
          ewma pm < ewmaMaxMs path0Calm * (6 # 10) /\
          STABILITY_TIME_MS < 21000 - lastRecoveryTime pm) /\
         (status pm' <> healthy -> pm' = pm)) /\
      (status pm = healthy -> pm' = pm).
Proof.
  assert (Hex : exists pm, JsMap.get 0%Z (paths path0Calm) = Some pm)
    by (eexists; vm_compute; reflexivity).
  destruct Hex as [pm E].
  exists pm. split; [exact E|].
  exact (recovery_scan_thresholds 21000 path0Calm 0 pm E).
Defined.

(** ** Rebalancing that cannot be done *)

Lemma rebalancePaths_null ge src dst now st :
  degradedIds now st = [] \/
  validAlternatives ge src dst (detectDegradedPaths now st).1 (degradedIds now st)
    = [] ->
  rebalancePaths ge src dst now st = ((detectDegradedPaths now st).1, RNull).
Proof.
  unfold degradedIds, validAlternatives, rebalancePaths.
  destruct (detectDegradedPaths now st).2 as [|d0 D0]; [reflexivity|].
  intros [H|H]; [discriminate|].
  destruct (api_findKShortestPaths ge src dst 5 _) as [|p0 P0]; [reflexivity|].
  now rewrite H.
Qed.

Lemma redistribute_is_distribution st1 D :
  NoDup (JsMap.keys (paths st1)) ->
  List.filter (isDegradedId D) (JsMap.keys (paths st1)) = D ->
  exists d, (redistribute st1 D).2 = RDistribution d.
Proof.
  intros Hnd HD.
  destruct (healthyPathsOf D (JsMap.keys (paths st1))) as [|h0 H0] eqn:EH.
  - rewrite redistribute_all_degraded by assumption. eexists. reflexivity.
  - rewrite redistribute_healthy by (try assumption; rewrite EH; discriminate).
    eexists. reflexivity.
Qed.

(** rebalancePaths returns null exactly when the degradation scan finds no
    degraded path or the graph engine offers no tier-valid alternative
    around the bottleneck nodes; in that case no registered load changes.
    In every other case it returns a distribution: none of its divisions
    is by zero, so its result is never non-finite. *)
Theorem rebalance_infeasible (ge : GraphApi) (src dst : Z) (now : Q)
  (st : Controller) :
  NoDup (JsMap.keys (paths st)) ->
  ((rebalancePaths ge src dst now st).2 = RNull <->
   degradedIds now st = [] \/
   validAlternatives ge src dst (detectDegradedPaths now st).1 (degradedIds now st)
     = []) /\
  ((rebalancePaths ge src dst now st).2 = RNull ->
   forall id, loadOf (rebalancePaths ge src dst now st).1 id = loadOf st id) /\
  (rebalancePaths ge src dst now st).2 <> RNonFinite.
Proof.
  intros Hnd.
  assert (Hcases :
    (degradedIds now st = [] \/
     validAlternatives ge src dst (detectDegradedPaths now st).1
       (degradedIds now st) = []) \/
    exists d, (rebalancePaths ge src dst now st).2 = RDistribution d).
  { destruct (degradedIds now st) as [|d0 D0] eqn:ED; [left; now left|].
    destruct (validAlternatives ge src dst (detectDegradedPaths now st).1
                (d0 :: D0)) as [|p0 P0] eqn:EV; [left; now right|].
    right. unfold degradedIds in *.
    rewrite rebalancePaths_redistributes
      by (rewrite ED; try rewrite EV; discriminate).
    apply redistribute_is_distribution.
    - now rewrite detectDegradedPaths_keys.
    - now apply degraded_ids_are_keys. }
  split; [|split].
  - split.
    + intros Hnull. destruct Hcases as [H|[d Hd]]; [assumption|congruence].
    + intros H. now rewrite rebalancePaths_null.
  - intros Hnull id. destruct Hcases as [H|[d Hd]]; [|congruence].
    rewrite rebalancePaths_null by assumption. apply detectDegradedPaths_loadOf.
  - destruct Hcases as [H|[d Hd]]; [|congruence].
    now rewrite rebalancePaths_null.
Qed.

(** A graph engine that finds no path at all. *)
Definition noAlternative : GraphApi :=
  mkGraphApi (fun _ _ _ _ => []) (fun _ => true).

Lemma rebalance_infeasible_witness :
  (rebalancePaths noAlternative 1 21 4 path0Degraded).2 = RNull /\
  forall id,
    loadOf (rebalancePaths noAlternative 1 21 4 path0Degraded).1 id
    = loadOf path0Degraded id.
Proof.
  assert (Hnd : NoDup (JsMap.keys (paths path0Degraded))) by by_compute.
  destruct (rebalance_infeasible noAlternative 1 21 4 path0Degraded Hnd)
    as (Hiff & Hloads & _).
  assert (Hnull : (rebalancePaths noAlternative 1 21 4 path0Degraded).2 = RNull).
  { apply Hiff. right. reflexivity. }
  split; [exact Hnull | exact (Hloads Hnull)].
Defined.

(** ** Where a gradual revert ends *)

Lemma get_blend target progress id (current : Distribution) :
  JsMap.get id (map (blend target progress) current)
  = (fun v => v + (valueAt target id - v) * progress) <$> JsMap.get id current.
Proof.
  induction current as [|[k v] r IH]; simpl; [reflexivity|].
  destruct (Z.eqb_spec id k) as [->|Hne]; [reflexivity | exact IH].
Qed.

Lemma stepDistribution_last st :
  NoDup (JsMap.keys (paths st)) ->
  (forall id, id ∈ JsMap.keys (paths st) ->
     is_Some (JsMap.get id (optimalDistribution st))) ->
  Qabs (optimalTotal st - 100) <= 1 # 100 ->
  stepDistribution (loadsOf st) (optimalDistribution st) 5
  = Some (map (blend (optimalDistribution st) (inject_Z 5 / inject_Z numSteps))
            (loadsOf st)).
Proof.
  intros Hnd Hopt Htotal. unfold stepDistribution.
  rewrite mapM_interpolate by now rewrite keys_loadsOf.
  rewrite rebuild_entries by now rewrite keys_blend, keys_loadsOf.
  unfold normalise.
  set (d := map _ (loadsOf st)).
  assert (Ed : distTotal d == optimalTotal st).
  { unfold d. rewrite distTotal_blend, distTotal_loadsOf, keys_loadsOf.
    fold (optimalTotal st).
    assert (Ep : inject_Z 5 / inject_Z numSteps == 1) by reflexivity.
    rewrite Ep. ring. }
  assert (E : Qltb (1 # 100) (Qabs (distTotal d - 100)) = false).
  { apply Qltb_ge. now rewrite Ed. }
  now rewrite E.
Qed.

(** A schedule returned by gradualRevert has five steps, due 1400 ms
    apart from now + 1400 to now + 7000; when the stored optimal loads of
    the registered paths total 100 within 0.01, its last step names
    exactly the registered paths and gives each of them its stored optimal
    load to within 0.01, so that the revert ends on the distribution the
    paths were registered with. *)
Theorem revert_reaches_optimal (now : Q) (st : Controller)
  (sched : TransitionSchedule) :
  wellFormed st ->
  (gradualRevert now st).2 = Some sched ->
  length (steps sched) = 5%nat /\
  (forall (i : nat) step, steps sched !! i = Some step ->
     timestamp step == now + inject_Z (Z.of_nat (S i)) * 1400) /\
  (Qabs (optimalTotal st - 100) <= 1 # 100 ->
   exists step d,
     last (steps sched) = Some step /\ distribution step = Some d /\
     (forall id, id ∈ JsMap.keys d <-> id ∈ JsMap.keys (paths st)) /\
     forall id, id ∈ JsMap.keys (paths st) ->
       exists v, JsMap.get id d = Some v /\
                 Qabs (v - valueAt (optimalDistribution st) id) <= 1 # 100).
Proof.
  intros [Hnd Hopt] Hsched. unfold gradualRevert in Hsched.
  pose proof (detectRecoveredPaths_keys now st) as Hkeys.
  pose proof (detectRecoveredPaths_loads now st) as Hloads.
  set (st1 := (detectRecoveredPaths now st).1) in *.
  assert (Hnd1 : NoDup (JsMap.keys (paths st1))) by now rewrite Hkeys.
  assert (Hopt1 : optimalDistribution st1 = optimalDistribution st) by reflexivity.
  assert (Htarget1 : optimalTotal st1 = optimalTotal st).
  { unfold optimalTotal. now rewrite Hkeys, Hopt1. }
  destruct (negb _ || negb (hasHealthyOrRecovering st1)) eqn:Eguard;
    [discriminate|].
  apply orb_false_iff in Eguard as [_ Ehas].
  apply negb_false_iff, hasHealthy_not_allDegraded in Ehas.
  simpl in Hsched. injection Hsched as <-. cbn [steps].
  unfold targetDistributionOf. rewrite Ehas.
  rewrite currentDistributionOf_eq by assumption.
  split; [reflexivity|]. split.
  - intros i step Hi.
    destruct i as [|[|[|[|[|i]]]]]; simpl in Hi; try discriminate;
      injection Hi as <-; cbn [timestamp]; apply Qplus_inj_l; reflexivity.
  - intros Htotal.
    eexists. eexists. split; [reflexivity|]. cbn [distribution].
    split.
    { apply stepDistribution_last; try assumption.
      - intros id Hid. rewrite Hopt1. apply Hopt. now rewrite <- Hkeys.
      - now rewrite Htarget1. }
    split; [intros id; now rewrite keys_blend, keys_loadsOf, Hkeys|].
    intros id Hid. rewrite get_blend.
    destruct (JsMap.get id (loadsOf st1)) as [v|] eqn:Ev.
    + eexists. split; [reflexivity|]. rewrite Hopt1.
      assert (Ep : inject_Z 5 / inject_Z numSteps == 1) by reflexivity.
      assert (E0 : v + (valueAt (optimalDistribution st) id - v)
                       * (inject_Z 5 / inject_Z numSteps)
                   - valueAt (optimalDistribution st) id == 0)
        by (rewrite Ep; ring).
      rewrite E0. vm_compute. discriminate.
    + apply JsMap.get_None_keys in Ev. rewrite keys_loadsOf, Hkeys in Ev.
      contradiction.
Qed.

Lemma revert_reaches_optimal_witness :
  exists sched,
    (gradualRevert 21002 healthyAgain).2 = Some sched /\
    exists step d,
      last (steps sched) = Some step /\ distribution step = Some d /\
      (forall id, id ∈ JsMap.keys d <-> id ∈ JsMap.keys (paths healthyAgain)) /\
      forall id, id ∈ JsMap.keys (paths healthyAgain) ->
        exists v, JsMap.get id d = Some v /\
                  Qabs (v - valueAt (optimalDistribution healthyAgain) id)
                  <= 1 # 100.
Proof.
  assert (Hnd : NoDup (JsMap.keys (paths healthyAgain))) by by_compute.
  assert (Hopt : forall id, id ∈ JsMap.keys (paths healthyAgain) ->
                   is_Some (JsMap.get id (optimalDistribution healthyAgain))).
  { apply Forall_forall. by_compute. }
  assert (Htotal : Qabs (optimalTotal healthyAgain - 100) <= 1 # 100)
    by (vm_compute; discriminate).
  assert (Hex : exists sched, (gradualRevert 21002 healthyAgain).2 = Some sched)
    by (eexists; vm_compute; reflexivity).
  destruct Hex as [sched E].
  exists sched. split; [exact E|].
  exact (proj2 (proj2 (revert_reaches_optimal 21002 healthyAgain sched
                         (conj Hnd Hopt) E)) Htotal).
Defined.

End PRFCFacts.
